(** * Cache_Simulator: a shallow embedding of [sim.py] and its properties

    The Python classes [Memory], [CacheBlock], [CacheSet] and [Cache] are
    modelled one module each.  A method is a computation in a small
    state-and-exception monad: it maps the state of the objects it can
    mutate to the new state and either a value or the exception raised.
    A raise keeps the mutations done before it, as in Python.

    [main.py] holds an earlier, unfinished draft of [CacheBlock] and
    [CacheSet] that nothing calls; the model follows [sim.py]. *)

From Stdlib Require Import ZArith Lia String.
From stdpp Require Import base list strings sorting.

Local Open Scope Z_scope.

(** ** Values, exceptions, the monad *)

(** A Python value held in a memory cell or a block word. *)
Inductive pyval : Type :=
| PyNone
| PyInt (z : Z).

(** The exceptions that the code can raise.  [DanglingRef] stands for a
    reference to no object, which Python cannot form. *)
Inductive exn : Type :=
| ValueError (msg : string)
| ZeroDivisionError
| IndexError
| KeyError
| DanglingRef.

(** The outcome of a call: a value returned or an exception raised. *)
Inductive result (A : Type) : Type :=
| Ok (a : A)
| Raise (e : exn).
Arguments Ok {A} a.
Arguments Raise {A} e.

(** A method over the mutable state [S] that returns an [A]. *)
Definition M (S A : Type) : Type := S → S * result A.

Definition ret {S A} (a : A) : M S A := λ s, (s, Ok a).
Definition raise {S A} (e : exn) : M S A := λ s, (s, Raise e).
Definition bind {S A B} (m : M S A) (k : A → M S B) : M S B :=
  λ s, match m s with
       | (s', Ok a) => k a s'
       | (s', Raise e) => (s', Raise e)
       end.
Definition get {S} : M S S := λ s, (s, Ok s).
Definition modify {S} (f : S → S) : M S unit := λ s, (f s, Ok tt).
Definition lift_result {S A} (r : result A) : M S A := λ s, (s, r).

Declare Scope py_scope.
Delimit Scope py_scope with py.
Notation "'do' x <- m ; k" := (bind m (λ x, k))
  (at level 10, x pattern, m at level 100, k at level 200) : py_scope.
Notation "'run' m ; k" := (bind m (λ _, k))
  (at level 10, m at level 100, k at level 200) : py_scope.
Local Open Scope py_scope.

(** [for i in l: body(i)] *)
Fixpoint for_each {S A} (l : list A) (body : A → M S unit) : M S unit :=
  match l with
  | [] => ret tt
  | i :: l' => run body i; for_each l' body
  end.

(** Run a computation on the second component of a pair of states. *)
Definition on_snd {S1 S2 A} (m : M S2 A) : M (S1 * S2) A :=
  λ s, match m s.2 with (s2, r) => ((s.1, s2), r) end.
Definition modify_fst {S1 S2} (f : S1 → S1) : M (S1 * S2) unit :=
  modify (λ s, (f s.1, s.2)).

(** Python list subscripting [l[i]]: a negative [i] counts from the end. *)
Definition list_getitem {A} (l : list A) (i : Z) : option A :=
  let n := Z.of_nat (length l) in
  if 0 <=? i then l !! Z.to_nat i
  else if - n <=? i then l !! Z.to_nat (n + i)
  else None.

(** [l[i] = x]; [None] stands for IndexError. *)
Definition list_setitem {A} (l : list A) (i : Z) (x : A) : option (list A) :=
  let n := Z.of_nat (length l) in
  if (0 <=? i) && (i <? n) then Some (<[Z.to_nat i := x]> l)
  else if (- n <=? i) && (i <? 0) then Some (<[Z.to_nat (n + i) := x]> l)
  else None.

(** ** Memory *)

Module Memory.

Record t : Type := mk {
  size : Z;
  data : list pyval;
  access_count : Z
}.

Definition set_access_count (n : Z) (self : t) : t :=
  mk (size self) (data self) n.
Definition set_data (d : list pyval) (self : t) : t :=
  mk (size self) d (access_count self).

(** [Memory(size)]: [[None] * size] is empty for a size below 1. *)
Definition init (size : Z) : t :=
  mk size (replicate (Z.to_nat size) PyNone) 0.

Definition read (address : Z) : M t pyval :=
  do self <- get;
  if (address <? 0) || (address >=? size self)
  then raise (ValueError "Address out of range")
  else
    run modify (λ self, set_access_count (access_count self + 1) self);
    match list_getitem (data self) address with
    | None => raise IndexError
    | Some PyNone => ret (PyInt 0)
    | Some v => ret v
    end.

Definition write (address : Z) (d : pyval) : M t unit :=
  do self <- get;
  if (address <? 0) || (address >=? size self)
  then raise (ValueError "Address out of range")
  else
    run modify (λ self, set_access_count (access_count self + 1) self);
    match list_setitem (data self) address d with
    | None => raise IndexError
    | Some l => modify (set_data l)
    end.

End Memory.

(** ** The shared objects

    [Memory] objects are shared: the [Cache], each of its [CacheSet]s and
    the callers of [read] and [write] hold references to them.  A
    reference is an index in the store.  The store also carries the
    outcomes that [random.choice] will draw. *)

Definition ref : Type := nat.

Record Store : Type := mkStore {
  mems : list Memory.t;
  rand : list nat
}.

Definition set_mems (l : list Memory.t) (st : Store) : Store :=
  mkStore l (rand st).

(** Run a method of the [Memory] object that [r] refers to. *)
Definition at_ref {A} (r : ref) (m : M Memory.t A) : M Store A :=
  λ st, match mems st !! r with
        | None => (st, Raise DanglingRef)
        | Some mem =>
            match m mem with
            | (mem', res) => (set_mems (<[r := mem']> (mems st)) st, res)
            end
        end.

(** [random.choice(seq)] for a sequence of [n > 0] items: the index drawn. *)
Definition random_choice (n : nat) : M Store nat :=
  λ st, match rand st with
        | [] => (st, Ok 0%nat)
        | r :: rs => (mkStore (mems st) rs, Ok (r mod n)%nat)
        end.

(** ** CacheBlock *)

Module CacheBlock.

Record t : Type := mk {
  tag : Z;
  valid : bool;
  dirty : bool;
  block_size : Z;
  data : list pyval;
  base_address : Z;
  load_time : Z;
  last_time : Z
}.

Definition set_dirty (d : bool) (b : t) : t :=
  mk (tag b) (valid b) d (block_size b) (data b) (base_address b)
     (load_time b) (last_time b).
Definition set_data (d : list pyval) (b : t) : t :=
  mk (tag b) (valid b) (dirty b) (block_size b) d (base_address b)
     (load_time b) (last_time b).
Definition set_last_time (n : Z) (b : t) : t :=
  mk (tag b) (valid b) (dirty b) (block_size b) (data b) (base_address b)
     (load_time b) n.

End CacheBlock.

(** ** OrderedDict keyed by tags

    Entries are kept in insertion order, which is the order of iteration. *)

Module OrderedDict.

Definition t (V : Type) : Type := list (Z * V).

Section Ops.
Context {V : Type}.

Fixpoint getitem (d : t V) (k : Z) : option V :=
  match d with
  | [] => None
  | (k', v) :: d' => if k =? k' then Some v else getitem d' k
  end.

(** [d[k] = v]: an existing key keeps its place, a new one goes last. *)
Fixpoint setitem (d : t V) (k : Z) (v : V) : t V :=
  match d with
  | [] => [(k, v)]
  | (k', v') :: d' =>
      if k =? k' then (k, v) :: d' else (k', v') :: setitem d' k v
  end.

(** [del d[k]] for a key that is present. *)
Fixpoint delitem (d : t V) (k : Z) : t V :=
  match d with
  | [] => []
  | (k', v) :: d' => if k =? k' then d' else (k', v) :: delitem d' k
  end.

Definition keys (d : t V) : list Z := d.*1.
End Ops.

End OrderedDict.

(** ** CacheSet *)

Module CacheSet.

Record t : Type := mk {
  memory : ref;
  blocks : OrderedDict.t CacheBlock.t;
  associativity : Z;
  policy : string
}.

Definition set_blocks (d : OrderedDict.t CacheBlock.t) (self : t) : t :=
  mk (memory self) d (associativity self) (policy self).

Definition init (associativity : Z) (policy : string) (memory : ref) : t :=
  mk memory [] associativity policy.

Definition find_block (self : t) (tag : Z) : option CacheBlock.t :=
  OrderedDict.getitem (blocks self) tag.

(** One turn of the loops of [evict_block] over [blocks.items()]:
    the accumulator is [(temp, evict_tag)]. *)
Definition scan_step (stamp : CacheBlock.t → Z)
    (acc : Z * option Z) (item : Z * CacheBlock.t) : Z * option Z :=
  if (acc.1 =? -1) || (stamp item.2 <? acc.1)
  then (stamp item.2, Some item.1)
  else acc.

Definition scan (stamp : CacheBlock.t → Z)
    (d : OrderedDict.t CacheBlock.t) : Z * option Z :=
  foldl (scan_step stamp) (-1, None) d.

(** The first half of [evict_block]: the value of [evict_tag]. *)
Definition choose_victim : M (t * Store) (option Z) :=
  do s <- get;
  let self := s.1 in
  if String.eqb (policy self) "RANDOM" then
    let ks := OrderedDict.keys (blocks self) in
    do i <- on_snd (random_choice (length ks));
    ret (ks !! i)
  else if String.eqb (policy self) "FIFO" then
    ret (scan CacheBlock.load_time (blocks self)).2
  else if String.eqb (policy self) "LRU" then
    ret (scan CacheBlock.last_time (blocks self)).2
  else ret None.

(** The write-back loop of [evict_block]. *)
Definition write_back (memory : ref) (b : CacheBlock.t) : M Store unit :=
  for_each (seqZ 0 (CacheBlock.block_size b)) (λ i,
    let addr := CacheBlock.base_address b + i in
    do size <- at_ref memory (do m <- get; ret (Memory.size m));
    if addr <? size then
      match list_getitem (CacheBlock.data b) i with
      | None => raise IndexError
      | Some w => at_ref memory (Memory.write addr w)
      end
    else ret tt).

Definition evict_block : M (t * Store) unit :=
  do s <- get;
  match blocks s.1 with
  | [] => ret tt
  | _ :: _ =>
      do evict_tag <- choose_victim;
      match evict_tag with
      | None => ret tt
      | Some evict_tag =>
          do s <- get;
          match OrderedDict.getitem (blocks s.1) evict_tag with
          | None => raise KeyError
          | Some b =>
              run (if CacheBlock.dirty b
                      && negb (bool_decide (CacheBlock.data b = []))
                   then on_snd (write_back (memory s.1) b)
                   else ret tt);
              modify_fst (λ self,
                set_blocks (OrderedDict.delitem (blocks self) evict_tag) self)
          end
      end
  end.

Definition add_block (block : CacheBlock.t) : M (t * Store) unit :=
  do s <- get;
  run (if Z.of_nat (length (blocks s.1)) >=? associativity s.1
       then evict_block else ret tt);
  modify_fst (λ self,
    set_blocks (OrderedDict.setitem (blocks self) (CacheBlock.tag block) block)
               self).

End CacheSet.

(** ** Cache *)

Module Cache.

Record t : Type := mk {
  cache_size : Z;
  associativity : Z;
  policy : string;
  address_bit : Z;
  block_size : Z;
  set_count : Z;
  memory : ref;
  access_count : Z;
  hit_count : Z;
  read_count : Z;
  write_count : Z;
  read_hit_count : Z;
  write_hit_count : Z;
  time : Z;
  (** the dict [sets], whose keys are [0 .. set_count-1] *)
  sets : list CacheSet.t
}.

Definition set_access_count (n : Z) (c : t) : t :=
  mk (cache_size c) (associativity c) (policy c) (address_bit c)
     (block_size c) (set_count c) (memory c)
     n (hit_count c) (read_count c) (write_count c)
     (read_hit_count c) (write_hit_count c) (time c) (sets c).
Definition set_hit_count (n : Z) (c : t) : t :=
  mk (cache_size c) (associativity c) (policy c) (address_bit c)
     (block_size c) (set_count c) (memory c)
     (access_count c) n (read_count c) (write_count c)
     (read_hit_count c) (write_hit_count c) (time c) (sets c).
Definition set_read_count (n : Z) (c : t) : t :=
  mk (cache_size c) (associativity c) (policy c) (address_bit c)
     (block_size c) (set_count c) (memory c)
     (access_count c) (hit_count c) n (write_count c)
     (read_hit_count c) (write_hit_count c) (time c) (sets c).
Definition set_write_count (n : Z) (c : t) : t :=
  mk (cache_size c) (associativity c) (policy c) (address_bit c)
     (block_size c) (set_count c) (memory c)
     (access_count c) (hit_count c) (read_count c) n
     (read_hit_count c) (write_hit_count c) (time c) (sets c).
Definition set_read_hit_count (n : Z) (c : t) : t :=
  mk (cache_size c) (associativity c) (policy c) (address_bit c)
     (block_size c) (set_count c) (memory c)
     (access_count c) (hit_count c) (read_count c) (write_count c)
     n (write_hit_count c) (time c) (sets c).
Definition set_write_hit_count (n : Z) (c : t) : t :=
  mk (cache_size c) (associativity c) (policy c) (address_bit c)
     (block_size c) (set_count c) (memory c)
     (access_count c) (hit_count c) (read_count c) (write_count c)
     (read_hit_count c) n (time c) (sets c).
Definition set_time (n : Z) (c : t) : t :=
  mk (cache_size c) (associativity c) (policy c) (address_bit c)
     (block_size c) (set_count c) (memory c)
     (access_count c) (hit_count c) (read_count c) (write_count c)
     (read_hit_count c) (write_hit_count c) n (sets c).
Definition set_sets (l : list CacheSet.t) (c : t) : t :=
  mk (cache_size c) (associativity c) (policy c) (address_bit c)
     (block_size c) (set_count c) (memory c)
     (access_count c) (hit_count c) (read_count c) (write_count c)
     (read_hit_count c) (write_hit_count c) (time c) l.

(** [math.log2(n) % 1 != 0] is false exactly when the floating-point
    logarithm of [n] is a whole number.  It is modelled by the exact test
    that [n] is a power of two; the two agree on every power of two and on
    every [n] below [2^48]. *)
Definition is_power_of_two (n : Z) : bool := n =? 2 ^ Z.log2 n.

(** [Cache(cache_size, block_size, associativity, policy, address_bit, memory)].
    [int(a / b)] truncates the quotient towards zero. *)
Definition init (cache_size block_size associativity : Z) (policy : string)
    (address_bit : Z) (memory : ref) : result t :=
  if (cache_size <=? 0) || (block_size <=? 0) || (associativity <=? 0) then
    Raise (ValueError "Parameter 'Size' must be greater than 0")
  else if negb (is_power_of_two cache_size)
          || negb (is_power_of_two block_size)
          || negb (is_power_of_two associativity) then
    Raise (ValueError "Parameter 'Size' must be a power of 2")
  else if negb (bool_decide (policy ∈ ["FIFO"; "LRU"; "RANDOM"])) then
    Raise (ValueError "Policy must be one of FIFO , LRU, RANDOM")
  else
    let set_count := cache_size ÷ (block_size * associativity) in
    Ok (mk cache_size associativity policy address_bit block_size set_count
           memory 0 0 0 0 0 0 0
           ((λ _, CacheSet.init associativity policy memory)
              <$> seqZ 0 set_count)).

(** [address_split(address)].  [2**address_bit] is the integer power:
    [address_bit] is not negative.  [//] and [%] round towards minus
    infinity, as [Z.div] and [Z.modulo] do, and raise on a zero divisor. *)
Definition address_split (self : t) (address : Z) : result (Z * Z * Z) :=
  if address >=? 2 ^ address_bit self then
    Raise (ValueError "Address out of range")
  else if block_size self =? 0 then Raise ZeroDivisionError
  else
    let offset := address `mod` block_size self in
    if set_count self =? 0 then Raise ZeroDivisionError
    else
      let index := (address `div` block_size self) `mod` set_count self in
      if block_size self * set_count self =? 0 then Raise ZeroDivisionError
      else
        let tag := address `div` (block_size self * set_count self) in
        Ok (tag, index, offset).

(** [self.sets[index]] *)
Definition sets_getitem (index : Z) : M (t * Store) CacheSet.t :=
  do s <- get;
  if 0 <=? index then
    match sets s.1 !! Z.to_nat index with
    | Some cache_set => ret cache_set
    | None => raise KeyError
    end
  else raise KeyError.

(** Run a method of the set [self.sets[index]], which is present. *)
Definition at_set {A} (index : Z) (m : M (CacheSet.t * Store) A)
    : M (t * Store) A :=
  λ s, match sets s.1 !! Z.to_nat index with
       | None => (s, Raise KeyError)
       | Some cache_set =>
           match m (cache_set, s.2) with
           | ((cache_set', st'), res) =>
               ((set_sets (<[Z.to_nat index := cache_set']> (sets s.1)) s.1,
                 st'), res)
           end
       end.

(** An assignment to a field of [block], which [cache_set.blocks] holds
    under [tag]. *)
Definition update_block (index tag : Z) (f : CacheBlock.t → CacheBlock.t)
    : M (t * Store) unit :=
  at_set index (modify_fst (λ cache_set,
    match CacheSet.find_block cache_set tag with
    | Some block =>
        CacheSet.set_blocks
          (OrderedDict.setitem (CacheSet.blocks cache_set) tag (f block))
          cache_set
    | None => cache_set
    end)).

(** The loop of the miss path of [read] that fills [data]. *)
Fixpoint fetch (address_bit : Z) (memory : ref) (block_address : Z)
    (offsets : list Z) (data : list pyval) : M Store (list pyval) :=
  match offsets with
  | [] => ret data
  | i :: offsets' =>
      if block_address + i <? 2 ^ address_bit then
        do w <- at_ref memory (Memory.read (block_address + i));
        fetch address_bit memory block_address offsets' (data ++ [w])
      else fetch address_bit memory block_address offsets' data
  end.

Definition read (address : Z) (memory : ref) : M (t * Store) pyval :=
  run modify_fst (λ self, set_access_count (access_count self + 1) self);
  run modify_fst (λ self, set_read_count (read_count self + 1) self);
  do s <- get;
  do split <- lift_result (address_split s.1 address);
  let '(tag, index, offset) := split in
  do cache_set <- sets_getitem index;
  let miss : M (t * Store) pyval :=
    do s <- get;
    let self := s.1 in
    let block_address := (address `div` block_size self) * block_size self in
    do data <- on_snd (fetch (address_bit self) memory block_address
                             (seqZ 0 (block_size self)) []);
    let new_block :=
      CacheBlock.mk tag true false (block_size self) data block_address
                    (time self) (time self) in
    run at_set index (CacheSet.add_block new_block);
    run modify_fst (λ self, set_time (time self + 1) self);
    match data with
    | [] => ret PyNone
    | _ :: _ =>
        match list_getitem data offset with
        | Some w => ret w
        | None => raise IndexError
        end
    end in
  match CacheSet.find_block cache_set tag with
  | Some block =>
      if CacheBlock.valid block then
        run modify_fst (λ self, set_hit_count (hit_count self + 1) self);
        run modify_fst (λ self,
              set_read_hit_count (read_hit_count self + 1) self);
        do s <- get;
        run (if String.eqb (policy s.1) "LRU"
             then update_block index tag (CacheBlock.set_last_time (time s.1))
             else ret tt);
        run modify_fst (λ self, set_time (time self + 1) self);
        match CacheBlock.data block with
        | [] => ret PyNone
        | _ :: _ =>
            match list_getitem (CacheBlock.data block) offset with
            | Some w => ret w
            | None => raise IndexError
            end
        end
      else miss
  | None => miss
  end.

Definition write (address : Z) (data : pyval) (memory : ref)
    : M (t * Store) unit :=
  run modify_fst (λ self, set_access_count (access_count self + 1) self);
  run modify_fst (λ self, set_write_count (write_count self + 1) self);
  do s <- get;
  do split <- lift_result (address_split s.1 address);
  let '(tag, index, offset) := split in
  do cache_set <- sets_getitem index;
  let miss : M (t * Store) unit :=
    run modify_fst (λ self, set_time (time self + 1) self);
    on_snd (at_ref memory (Memory.write address data)) in
  match CacheSet.find_block cache_set tag with
  | Some block =>
      if CacheBlock.valid block then
        run modify_fst (λ self, set_hit_count (hit_count self + 1) self);
        run modify_fst (λ self,
              set_write_hit_count (write_hit_count self + 1) self);
        let data0 :=
          match CacheBlock.data block with
          | [] => replicate (Z.to_nat (block_size s.1)) PyNone
          | _ :: _ => CacheBlock.data block
          end in
        match list_setitem data0 offset data with
        | None =>
            run update_block index tag (CacheBlock.set_data data0);
            raise IndexError
        | Some data1 =>
            run update_block index tag (CacheBlock.set_data data1);
            run update_block index tag (CacheBlock.set_dirty true);
            do s <- get;
            run (if String.eqb (policy s.1) "LRU"
                 then update_block index tag
                        (CacheBlock.set_last_time (time s.1))
                 else ret tt);
            modify_fst (λ self, set_time (time self + 1) self)
        end
      else miss
  | None => miss
  end.

(** What a rate method returns: the int [0], or the float [num / den],
    which is kept as the two integers that are divided. *)
Inductive rate : Type :=
| RateZero
| RateQuotient (num den : Z).

Definition get_hit_rate (self : t) : rate :=
  if access_count self =? 0 then RateZero
  else RateQuotient (hit_count self) (access_count self).

Definition get_read_hit_rate (self : t) : rate :=
  if read_count self =? 0 then RateZero
  else RateQuotient (read_hit_count self) (read_count self).

Definition get_write_hit_rate (self : t) : rate :=
  if write_count self =? 0 then RateZero
  else RateQuotient (write_hit_count self) (write_count self).

End Cache.

(** ** Running a cache: the states a driver can reach *)

Definition World : Type := Cache.t * Store.

(** One call of [read] or [write], whatever its outcome. *)
Inductive step : World → World → Prop :=
| step_read address memory w w' r :
    Cache.read address memory w = (w', r) → step w w'
| step_write address data memory w w' r :
    Cache.write address data memory w = (w', r) → step w w'.

(** The worlds reached from a freshly constructed cache. *)
Inductive reachable : World → Prop :=
| reachable_init cache_size block_size associativity policy address_bit
    memory c st :
    Cache.init cache_size block_size associativity policy address_bit memory
      = Ok c →
    reachable (c, st)
| reachable_step w w' : reachable w → step w w' → reachable w'.

(** A trace of calls, as [trace_file] issues them: it stops at the first
    exception. *)
Inductive op : Type :=
| Read (address : Z)
| Write (address : Z) (data : pyval).

Definition run_op (memory : ref) (o : op) : M World unit :=
  match o with
  | Read address => run Cache.read address memory; ret tt
  | Write address data => Cache.write address data memory
  end.

Definition run_ops (memory : ref) (ops : list op) : M World unit :=
  for_each ops (run_op memory).

(** * Notions used by the properties *)

(** ** The outcomes of a call

    The state and the result of [read] and [write], case by case: the
    lemmas of the next part show that the methods compute them. *)

(** The cache once a [read] has been counted. *)
Definition counted_read (c : Cache.t) : Cache.t :=
  Cache.set_read_count (Cache.read_count c + 1)
    (Cache.set_access_count (Cache.access_count c + 1) c).

(** The cache once a [write] has been counted. *)
Definition counted_write (c : Cache.t) : Cache.t :=
  Cache.set_write_count (Cache.write_count c + 1)
    (Cache.set_access_count (Cache.access_count c + 1) c).

(** The cache with [b] stored under [tag] in the set [index], which was
    [s]. *)
Definition with_block (c : Cache.t) (index tag : Z) (s : CacheSet.t)
    (b : CacheBlock.t) : Cache.t :=
  Cache.set_sets
    (<[Z.to_nat index :=
         CacheSet.set_blocks (OrderedDict.setitem (CacheSet.blocks s) tag b) s]>
       (Cache.sets c)) c.

(** The block after a hit: under LRU its [last_time] is the clock. *)
Definition touched (c : Cache.t) (b : CacheBlock.t) : CacheBlock.t :=
  if String.eqb (Cache.policy c) "LRU"
  then CacheBlock.set_last_time (Cache.time c) b else b.

(** [data[offset] if data else None] *)
Definition word_at (data : list pyval) (offset : Z) : result pyval :=
  match data with
  | [] => Ok PyNone
  | _ :: _ =>
      match list_getitem data offset with
      | Some w => Ok w
      | None => Raise IndexError
      end
  end.

(** A hit: the block is in the set and valid. *)
Definition is_hit (s : CacheSet.t) (tag : Z) : bool :=
  match CacheSet.find_block s tag with
  | Some block => CacheBlock.valid block
  | None => false
  end.

(** The cache after a read hit on the block [b] of the set [index]. *)
Definition read_hit_cache (c : Cache.t) (index tag : Z) (s : CacheSet.t)
    (b : CacheBlock.t) : Cache.t :=
  let c1 :=
    Cache.set_read_hit_count (Cache.read_hit_count c + 1)
      (Cache.set_hit_count (Cache.hit_count c + 1) (counted_read c)) in
  Cache.set_time (Cache.time c + 1)
    (if String.eqb (Cache.policy c) "LRU"
     then with_block c1 index tag s (CacheBlock.set_last_time (Cache.time c) b)
     else c1).

(** A miss of [read]: the block is fetched, then handed to [add_block]. *)
Definition read_miss_outcome (address : Z) (memory : ref) (c : Cache.t)
    (st : Store) (tag index offset : Z) (s : CacheSet.t)
    : World * result pyval :=
  let c1 := counted_read c in
  let block_address :=
    (address `div` Cache.block_size c) * Cache.block_size c in
  match Cache.fetch (Cache.address_bit c) memory block_address
          (seqZ 0 (Cache.block_size c)) [] st with
  | (st1, Raise e) => ((c1, st1), Raise e)
  | (st1, Ok data) =>
      let new_block :=
        CacheBlock.mk tag true false (Cache.block_size c) data block_address
                      (Cache.time c) (Cache.time c) in
      match CacheSet.add_block new_block (s, st1) with
      | ((s', st2), Raise e) =>
          ((Cache.set_sets (<[Z.to_nat index := s']> (Cache.sets c)) c1, st2),
           Raise e)
      | ((s', st2), Ok _) =>
          ((Cache.set_time (Cache.time c + 1)
              (Cache.set_sets (<[Z.to_nat index := s']> (Cache.sets c)) c1),
            st2),
           word_at data offset)
      end
  end.

(** A miss of [write] goes around the cache. *)
Definition write_miss_outcome (address : Z) (data : pyval) (memory : ref)
    (c : Cache.t) (st : Store) : World * result unit :=
  let c1 := Cache.set_time (Cache.time c + 1) (counted_write c) in
  match at_ref memory (Memory.write address data) st with
  | (st', r) => ((c1, st'), r)
  end.

(** The words of a block that a write hit stores into. *)
Definition writable_data (c : Cache.t) (b : CacheBlock.t) : list pyval :=
  match CacheBlock.data b with
  | [] => replicate (Z.to_nat (Cache.block_size c)) PyNone
  | _ :: _ => CacheBlock.data b
  end.

(** The cache once a write hit has been counted. *)
Definition write_hit_counted (c : Cache.t) : Cache.t :=
  Cache.set_write_hit_count (Cache.write_hit_count c + 1)
    (Cache.set_hit_count (Cache.hit_count c + 1) (counted_write c)).

(** A hit of [write] on the block [b]: the word is stored in the block,
    unless the block has no word at [offset]. *)
Definition write_hit_outcome (c : Cache.t) (st : Store) (data : pyval)
    (index tag offset : Z) (s : CacheSet.t) (b : CacheBlock.t)
    : World * result unit :=
  match list_setitem (writable_data c b) offset data with
  | None =>
      ((with_block (write_hit_counted c) index tag s
          (CacheBlock.set_data (writable_data c b) b), st),
       Raise IndexError)
  | Some data1 =>
      ((Cache.set_time (Cache.time c + 1)
          (with_block (write_hit_counted c) index tag s
             (touched c
                (CacheBlock.set_dirty true (CacheBlock.set_data data1 b)))),
        st),
       Ok tt)
  end.

(** ** The outcomes of eviction *)

(** The flush of the victim, which only a dirty block with data gets. *)
Definition flush (memory : ref) (b : CacheBlock.t) : M Store unit :=
  if CacheBlock.dirty b && negb (bool_decide (CacheBlock.data b = []))
  then CacheSet.write_back memory b
  else ret tt.

(** [evict_block], step by step. *)
Definition evict_outcome (s : CacheSet.t) (st : Store)
    : (CacheSet.t * Store) * result unit :=
  match CacheSet.blocks s with
  | [] => ((s, st), Ok tt)
  | _ :: _ =>
      match CacheSet.choose_victim (s, st) with
      | (w1, Raise e) => (w1, Raise e)
      | (w1, Ok None) => (w1, Ok tt)
      | ((s1, st1), Ok (Some evict_tag)) =>
          match OrderedDict.getitem (CacheSet.blocks s1) evict_tag with
          | None => ((s1, st1), Raise KeyError)
          | Some b =>
              match flush (CacheSet.memory s1) b st1 with
              | (st2, Raise e) => ((s1, st2), Raise e)
              | (st2, Ok _) =>
                  ((CacheSet.set_blocks
                      (OrderedDict.delitem (CacheSet.blocks s1) evict_tag) s1,
                    st2), Ok tt)
              end
          end
      end
  end.

(** [add_block], step by step. *)
Definition add_outcome (block : CacheBlock.t) (s : CacheSet.t) (st : Store)
    : (CacheSet.t * Store) * result unit :=
  let place (s1 : CacheSet.t) :=
    CacheSet.set_blocks
      (OrderedDict.setitem (CacheSet.blocks s1) (CacheBlock.tag block) block)
      s1 in
  if Z.of_nat (length (CacheSet.blocks s)) >=? CacheSet.associativity s then
    match CacheSet.evict_block (s, st) with
    | (w1, Raise e) => (w1, Raise e)
    | ((s1, st1), Ok _) => ((place s1, st1), Ok tt)
    end
  else ((place s, st), Ok tt).

(** The stamp that a policy compares. *)
Definition policy_stamp (policy : string) : CacheBlock.t → Z :=
  if String.eqb policy "FIFO" then CacheBlock.load_time
  else CacheBlock.last_time.

(** The blocks of a set after [add_block], when the victim needs no
    flush. *)
Definition fill (policy : string) (associativity : Z)
    (d : OrderedDict.t CacheBlock.t) (block : CacheBlock.t)
    : OrderedDict.t CacheBlock.t :=
  OrderedDict.setitem
    (if Z.of_nat (length d) >=? associativity then
       match (CacheSet.scan (policy_stamp policy) d).2 with
       | Some victim => OrderedDict.delitem d victim
       | None => d
       end
     else d)
    (CacheBlock.tag block) block.

(** No block is dirty. *)
Definition all_clean (d : OrderedDict.t CacheBlock.t) : Prop :=
  Forall (λ item, CacheBlock.dirty item.2 = false) d.

(** ** Write-back, word by word *)

(** What one turn of the write-back loop does to the memory. *)
Definition store_word (b : CacheBlock.t) (mem : Memory.t) (i : Z) : Memory.t :=
  let addr := CacheBlock.base_address b + i in
  if addr <? Memory.size mem then
    match list_getitem (CacheBlock.data b) i with
    | Some w =>
        Memory.mk (Memory.size mem) (<[Z.to_nat addr := w]> (Memory.data mem))
                  (Memory.access_count mem + 1)
    | None => mem
    end
  else mem.

(** What the loop does over the offsets [offsets]. *)
Definition store_words (b : CacheBlock.t) (offsets : list Z)
    (mem : Memory.t) : Memory.t :=
  foldl (store_word b) mem offsets.

(** The block has a word for every offset whose address is in the memory
    of size [size]. *)
Definition covers (b : CacheBlock.t) (size : Z) (offsets : list Z) : Prop :=
  Forall (λ i, 0 ≤ i
               ∧ (CacheBlock.base_address b + i < size →
                  (Z.to_nat i < length (CacheBlock.data b))%nat)) offsets.

(** ** The invariant of a running cache *)

(** [x] was filled before [y]. *)
Definition filled_before (x y : Z * CacheBlock.t) : Prop :=
  CacheBlock.load_time x.2 < CacheBlock.load_time y.2.

(** A block of the set [index], held under [tag]: it is the block that
    [read] built for that tag, with a word for each of its addresses in
    the address space, and its times are past times of the clock. *)
Record block_ok (c : Cache.t) (index : nat) (tag : Z) (b : CacheBlock.t)
    : Prop := {
  bk_tag : CacheBlock.tag b = tag;
  bk_valid : CacheBlock.valid b = true;
  bk_size : CacheBlock.block_size b = Cache.block_size c;
  bk_base :
    CacheBlock.base_address b
    = (tag * Cache.set_count c + Z.of_nat index) * Cache.block_size c;
  bk_range : 0 ≤ CacheBlock.base_address b < 2 ^ Cache.address_bit c;
  bk_data :
    length (CacheBlock.data b)
    = Z.to_nat (Z.min (Cache.block_size c)
                  (2 ^ Cache.address_bit c - CacheBlock.base_address b));
  bk_times :
    0 ≤ CacheBlock.load_time b ≤ CacheBlock.last_time b
    ∧ CacheBlock.last_time b < Cache.time c
}.

(** A set of the cache: it has the policy, the associativity and the
    Memory of the cache, and its blocks stand in the order of their
    [load_time] under distinct tags. *)
Record set_ok (c : Cache.t) (index : nat) (s : CacheSet.t) : Prop := {
  so_policy : CacheSet.policy s = Cache.policy c;
  so_associativity : CacheSet.associativity s = Cache.associativity c;
  so_memory : CacheSet.memory s = Cache.memory c;
  so_nodup : NoDup (OrderedDict.keys (CacheSet.blocks s));
  so_sorted : StronglySorted filled_before (CacheSet.blocks s);
  so_blocks : ∀ tag b, (tag, b) ∈ CacheSet.blocks s → block_ok c index tag b
}.

(** What the constructor establishes and every call keeps. *)
Record cache_ok (c : Cache.t) : Prop := {
  co_block_size : 0 < Cache.block_size c;
  co_set_count : 0 ≤ Cache.set_count c;
  co_associativity : 0 < Cache.associativity c;
  co_time : 0 ≤ Cache.time c;
  co_length : length (Cache.sets c) = Z.to_nat (Cache.set_count c);
  co_sets : ∀ i s, Cache.sets c !! i = Some s → set_ok c i s
}.

(** Two caches with the same configuration. *)
Record same_config (c c' : Cache.t) : Prop := {
  sc_cache_size : Cache.cache_size c' = Cache.cache_size c;
  sc_associativity : Cache.associativity c' = Cache.associativity c;
  sc_policy : Cache.policy c' = Cache.policy c;
  sc_address_bit : Cache.address_bit c' = Cache.address_bit c;
  sc_block_size : Cache.block_size c' = Cache.block_size c;
  sc_set_count : Cache.set_count c' = Cache.set_count c;
  sc_memory : Cache.memory c' = Cache.memory c
}.

(** The list of cells has the declared size: so [Memory(size)] makes it,
    and [read] and [write] keep it. *)
Definition memory_ok (mem : Memory.t) : Prop :=
  0 ≤ Memory.size mem ∧ length (Memory.data mem) = Z.to_nat (Memory.size mem).

(** What [Memory.read] returns for a cell that holds [v]. *)
Definition cell_value (v : pyval) : pyval :=
  match v with PyNone => PyInt 0 | _ => v end.

(** The two sums of the statistics. *)
Definition counters_consistent (c : Cache.t) : Prop :=
  Cache.access_count c = Cache.read_count c + Cache.write_count c
  ∧ Cache.hit_count c = Cache.read_hit_count c + Cache.write_hit_count c.

(** ** Traces aimed at one set *)

(** The world while one set is watched: [c] runs with the configuration
    of [c0], its clock shows [now], the set [index] holds the blocks [d],
    all clean, and the memory [memory] covers the address space. *)
Record tracked (c0 : Cache.t) (memory : ref) (index : Z) (now : Z)
    (d : OrderedDict.t CacheBlock.t) (w : World) : Prop := {
  tr_ok : cache_ok w.1;
  tr_config : same_config c0 w.1;
  tr_time : Cache.time w.1 = now;
  tr_set : ∃ s, Cache.sets w.1 !! Z.to_nat index = Some s
                ∧ CacheSet.blocks s = d;
  tr_clean : all_clean d;
  tr_memory : ∃ mem, mems w.2 !! memory = Some mem
                     ∧ memory_ok mem
                     ∧ 2 ^ Cache.address_bit c0 ≤ Memory.size mem
}.

(** The address of a call. *)
Definition op_address (o : op) : Z :=
  match o with Read address => address | Write address _ => address end.

(** The tag that [address_split] computes. *)
Definition tag_of (c : Cache.t) (address : Z) : Z :=
  address `div` (Cache.block_size c * Cache.set_count c).

(** The index that [address_split] computes. *)
Definition index_of (c : Cache.t) (address : Z) : Z :=
  (address `div` Cache.block_size c) `mod` Cache.set_count c.

(** The tags of the reads of a trace, in order. *)
Fixpoint read_tags (c : Cache.t) (ops : list op) : list Z :=
  match ops with
  | [] => []
  | Read address :: ops' => tag_of c address :: read_tags c ops'
  | Write _ _ :: ops' => read_tags c ops'
  end.

(** The tags of the writes of a trace, in order. *)
Fixpoint write_tags (c : Cache.t) (ops : list op) : list Z :=
  match ops with
  | [] => []
  | Read _ :: ops' => write_tags c ops'
  | Write address _ :: ops' => tag_of c address :: write_tags c ops'
  end.

(** Every call of the trace is for a valid address of the set [index]. *)
Definition aimed_at (c : Cache.t) (index : Z) (ops : list op) : Prop :=
  Forall (λ o, 0 ≤ op_address o < 2 ^ Cache.address_bit c
               ∧ index_of c (op_address o) = index) ops.

(** ** Small caches to evaluate on

    8 words in blocks of 2, two ways, over a memory of 16 words: two sets. *)

(** One Memory of 16 words, never written. *)
Definition demo_store : Store := mkStore [Memory.init 16] [].

(** [Cache(8, 2, 2, 'LRU', 4, memory)] *)
Definition demo_cache : Cache.t :=
  Cache.mk 8 2 "LRU" 4 2 2 0%nat 0 0 0 0 0 0 0
    [CacheSet.init 2 "LRU" 0%nat; CacheSet.init 2 "LRU" 0%nat].

(** A run of five calls on the small cache: two misses, a write hit,
    a write miss and a read hit. *)
Definition demo_trace : list op :=
  [Read 0; Read 4; Write 1 (PyInt 7); Write 9 (PyInt 3); Read 5].

(** The world after [demo_trace]. *)
Definition demo_world : World :=
  Eval cbv in (run_ops 0%nat demo_trace (demo_cache, demo_store)).1.

(** Its Memory: the write miss stored 3 at address 9. *)
Definition demo_memory : Memory.t :=
  Memory.mk 16
    [PyNone; PyNone; PyNone; PyNone; PyNone; PyNone; PyNone; PyNone;
     PyNone; PyInt 3; PyNone; PyNone; PyNone; PyNone; PyNone; PyNone] 5.

(** Set 0 of the small cache after [demo_trace]: the block of tag 0 is
    dirty and least recently used. *)
Definition demo_dirty_block : CacheBlock.t :=
  CacheBlock.mk 0 true true 2 [PyInt 0; PyInt 7] 0 0 2.

Definition demo_set : CacheSet.t :=
  CacheSet.mk 0%nat
    [(0, demo_dirty_block);
     (1, CacheBlock.mk 1 true false 2 [PyInt 0; PyInt 0] 4 1 4)]
    2 "LRU".

(** The LRU world of [demo_trace] after one more read hit, on tag 1. *)
Definition demo_next : World :=
  Eval cbv in (Cache.read 5 0%nat demo_world).1.

(** Its set 0: the block of tag 1 was touched at time 5. *)
Definition demo_next_set : CacheSet.t :=
  CacheSet.mk 0%nat
    [(0, demo_dirty_block);
     (1, CacheBlock.mk 1 true false 2 [PyInt 0; PyInt 0] 4 1 5)]
    2 "LRU".

(** [Cache(8, 2, 2, 'FIFO', 4, memory)] *)
Definition demo_fifo_cache : Cache.t :=
  Cache.mk 8 2 "FIFO" 4 2 2 0%nat 0 0 0 0 0 0 0
    [CacheSet.init 2 "FIFO" 0%nat; CacheSet.init 2 "FIFO" 0%nat].

(** The FIFO cache after its first call, a read of address 0. *)
Definition demo_fifo_first : World :=
  Eval cbv in (Cache.read 0 0%nat (demo_fifo_cache, demo_store)).1.

(** The FIFO cache after reading tags 0 and 1 of set 0. *)
Definition demo_fifo_world : World :=
  Eval cbv in (run_ops 0%nat [Read 0; Read 4] (demo_fifo_cache, demo_store)).1.

(** Its set 0. *)
Definition demo_fifo_set : CacheSet.t :=
  CacheSet.mk 0%nat
    [(0, CacheBlock.mk 0 true false 2 [PyInt 0; PyInt 0] 0 0 0);
     (1, CacheBlock.mk 1 true false 2 [PyInt 0; PyInt 0] 4 1 1)]
    2 "FIFO".

(** A clean block stamped 0. *)
Definition tie_block (tag : Z) : CacheBlock.t :=
  CacheBlock.mk tag true false 2 [PyInt 0; PyInt 0] (4 * tag) 0 0.

(** A FIFO set filled with tag 5, then tag 3, both stamped 0. *)
Definition tie_set : CacheSet.t :=
  CacheSet.mk 0%nat [(5, tie_block 5); (3, tie_block 3)] 2 "FIFO".

(** ** Counters

    What the statistics of a cache are compared with. *)

(** The number of reads and of writes of a trace. *)
Fixpoint count_reads (ops : list op) : Z :=
  match ops with
  | [] => 0
  | Read _ :: ops' => 1 + count_reads ops'
  | Write _ _ :: ops' => count_reads ops'
  end.

Fixpoint count_writes (ops : list op) : Z :=
  match ops with
  | [] => 0
  | Read _ :: ops' => count_writes ops'
  | Write _ _ :: ops' => 1 + count_writes ops'
  end.

(** The hit counters never exceed the counters of calls. *)
Record counters_bounded (c : Cache.t) : Prop := {
  cb_read : 0 ≤ Cache.read_hit_count c ≤ Cache.read_count c;
  cb_write : 0 ≤ Cache.write_hit_count c ≤ Cache.write_count c;
  cb_all : 0 ≤ Cache.hit_count c ≤ Cache.access_count c
}.

(** ** The changes of a set *)

(** How a call of the cache [c] for the tag [tag] changes the blocks [d]
    of a set: it keeps them, it assigns to a field of the block of the
    tag, or it stores a block built at the time of the clock, in a free
    place or in the place of a victim, which under FIFO and LRU is the
    one that the scan of [evict_block] finds. *)
Inductive set_change (c : Cache.t) (tag : Z)
    (d d' : OrderedDict.t CacheBlock.t) : Prop :=
| set_kept : d' = d → set_change c tag d d'
| set_touched b b' :
    OrderedDict.getitem d tag = Some b →
    d' = OrderedDict.setitem d tag b' →
    CacheBlock.load_time b' = CacheBlock.load_time b →
    CacheBlock.last_time b' = CacheBlock.last_time b
    ∨ CacheBlock.last_time b' = Cache.time c →
    set_change c tag d d'
| set_filled block :
    tag ∉ OrderedDict.keys d →
    Z.of_nat (length d) < Cache.associativity c →
    d' = OrderedDict.setitem d tag block →
    CacheBlock.load_time block = Cache.time c →
    CacheBlock.last_time block = Cache.time c →
    set_change c tag d d'
| set_replaced victim b block :
    tag ∉ OrderedDict.keys d →
    Cache.associativity c ≤ Z.of_nat (length d) →
    OrderedDict.getitem d victim = Some b →
    (Cache.policy c = "FIFO" ∨ Cache.policy c = "LRU" →
     (CacheSet.scan (policy_stamp (Cache.policy c)) d).2 = Some victim) →
    d' = OrderedDict.setitem (OrderedDict.delitem d victim) tag block →
    CacheBlock.load_time block = Cache.time c →
    CacheBlock.last_time block = Cache.time c →
    set_change c tag d d'.

(** No two blocks under different tags bear the same [last_time]. *)
Definition last_times_differ (d : OrderedDict.t CacheBlock.t) : Prop :=
  ∀ tag1 b1 tag2 b2,
    (tag1, b1) ∈ d → (tag2, b2) ∈ d →
    CacheBlock.last_time b1 = CacheBlock.last_time b2 → tag1 = tag2.

(** ** The cache in front of its memory *)

(** The block, if any, that holds the word of [address]. *)
Definition holder (c : Cache.t) (address : Z) : option CacheBlock.t :=
  match Cache.sets c !! Z.to_nat (index_of c address) with
  | Some s => CacheSet.find_block s (tag_of c address)
  | None => None
  end.

(** The word that the cache [c] and its memory [mem] hold for [address]:
    the word of the block that holds the address, or else what
    [Memory.read] returns for the cell. *)
Definition contents (c : Cache.t) (mem : Memory.t) (address : Z)
    : option pyval :=
  match holder c address with
  | Some b => CacheBlock.data b !! Z.to_nat (address `mod` Cache.block_size c)
  | None => cell_value <$> Memory.data mem !! Z.to_nat address
  end.

(** The cache [c] agrees with its memory [mem], which has a cell for each
    address of the address space: no word of a block is [None], and a
    clean block holds what [Memory.read] returns for its addresses. *)
Record coherent (c : Cache.t) (mem : Memory.t) : Prop := {
  ch_cache : cache_ok c;
  ch_policy : Cache.policy c ∈ ["FIFO"; "LRU"; "RANDOM"];
  ch_set_count : 0 < Cache.set_count c;
  ch_memory : memory_ok mem;
  ch_size : Memory.size mem = 2 ^ Cache.address_bit c;
  ch_words : ∀ i s tag b o w,
    Cache.sets c !! i = Some s →
    (tag, b) ∈ CacheSet.blocks s →
    CacheBlock.data b !! o = Some w →
    w ≠ PyNone
    ∧ (CacheBlock.dirty b = false →
       cell_value <$>
         Memory.data mem !! Z.to_nat (CacheBlock.base_address b + Z.of_nat o)
       = Some w)
}.

(** The blocks of a set once a victim, if there is one, has left it. *)
Definition without (d : OrderedDict.t CacheBlock.t)
    (victim : option (Z * CacheBlock.t)) : OrderedDict.t CacheBlock.t :=
  match victim with
  | Some (v, _) => OrderedDict.delitem d v
  | None => d
  end.

(** The worlds of a cache that is used as [main] uses it: the cache is
    constructed with a set at least, over a [Memory] that has a cell for
    each address of the address space, and then called through that
    [Memory], to read and to write integers. *)
Inductive served : World → Prop :=
| served_init cache_size block_size associativity policy address_bit
    memory c st mem :
    Cache.init cache_size block_size associativity policy address_bit memory
      = Ok c →
    0 < Cache.set_count c →
    mems st !! memory = Some mem →
    memory_ok mem →
    Memory.size mem = 2 ^ address_bit →
    served (c, st)
| served_read w address w' r :
    served w →
    Cache.read address (Cache.memory w.1) w = (w', r) →
    served w'
| served_write w address z w' r :
    served w →
    Cache.write address (PyInt z) (Cache.memory w.1) w = (w', r) →
    served w'.

(** The word that a world holds for [address], in the cache or in the
    memory of the cache. *)
Definition world_contents (w : World) (address : Z) : option pyval :=
  match mems w.2 !! Cache.memory w.1 with
  | Some mem => contents w.1 mem address
  | None => None
  end.

(** The values that the reads of a trace return, in order, when the calls
    go to the cache. *)
Fixpoint cache_reads (memory : ref) (ops : list op) : M World (list pyval) :=
  match ops with
  | [] => ret []
  | Read address :: ops' =>
      do v <- Cache.read address memory;
      do vs <- cache_reads memory ops';
      ret (v :: vs)
  | Write address data :: ops' =>
      run Cache.write address data memory;
      cache_reads memory ops'
  end.

(** The values that they return when the calls go to a [Memory] with no
    cache in front of it. *)
Fixpoint memory_reads (ops : list op) : M Memory.t (list pyval) :=
  match ops with
  | [] => ret []
  | Read address :: ops' =>
      do v <- Memory.read address;
      do vs <- memory_reads ops';
      ret (v :: vs)
  | Write address data :: ops' =>
      run Memory.write address data;
      memory_reads ops'
  end.

(** The calls of a trace are for addresses of the address space, and its
    writes store integers. *)
Definition valid_trace (address_bit : Z) (ops : list op) : Prop :=
  Forall (λ o, 0 ≤ op_address o < 2 ^ address_bit
               ∧ match o with
                 | Read _ => True
                 | Write _ data => ∃ z, data = PyInt z
                 end) ops.

(** ** More small sets and worlds *)

(** A full set under a policy that [evict_block] does not know. *)
Definition mru_set : CacheSet.t :=
  CacheSet.mk 0%nat [(5, tie_block 5); (3, tie_block 3)] 2 "MRU".

(** A RANDOM set of two blocks and a store whose next draw is 7. *)
Definition random_set : CacheSet.t :=
  CacheSet.mk 0%nat [(5, tie_block 5); (3, tie_block 3)] 2 "RANDOM".

Definition random_store : Store := mkStore [Memory.init 16] [7%nat].

(** The LRU world of [demo_trace] after a read of address 8, which takes
    the place of the dirty block of tag 0, and after a read of address 12
    then. *)
Definition demo_evicting : World :=
  Eval cbv in (Cache.read 8 0%nat demo_world).1.

Definition demo_evicted : World :=
  Eval cbv in (Cache.read 12 0%nat demo_evicting).1.

(** The tie set once [add_block] has stored a block of tag 2 in it. *)
Definition tie_set_added : CacheSet.t :=
  Eval cbv in (CacheSet.add_block (tie_block 2) (tie_set, demo_store)).1.1.

(** A block stamped -1, the value that the scan of [evict_block] starts
    from. *)
Definition marked_block (tag : Z) : CacheBlock.t :=
  CacheBlock.mk tag true false 2 [PyInt 0; PyInt 0] (4 * tag) (-1) (-1).

(** A FIFO set filled with tag 5, then tag 3, both stamped -1. *)
Definition marked_set : CacheSet.t :=
  CacheSet.mk 0%nat [(5, marked_block 5); (3, marked_block 3)] 2 "FIFO".

(** * Properties *)

(** ** Tactics for the monad *)

Ltac unfold_m :=
  unfold bind, ret, raise, get, modify, modify_fst, on_snd, lift_result in *.

Ltac simpl_m := unfold_m; simpl in *.

(** ** Address decomposition *)

Lemma address_split_ok (c : Cache.t) (address : Z) :
  0 < Cache.block_size c → 0 < Cache.set_count c →
  address < 2 ^ Cache.address_bit c →
  Cache.address_split c address
  = Ok (address `div` (Cache.block_size c * Cache.set_count c),
        (address `div` Cache.block_size c) `mod` Cache.set_count c,
        address `mod` Cache.block_size c).
Proof.
  intros Hb Hs Ha. unfold Cache.address_split.
  destruct (Z.geb_spec address (2 ^ Cache.address_bit c)); [lia|].
  destruct (Z.eqb_spec (Cache.block_size c) 0); [lia|].
  destruct (Z.eqb_spec (Cache.set_count c) 0); [lia|].
  destruct (Z.eqb_spec (Cache.block_size c * Cache.set_count c) 0); [nia|].
  reflexivity.
Qed.

Lemma address_split_inv (c : Cache.t) (address tag index offset : Z) :
  Cache.address_split c address = Ok (tag, index, offset) →
  address < 2 ^ Cache.address_bit c
  ∧ Cache.block_size c ≠ 0 ∧ Cache.set_count c ≠ 0
  ∧ tag = address `div` (Cache.block_size c * Cache.set_count c)
  ∧ index = (address `div` Cache.block_size c) `mod` Cache.set_count c
  ∧ offset = address `mod` Cache.block_size c.
Proof.
  unfold Cache.address_split.
  destruct (Z.geb_spec address (2 ^ Cache.address_bit c)); [discriminate|].
  destruct (Z.eqb_spec (Cache.block_size c) 0); [discriminate|].
  destruct (Z.eqb_spec (Cache.set_count c) 0); [discriminate|].
  destruct (Z.eqb_spec (Cache.block_size c * Cache.set_count c) 0);
    [discriminate|].
  intros [= <- <- <-]. repeat split; auto; lia.
Qed.

Lemma address_split_raise_range (c : Cache.t) (address : Z) :
  2 ^ Cache.address_bit c ≤ address →
  Cache.address_split c address = Raise (ValueError "Address out of range").
Proof.
  intros Ha. unfold Cache.address_split.
  destruct (Z.geb_spec address (2 ^ Cache.address_bit c)); [done|lia].
Qed.

(** The three parts put together give the address back. *)
Lemma recombine (bs sc address : Z) :
  0 < bs → 0 < sc →
  address `div` (bs * sc) * bs * sc + (address `div` bs) `mod` sc * bs
  + address `mod` bs = address.
Proof.
  intros Hb Hs.
  rewrite <- (Z.div_div address bs sc) by lia.
  pose proof (Z.div_mod address bs ltac:(lia)) as H1.
  pose proof (Z.div_mod (address `div` bs) sc ltac:(lia)) as H2.
  nia.
Qed.

(** ** What one call does: the outcomes of [read] and [write] *)

Lemma read_split_raise address memory c st e :
  Cache.address_split c address = Raise e →
  Cache.read address memory (c, st) = ((counted_read c, st), Raise e).
Proof.
  intros H. unfold Cache.read. simpl_m.
  change (Cache.address_split _ address) with (Cache.address_split c address).
  rewrite H. reflexivity.
Qed.

Lemma read_key_error address memory c st tag index offset :
  Cache.address_split c address = Ok (tag, index, offset) →
  index < 0 ∨ Cache.sets c !! Z.to_nat index = None →
  Cache.read address memory (c, st) = ((counted_read c, st), Raise KeyError).
Proof.
  intros H Hk. unfold Cache.read, Cache.sets_getitem. simpl_m.
  change (Cache.address_split _ address) with (Cache.address_split c address).
  rewrite H. simpl.
  destruct (Z.leb_spec 0 index); [|reflexivity].
  destruct Hk as [? | ->]; [lia|reflexivity].
Qed.

Lemma read_hit address memory c st tag index offset s b :
  Cache.address_split c address = Ok (tag, index, offset) →
  0 ≤ index →
  Cache.sets c !! Z.to_nat index = Some s →
  CacheSet.find_block s tag = Some b →
  CacheBlock.valid b = true →
  Cache.read address memory (c, st)
  = ((read_hit_cache c index tag s b, st),
     word_at (CacheBlock.data b) offset).
Proof.
  intros H Hi Hs Hb Hv.
  unfold Cache.read, Cache.sets_getitem, Cache.update_block, Cache.at_set.
  simpl_m.
  change (Cache.address_split _ address) with (Cache.address_split c address).
  rewrite H. simpl.
  destruct (Z.leb_spec 0 index); [|lia].
  rewrite Hs. simpl. rewrite Hb, Hv. simpl.
  unfold read_hit_cache, with_block, word_at.
  destruct (String.eqb (Cache.policy c) "LRU"); simpl.
  - rewrite Hs. simpl. rewrite Hb.
    destruct (CacheBlock.data b) as [|w ws]; [reflexivity|].
    destruct (list_getitem (w :: ws) offset); reflexivity.
  - destruct (CacheBlock.data b) as [|w ws]; [reflexivity|].
    destruct (list_getitem (w :: ws) offset); reflexivity.
Qed.

Lemma read_miss address memory c st tag index offset s :
  Cache.address_split c address = Ok (tag, index, offset) →
  0 ≤ index →
  Cache.sets c !! Z.to_nat index = Some s →
  is_hit s tag = false →
  Cache.read address memory (c, st)
  = read_miss_outcome address memory c st tag index offset s.
Proof.
  intros H Hi Hs Hh.
  unfold Cache.read, Cache.sets_getitem, Cache.at_set.
  simpl_m.
  change (Cache.address_split _ address) with (Cache.address_split c address).
  rewrite H. simpl.
  destruct (Z.leb_spec 0 index); [|lia].
  rewrite Hs. simpl.
  unfold read_miss_outcome, is_hit in *.
  assert (Hmiss :
    match CacheSet.find_block s tag with
    | Some b => CacheBlock.valid b = false | None => True end).
  { destruct (CacheSet.find_block s tag); auto. }
  destruct (CacheSet.find_block s tag) as [b|];
    [rewrite Hmiss|]; simpl;
    destruct (Cache.fetch _ _ _ _ _ st) as [st1 [data|e]]; simpl;
    try reflexivity; rewrite Hs;
    destruct (CacheSet.add_block _ (s, st1)) as [[s' st2] [u|e]]; simpl;
    try reflexivity; unfold word_at;
    destruct data as [|w ws]; try reflexivity;
    destruct (list_getitem (w :: ws) offset); reflexivity.
Qed.

(** ** The ordered dictionary *)

Section OrderedDictFacts.
Context {V : Type}.
Implicit Types (d : OrderedDict.t V) (k : Z) (v : V).

Lemma getitem_setitem_eq d k v :
  OrderedDict.getitem (OrderedDict.setitem d k v) k = Some v.
Proof.
  induction d as [|[k' v'] d IH]; simpl.
  - by rewrite Z.eqb_refl.
  - destruct (Z.eqb_spec k k') as [->|Hne]; simpl.
    + by rewrite Z.eqb_refl.
    + destruct (Z.eqb_spec k k'); [done|]. exact IH.
Qed.

Lemma getitem_setitem_ne d k k' v :
  k ≠ k' →
  OrderedDict.getitem (OrderedDict.setitem d k v) k'
  = OrderedDict.getitem d k'.
Proof.
  intros Hne. induction d as [|[k0 v0] d IH]; simpl.
  - destruct (Z.eqb_spec k' k); [congruence|done].
  - destruct (Z.eqb_spec k k0) as [->|]; simpl.
    + destruct (Z.eqb_spec k' k0); [congruence|done].
    + destruct (Z.eqb_spec k' k0); [done|]. exact IH.
Qed.

Lemma setitem_setitem_eq d k v v' :
  OrderedDict.setitem (OrderedDict.setitem d k v) k v'
  = OrderedDict.setitem d k v'.
Proof.
  induction d as [|[k0 v0] d IH]; simpl.
  - by rewrite Z.eqb_refl.
  - destruct (Z.eqb_spec k k0) as [->|]; simpl.
    + by rewrite Z.eqb_refl.
    + destruct (Z.eqb_spec k k0); [done|]. by rewrite IH.
Qed.

Lemma getitem_None_keys d k :
  OrderedDict.getitem d k = None ↔ k ∉ OrderedDict.keys d.
Proof.
  unfold OrderedDict.keys. induction d as [|[k0 v0] d IH]; simpl.
  - split; [intros _; apply not_elem_of_nil|done].
  - rewrite not_elem_of_cons. destruct (Z.eqb_spec k k0); split.
    + discriminate.
    + intros [? _]. done.
    + intros. split; [done|]. by apply IH.
    + intros [_ ?]. by apply IH.
Qed.

Lemma getitem_Some_elem d k v :
  OrderedDict.getitem d k = Some v → (k, v) ∈ d.
Proof.
  induction d as [|[k0 v0] d IH]; simpl; [done|].
  destruct (Z.eqb_spec k k0) as [->|].
  - intros [= ->]. apply list_elem_of_here.
  - intros. apply list_elem_of_further. auto.
Qed.

Lemma elem_getitem d k v :
  NoDup (OrderedDict.keys d) → (k, v) ∈ d →
  OrderedDict.getitem d k = Some v.
Proof.
  unfold OrderedDict.keys. induction d as [|[k0 v0] d IH]; simpl.
  - intros _ H. by apply elem_of_nil in H.
  - intros Hnd H. apply NoDup_cons in Hnd as [Hk0 Hnd].
    apply elem_of_cons in H as [[= -> ->]|H].
    + by rewrite Z.eqb_refl.
    + destruct (Z.eqb_spec k k0) as [->|]; [|by apply IH].
      exfalso. apply Hk0. apply list_elem_of_fmap. by exists (k0, v).
Qed.

(** A new key goes to the end. *)
Lemma setitem_new d k v :
  k ∉ OrderedDict.keys d → OrderedDict.setitem d k v = d ++ [(k, v)].
Proof.
  unfold OrderedDict.keys. induction d as [|[k0 v0] d IH]; simpl; [done|].
  rewrite not_elem_of_cons. intros [Hne Hk].
  destruct (Z.eqb_spec k k0); [done|]. by rewrite IH.
Qed.

(** Deleting a key of the middle leaves the two sides. *)
Lemma delitem_middle (pre post : OrderedDict.t V) k v :
  k ∉ OrderedDict.keys pre →
  OrderedDict.delitem (pre ++ (k, v) :: post) k = pre ++ post.
Proof.
  unfold OrderedDict.keys. induction pre as [|[k0 v0] pre IH]; simpl.
  - by rewrite Z.eqb_refl.
  - rewrite not_elem_of_cons. intros [Hne Hk].
    destruct (Z.eqb_spec k k0); [done|]. by rewrite IH.
Qed.

Lemma keys_setitem_present d k v :
  k ∈ OrderedDict.keys d →
  OrderedDict.keys (OrderedDict.setitem d k v) = OrderedDict.keys d.
Proof.
  unfold OrderedDict.keys. induction d as [|[k0 v0] d IH]; simpl.
  - intros H. by apply elem_of_nil in H.
  - intros H. destruct (Z.eqb_spec k k0) as [->|]; simpl; [done|].
    apply elem_of_cons in H as [?|H]; [done|]. f_equal. by apply IH.
Qed.

Lemma length_setitem_present d k v :
  k ∈ OrderedDict.keys d →
  length (OrderedDict.setitem d k v) = length d.
Proof.
  intros H. apply (keys_setitem_present d k v) in H.
  unfold OrderedDict.keys in H.
  apply (f_equal length) in H. by rewrite !length_fmap in H.
Qed.

End OrderedDictFacts.

(** ** The outcomes of [write] *)

Lemma write_split_raise address data memory c st e :
  Cache.address_split c address = Raise e →
  Cache.write address data memory (c, st) = ((counted_write c, st), Raise e).
Proof.
  intros H. unfold Cache.write. simpl_m.
  change (Cache.address_split _ address) with (Cache.address_split c address).
  rewrite H. reflexivity.
Qed.

Lemma write_key_error address data memory c st tag index offset :
  Cache.address_split c address = Ok (tag, index, offset) →
  index < 0 ∨ Cache.sets c !! Z.to_nat index = None →
  Cache.write address data memory (c, st)
  = ((counted_write c, st), Raise KeyError).
Proof.
  intros H Hk. unfold Cache.write, Cache.sets_getitem. simpl_m.
  change (Cache.address_split _ address) with (Cache.address_split c address).
  rewrite H. simpl.
  destruct (Z.leb_spec 0 index); [|reflexivity].
  destruct Hk as [? | ->]; [lia|reflexivity].
Qed.

Lemma write_miss address data memory c st tag index offset s :
  Cache.address_split c address = Ok (tag, index, offset) →
  0 ≤ index →
  Cache.sets c !! Z.to_nat index = Some s →
  is_hit s tag = false →
  Cache.write address data memory (c, st)
  = write_miss_outcome address data memory c st.
Proof.
  intros H Hi Hs Hh.
  unfold Cache.write, Cache.sets_getitem. simpl_m.
  change (Cache.address_split _ address) with (Cache.address_split c address).
  rewrite H. simpl.
  destruct (Z.leb_spec 0 index); [|lia].
  rewrite Hs. simpl.
  unfold write_miss_outcome, is_hit in *.
  destruct (CacheSet.find_block s tag) as [b|]; [rewrite Hh|]; simpl;
    destruct (at_ref memory _ st) as [st' r]; reflexivity.
Qed.

Lemma with_block_lookup c index tag s b :
  Cache.sets c !! Z.to_nat index = Some s →
  Cache.sets (with_block c index tag s b) !! Z.to_nat index
  = Some (CacheSet.set_blocks
            (OrderedDict.setitem (CacheSet.blocks s) tag b) s).
Proof.
  intros Hs. unfold with_block. simpl.
  apply list_lookup_insert_eq. by eapply lookup_lt_Some.
Qed.

Lemma write_hit address data memory c st tag index offset s b :
  Cache.address_split c address = Ok (tag, index, offset) →
  0 ≤ index →
  Cache.sets c !! Z.to_nat index = Some s →
  CacheSet.find_block s tag = Some b →
  CacheBlock.valid b = true →
  Cache.write address data memory (c, st)
  = write_hit_outcome c st data index tag offset s b.
Proof.
  intros H Hi Hs Hb Hv.
  assert (Hlt : (Z.to_nat index < length (Cache.sets c))%nat)
    by by eapply lookup_lt_Some.
  unfold Cache.write, Cache.sets_getitem, Cache.update_block, Cache.at_set.
  simpl_m.
  change (Cache.address_split _ address) with (Cache.address_split c address).
  rewrite H. simpl.
  destruct (Z.leb_spec 0 index); [|lia].
  rewrite Hs. simpl. rewrite Hb, Hv. simpl.
  unfold write_hit_outcome, writable_data, with_block, touched.
  set (data0 := match CacheBlock.data b with
                | [] => replicate (Z.to_nat (Cache.block_size c)) PyNone
                | _ :: _ => CacheBlock.data b end).
  destruct (list_setitem data0 offset data) as [data1|]; simpl.
  - rewrite Hs. simpl. rewrite Hb. simpl.
    rewrite list_lookup_insert_eq by done. simpl.
    unfold CacheSet.find_block. simpl. rewrite getitem_setitem_eq.
    rewrite list_insert_insert_eq, setitem_setitem_eq.
    destruct (String.eqb (Cache.policy c) "LRU"); simpl; [|reflexivity].
    rewrite list_lookup_insert_eq by (rewrite ?length_insert; done).
    simpl. rewrite getitem_setitem_eq.
    rewrite list_insert_insert_eq, setitem_setitem_eq. reflexivity.
  - rewrite Hs. simpl. rewrite Hb. reflexivity.
Qed.

(** ** Eviction and admission in one set *)

Lemma choose_victim_fifo s st :
  CacheSet.policy s = "FIFO" →
  CacheSet.choose_victim (s, st)
  = ((s, st), Ok (CacheSet.scan CacheBlock.load_time (CacheSet.blocks s)).2).
Proof. intros H. unfold CacheSet.choose_victim. simpl_m. by rewrite H. Qed.

Lemma choose_victim_lru s st :
  CacheSet.policy s = "LRU" →
  CacheSet.choose_victim (s, st)
  = ((s, st), Ok (CacheSet.scan CacheBlock.last_time (CacheSet.blocks s)).2).
Proof. intros H. unfold CacheSet.choose_victim. simpl_m. by rewrite H. Qed.

(** Choosing a victim raises nothing and touches neither the set nor any
    memory. *)
Lemma choose_victim_frame s st :
  ∃ st1 victim,
    CacheSet.choose_victim (s, st) = ((s, st1), Ok victim)
    ∧ mems st1 = mems st
    ∧ (CacheSet.policy s ≠ "RANDOM" → st1 = st).
Proof.
  unfold CacheSet.choose_victim, random_choice. simpl_m.
  destruct (String.eqb_spec (CacheSet.policy s) "RANDOM") as [Hr|Hr].
  - destruct st as [ms [|r rs]]; simpl;
      eexists _, _; (split; [reflexivity|]); split; done.
  - destruct (String.eqb (CacheSet.policy s) "FIFO"); [eauto 10|].
    destruct (String.eqb (CacheSet.policy s) "LRU"); eauto 10.
Qed.

Lemma evict_block_eq s st :
  CacheSet.evict_block (s, st) = evict_outcome s st.
Proof.
  unfold CacheSet.evict_block, evict_outcome, flush. simpl_m.
  destruct (CacheSet.blocks s) as [|e d]; [reflexivity|].
  destruct (CacheSet.choose_victim (s, st)) as [[s1 st1] [[t|]|e']];
    simpl; try reflexivity.
  destruct (OrderedDict.getitem (CacheSet.blocks s1) t) as [b|];
    simpl; [|reflexivity].
  destruct (CacheBlock.dirty b && negb (bool_decide (CacheBlock.data b = [])));
    simpl; [|reflexivity].
  destruct (CacheSet.write_back (CacheSet.memory s1) b st1) as [st2 [u|e']];
    reflexivity.
Qed.

Lemma add_block_eq block s st :
  CacheSet.add_block block (s, st) = add_outcome block s st.
Proof.
  unfold CacheSet.add_block, add_outcome. simpl_m.
  destruct (Z.of_nat (length (CacheSet.blocks s))
            >=? CacheSet.associativity s); [|reflexivity].
  destruct (CacheSet.evict_block (s, st)) as [[s1 st1] [u|e]]; reflexivity.
Qed.

(** What eviction does to the set, whatever the policy. *)
Lemma evict_block_set s st s' st' r :
  CacheSet.evict_block (s, st) = ((s', st'), r) →
  CacheSet.memory s' = CacheSet.memory s
  ∧ CacheSet.associativity s' = CacheSet.associativity s
  ∧ CacheSet.policy s' = CacheSet.policy s
  ∧ (CacheSet.blocks s' = CacheSet.blocks s
     ∨ ∃ victim, r = Ok tt
         ∧ is_Some (OrderedDict.getitem (CacheSet.blocks s) victim)
         ∧ CacheSet.blocks s'
           = OrderedDict.delitem (CacheSet.blocks s) victim).
Proof.
  rewrite evict_block_eq. unfold evict_outcome.
  destruct (CacheSet.blocks s) as [|e d] eqn:Hd.
  { intros [= <- <- <-]. auto. }
  destruct (choose_victim_frame s st) as (st1 & victim & -> & _).
  destruct victim as [t|]; [|intros [= <- <- <-]; auto].
  destruct (OrderedDict.getitem (CacheSet.blocks s) t) as [b|] eqn:Hb;
    [|intros [= <- <- <-]; auto].
  destruct (flush (CacheSet.memory s) b st1) as [st2 [u|e']].
  - intros [= <- <- <-]. rewrite <- Hd in *. repeat split; auto.
    right. exists t. rewrite Hb. eauto.
  - intros [= <- <- <-]. auto.
Qed.

Lemma add_block_set block s st s' st' r :
  CacheSet.add_block block (s, st) = ((s', st'), r) →
  CacheSet.memory s' = CacheSet.memory s
  ∧ CacheSet.associativity s' = CacheSet.associativity s
  ∧ CacheSet.policy s' = CacheSet.policy s
  ∧ ((r ≠ Ok tt ∧ CacheSet.blocks s' = CacheSet.blocks s)
     ∨ (r = Ok tt
        ∧ ∃ d, (d = CacheSet.blocks s
                ∨ ∃ victim, d = OrderedDict.delitem (CacheSet.blocks s) victim)
             ∧ CacheSet.blocks s'
               = OrderedDict.setitem d (CacheBlock.tag block) block)).
Proof.
  rewrite add_block_eq. unfold add_outcome.
  destruct (Z.of_nat (length (CacheSet.blocks s))
            >=? CacheSet.associativity s).
  - destruct (CacheSet.evict_block (s, st)) as [[s1 st1] r1] eqn:He.
    apply evict_block_set in He as (Hm & Ha & Hp & Hb).
    destruct r1 as [u|e]; intros [= <- <- <-]; simpl.
    + repeat split; auto. right. split; [done|].
      exists (CacheSet.blocks s1). split; [|done].
      destruct Hb as [Hb|(v & _ & _ & Hb)]; eauto.
    + repeat split; auto. left. split; [done|].
      destruct Hb as [Hb|(v & Hr & _)]; [done|discriminate].
  - intros [= <- <- <-]. simpl. repeat split; auto.
    right. split; [done|]. eauto.
Qed.

Section OrderedDictMembers.
Context {V : Type}.
Implicit Types (d : OrderedDict.t V) (k : Z) (v : V).

Lemma elem_of_setitem d k v k' v' :
  (k', v') ∈ OrderedDict.setitem d k v → (k', v') ∈ d ∨ (k', v') = (k, v).
Proof.
  induction d as [|[k0 v0] d IH]; simpl.
  - intros H. apply list_elem_of_singleton in H. auto.
  - destruct (Z.eqb_spec k k0) as [->|].
    + intros H. apply elem_of_cons in H as [H|H]; [auto|].
      left. by apply list_elem_of_further.
    + intros H. apply elem_of_cons in H as [H|H].
      * left. rewrite H. apply list_elem_of_here.
      * destruct (IH H); [left; by apply list_elem_of_further|auto].
Qed.

Lemma elem_of_delitem d k k' v' :
  (k', v') ∈ OrderedDict.delitem d k → (k', v') ∈ d.
Proof.
  induction d as [|[k0 v0] d IH]; simpl; [done|].
  destruct (Z.eqb_spec k k0) as [->|].
  - intros. by apply list_elem_of_further.
  - intros H. apply elem_of_cons in H as [H|H].
    + rewrite H. apply list_elem_of_here.
    + apply list_elem_of_further. auto.
Qed.

Lemma keys_delitem_subset d k k' :
  k' ∈ OrderedDict.keys (OrderedDict.delitem d k) → k' ∈ OrderedDict.keys d.
Proof.
  unfold OrderedDict.keys. intros H.
  apply list_elem_of_fmap in H as ([k1 v1] & -> & H). simpl.
  apply list_elem_of_fmap. exists (k1, v1). split; [done|].
  by eapply elem_of_delitem.
Qed.

Lemma NoDup_keys_delitem d k :
  NoDup (OrderedDict.keys d) →
  NoDup (OrderedDict.keys (OrderedDict.delitem d k)).
Proof.
  induction d as [|[k0 v0] d IH]; simpl; [done|].
  intros H. apply NoDup_cons in H as [Hk0 H].
  destruct (Z.eqb_spec k k0) as [->|]; [done|].
  simpl. apply NoDup_cons. split; [|auto].
  intros Hin. apply Hk0. by eapply keys_delitem_subset.
Qed.

Lemma NoDup_keys_setitem d k v :
  NoDup (OrderedDict.keys d) →
  NoDup (OrderedDict.keys (OrderedDict.setitem d k v)).
Proof.
  intros H. destruct (decide (k ∈ OrderedDict.keys d)) as [Hin|Hin].
  - by rewrite keys_setitem_present.
  - rewrite setitem_new by done. unfold OrderedDict.keys in *.
    rewrite fmap_app. simpl. apply NoDup_app. split; [done|].
    split; [|apply NoDup_singleton].
    intros x Hx Hx'. apply list_elem_of_singleton in Hx'. by subst.
Qed.

End OrderedDictMembers.

(** ** Blocks in the order of their admission *)

Lemma sorted_delitem (d : OrderedDict.t CacheBlock.t) k :
  StronglySorted filled_before d →
  StronglySorted filled_before (OrderedDict.delitem d k).
Proof.
  induction d as [|[k0 v0] d IH]; simpl; [done|].
  intros H. apply StronglySorted_cons in H as [Hall H].
  destruct (Z.eqb_spec k k0); [done|].
  apply StronglySorted_cons. split; [|auto].
  apply Forall_forall. intros [k1 v1] Hin.
  apply elem_of_delitem in Hin. by eapply Forall_forall in Hall.
Qed.

Lemma sorted_setitem_new (d : OrderedDict.t CacheBlock.t) k v :
  k ∉ OrderedDict.keys d →
  Forall (λ x, CacheBlock.load_time x.2 < CacheBlock.load_time v) d →
  StronglySorted filled_before d →
  StronglySorted filled_before (OrderedDict.setitem d k v).
Proof.
  intros Hk Hall H. rewrite setitem_new by done.
  apply StronglySorted_app_2; [|done|repeat constructor].
  intros x y Hx Hy. apply list_elem_of_singleton in Hy as ->.
  by eapply Forall_forall in Hall.
Qed.

Lemma sorted_setitem_same (d : OrderedDict.t CacheBlock.t) k v v' :
  OrderedDict.getitem d k = Some v →
  CacheBlock.load_time v' = CacheBlock.load_time v →
  StronglySorted filled_before d →
  StronglySorted filled_before (OrderedDict.setitem d k v').
Proof.
  intros Hget Heq. induction d as [|[k0 v0] d IH]; simpl in *; [done|].
  intros H. apply StronglySorted_cons in H as [Hall H].
  destruct (Z.eqb_spec k k0) as [->|Hne].
  - injection Hget as ->. apply StronglySorted_cons. split; [|done].
    eapply Forall_impl; [exact Hall|].
    unfold filled_before. simpl. intros; lia.
  - apply StronglySorted_cons. split; [|auto].
    apply Forall_forall. intros [k1 v1] Hin.
    apply elem_of_setitem in Hin as [Hin|[= -> ->]].
    + by eapply Forall_forall in Hall.
    + apply getitem_Some_elem in Hget.
      eapply Forall_forall in Hall; [|exact Hget].
      unfold filled_before in *. simpl in *. lia.
Qed.

(** ** The invariant of a running cache *)

Lemma block_ok_ext c c' i tag b :
  same_config c c' → Cache.time c ≤ Cache.time c' →
  block_ok c i tag b → block_ok c' i tag b.
Proof.
  intros [] Ht [].
  split; rewrite ?sc_address_bit0, ?sc_block_size0, ?sc_set_count0;
    try done; lia.
Qed.

Lemma set_ok_ext c c' i s :
  same_config c c' → Cache.time c ≤ Cache.time c' →
  set_ok c i s → set_ok c' i s.
Proof.
  intros Hc Ht []. pose proof Hc as [].
  split; try congruence. intros. eapply block_ok_ext; eauto.
Qed.

Lemma cache_ok_ext c c' :
  same_config c c' → Cache.time c ≤ Cache.time c' →
  Cache.sets c' = Cache.sets c →
  cache_ok c → cache_ok c'.
Proof.
  intros Hc Ht Hs []. pose proof Hc as [].
  split; try lia; try congruence.
  rewrite Hs. intros. eapply set_ok_ext; eauto.
Qed.

(** One set is replaced and the clock may advance. *)
Lemma cache_ok_update c c' i s s' :
  cache_ok c →
  Cache.sets c !! i = Some s →
  same_config c c' → Cache.time c ≤ Cache.time c' →
  Cache.sets c' = <[i := s']> (Cache.sets c) →
  CacheSet.memory s' = CacheSet.memory s →
  CacheSet.associativity s' = CacheSet.associativity s →
  CacheSet.policy s' = CacheSet.policy s →
  NoDup (OrderedDict.keys (CacheSet.blocks s')) →
  StronglySorted filled_before (CacheSet.blocks s') →
  (∀ tag b, (tag, b) ∈ CacheSet.blocks s' →
            (tag, b) ∈ CacheSet.blocks s ∨ block_ok c' i tag b) →
  cache_ok c'.
Proof.
  intros Hok Hs Hc Ht Hsets Hm Ha Hp Hnd Hsorted Hb.
  pose proof Hok as []. pose proof Hc as [].
  split; try lia; try congruence.
  - by rewrite Hsets, length_insert, sc_set_count0.
  - intros j sj Hj. rewrite Hsets in Hj.
    destruct (decide (i = j)) as [<-|Hne].
    + rewrite list_lookup_insert_eq in Hj by by eapply lookup_lt_Some.
      injection Hj as <-. destruct (co_sets0 i s Hs).
      split; try congruence.
      intros tag b Hin. destruct (Hb tag b Hin) as [Hold|Hnew]; [|done].
      eapply block_ok_ext; eauto.
    + rewrite list_lookup_insert_ne in Hj by done.
      eapply set_ok_ext; eauto.
Qed.

(** ** Memory *)

Lemma memory_init_ok size : 0 ≤ size → memory_ok (Memory.init size).
Proof. intros. split; simpl; [done|]. by rewrite length_replicate. Qed.

Lemma memory_read_inv address mem mem' w :
  Memory.read address mem = (mem', Ok w) →
  0 ≤ address < Memory.size mem
  ∧ mem' = Memory.set_access_count (Memory.access_count mem + 1) mem.
Proof.
  unfold Memory.read. simpl_m.
  destruct (Z.ltb_spec address 0); simpl; [discriminate|].
  destruct (Z.geb_spec address (Memory.size mem)); simpl; [discriminate|].
  destruct (list_getitem (Memory.data mem) address) as [[|z]|];
    intros [= <- <-]; split; (lia || reflexivity).
Qed.

Lemma memory_read_ok address mem :
  memory_ok mem → 0 ≤ address < Memory.size mem →
  ∃ v, Memory.data mem !! Z.to_nat address = Some v
       ∧ Memory.read address mem
         = (Memory.set_access_count (Memory.access_count mem + 1) mem,
            Ok (cell_value v)).
Proof.
  intros [Hs Hl] Ha. unfold Memory.read, list_getitem. simpl_m.
  destruct (Z.ltb_spec address 0); [lia|].
  destruct (Z.geb_spec address (Memory.size mem)); [lia|]. simpl.
  destruct (Z.leb_spec 0 address); [|lia].
  destruct (lookup_lt_is_Some_2 (Memory.data mem) (Z.to_nat address))
    as [v Hv]; [lia|].
  exists v. rewrite Hv. split; [done|]. by destruct v.
Qed.

Lemma memory_write_ok address v mem :
  memory_ok mem → 0 ≤ address < Memory.size mem →
  Memory.write address v mem
  = (Memory.mk (Memory.size mem)
       (<[Z.to_nat address := v]> (Memory.data mem))
       (Memory.access_count mem + 1), Ok tt).
Proof.
  intros [Hs Hl] Ha. unfold Memory.write, list_setitem. simpl_m.
  destruct (Z.ltb_spec address 0); [lia|].
  destruct (Z.geb_spec address (Memory.size mem)); [lia|]. simpl.
  destruct (Z.leb_spec 0 address); [|lia].
  destruct (Z.ltb_spec address (Z.of_nat (length (Memory.data mem))));
    [|lia].
  reflexivity.
Qed.

(** ** Fetching a block *)

Lemma fetch_inv address_bit memory base offsets :
  ∀ acc st st' data,
    Cache.fetch address_bit memory base offsets acc st = (st', Ok data) →
    length data
    = (length acc
       + length (filter (λ i, (base + i < 2 ^ address_bit)%Z) offsets))%nat
    ∧ ∀ i, i ∈ offsets → base + i < 2 ^ address_bit → 0 ≤ base + i.
Proof.
  induction offsets as [|i offsets IH]; intros acc st st' data; simpl.
  - unfold ret. intros [= <- <-]. split; [lia|].
    intros i Hi. by apply elem_of_nil in Hi.
  - rewrite filter_cons.
    destruct (Z.ltb_spec (base + i) (2 ^ address_bit)) as [Hlt|Hge].
    + rewrite decide_True by done. unfold bind, at_ref.
      destruct (mems st !! memory) as [mem|]; [|discriminate].
      destruct (Memory.read (base + i) mem) as [mem' [w|e]] eqn:Hr;
        [|discriminate].
      apply memory_read_inv in Hr as [Hr _].
      intros H. apply IH in H as [Hlen Hall].
      rewrite length_app in Hlen. simpl in *. split; [lia|].
      intros j Hj. apply elem_of_cons in Hj as [->|Hj]; [lia|auto].
    + rewrite decide_False by lia.
      intros H. apply IH in H as [Hlen Hall]. split; [done|].
      intros j Hj. apply elem_of_cons in Hj as [->|Hj]; [lia|auto].
Qed.

Lemma filter_seqZ_below (k : Z) (len : nat) :
  ∀ m, length (filter (λ i, i < k) (seqZ m (Z.of_nat len)))
       = Z.to_nat (Z.min (Z.of_nat len) (k - m)).
Proof.
  induction len as [|len IH]; intros m.
  - change (Z.of_nat 0) with 0. rewrite seqZ_nil by lia. simpl. lia.
  - rewrite seqZ_cons by lia. rewrite filter_cons.
    replace (Z.pred (Z.of_nat (S len))) with (Z.of_nat len) by lia.
    destruct (decide (m < k)); simpl; rewrite IH; lia.
Qed.

Lemma fetch_block_inv address_bit memory base block_size st st' data :
  0 < block_size → base < 2 ^ address_bit →
  Cache.fetch address_bit memory base (seqZ 0 block_size) [] st
  = (st', Ok data) →
  0 ≤ base
  ∧ length data = Z.to_nat (Z.min block_size (2 ^ address_bit - base)).
Proof.
  intros Hb Hlt H. apply fetch_inv in H as [Hlen Hall]. split.
  - specialize (Hall 0). rewrite Z.add_0_r in Hall. apply Hall; [|done].
    apply elem_of_seqZ. lia.
  - rewrite Hlen. simpl.
    rewrite (list_filter_iff _ (λ i, i < 2 ^ address_bit - base))
      by (intros; lia).
    rewrite <- (Z2Nat.id block_size) at 1 by lia.
    rewrite filter_seqZ_below. rewrite Z2Nat.id by lia. f_equal. lia.
Qed.

(** ** The constructor *)

Lemma init_inv cache_size block_size associativity policy address_bit memory c :
  Cache.init cache_size block_size associativity policy address_bit memory
    = Ok c →
  (0 < cache_size ∧ 0 < block_size ∧ 0 < associativity)
  ∧ (Cache.is_power_of_two cache_size = true
     ∧ Cache.is_power_of_two block_size = true
     ∧ Cache.is_power_of_two associativity = true)
  ∧ policy ∈ ["FIFO"; "LRU"; "RANDOM"]
  ∧ c = Cache.mk cache_size associativity policy address_bit block_size
          (cache_size ÷ (block_size * associativity)) memory 0 0 0 0 0 0 0
          ((λ _, CacheSet.init associativity policy memory)
             <$> seqZ 0 (cache_size ÷ (block_size * associativity))).
Proof.
  unfold Cache.init.
  destruct (Z.leb_spec cache_size 0); simpl; [discriminate|].
  destruct (Z.leb_spec block_size 0); simpl; [discriminate|].
  destruct (Z.leb_spec associativity 0); simpl; [discriminate|].
  destruct (Cache.is_power_of_two cache_size); simpl; [|discriminate].
  destruct (Cache.is_power_of_two block_size); simpl; [|discriminate].
  destruct (Cache.is_power_of_two associativity); simpl; [|discriminate].
  case_bool_decide; simpl; [|discriminate].
  intros [= <-]. repeat split; auto.
Qed.

Lemma init_ok cache_size block_size associativity policy address_bit memory c :
  Cache.init cache_size block_size associativity policy address_bit memory
    = Ok c →
  cache_ok c.
Proof.
  intros H. apply init_inv in H as ((Hc & Hb & Ha) & _ & _ & ->).
  assert (0 ≤ cache_size ÷ (block_size * associativity))
    by (apply Z.quot_pos; nia).
  split; simpl; try lia.
  - by rewrite length_fmap, length_seqZ.
  - intros i s Hs. apply list_lookup_fmap_Some in Hs as (j & -> & _).
    split; simpl; try done.
    + apply NoDup_nil_2.
    + constructor.
    + intros tag b Hin. by apply elem_of_nil in Hin.
Qed.

(** ** Every call keeps the invariant *)

Lemma same_config_refl c : same_config c c.
Proof. by split. Qed.

Lemma same_config_counted_read c : same_config c (counted_read c).
Proof. by split. Qed.

Lemma same_config_counted_write c : same_config c (counted_write c).
Proof. by split. Qed.

Lemma list_setitem_length {A} (l l' : list A) i x :
  list_setitem l i x = Some l' → length l' = length l.
Proof.
  unfold list_setitem.
  destruct ((0 <=? i) && (i <? Z.of_nat (length l))).
  - intros [= <-]. apply length_insert.
  - destruct ((- Z.of_nat (length l) <=? i) && (i <? 0)); [|discriminate].
    intros [= <-]. apply length_insert.
Qed.

(** The index of an accepted address is the position of a set. *)
Lemma split_index_range c address tag index offset :
  cache_ok c →
  Cache.address_split c address = Ok (tag, index, offset) →
  0 ≤ index < Cache.set_count c
  ∧ 0 ≤ offset < Cache.block_size c
  ∧ ∃ s, Cache.sets c !! Z.to_nat index = Some s.
Proof.
  intros [] H. apply address_split_inv in H as (_ & _ & Hs & _ & -> & ->).
  assert (0 < Cache.set_count c) by lia.
  pose proof (Z.mod_pos_bound (address `div` Cache.block_size c)
                (Cache.set_count c) ltac:(lia)).
  pose proof (Z.mod_pos_bound address (Cache.block_size c) ltac:(lia)).
  repeat split; try lia.
  apply lookup_lt_is_Some_2. lia.
Qed.

(** The block that holds an address starts where [read] computes it. *)
Lemma split_base c address tag index offset :
  cache_ok c →
  Cache.address_split c address = Ok (tag, index, offset) →
  (address `div` Cache.block_size c) * Cache.block_size c
  = (tag * Cache.set_count c + index) * Cache.block_size c
  ∧ (address `div` Cache.block_size c) * Cache.block_size c + offset = address
  ∧ address < 2 ^ Cache.address_bit c.
Proof.
  intros [] H. apply address_split_inv in H as (Ha & _ & Hs & -> & -> & ->).
  assert (0 < Cache.set_count c) by lia.
  rewrite <- (Z.div_div address (Cache.block_size c) (Cache.set_count c))
    by lia.
  pose proof (Z.div_mod address (Cache.block_size c) ltac:(lia)).
  pose proof (Z.div_mod (address `div` Cache.block_size c)
                (Cache.set_count c) ltac:(lia)).
  repeat split; [f_equal|..]; lia.
Qed.

Lemma find_block_elem s tag b :
  CacheSet.find_block s tag = Some b → (tag, b) ∈ CacheSet.blocks s.
Proof. apply getitem_Some_elem. Qed.

Lemma find_block_key s tag b :
  CacheSet.find_block s tag = Some b →
  tag ∈ OrderedDict.keys (CacheSet.blocks s).
Proof.
  intros H. apply find_block_elem in H. unfold OrderedDict.keys.
  apply list_elem_of_fmap. by exists (tag, b).
Qed.

(** In a set of the cache every block is valid: a miss is an absent tag. *)
Lemma miss_not_key c i s tag :
  set_ok c i s → is_hit s tag = false →
  tag ∉ OrderedDict.keys (CacheSet.blocks s).
Proof.
  intros Hset Hh. apply getitem_None_keys. unfold is_hit in Hh.
  change (CacheSet.find_block s tag = None).
  destruct (CacheSet.find_block s tag) as [b|] eqn:Hb; [|done].
  apply find_block_elem in Hb. apply (so_blocks _ _ _ Hset) in Hb as [].
  congruence.
Qed.

Lemma blocks_before_now c i s :
  set_ok c i s →
  Forall (λ x, CacheBlock.load_time x.2 < Cache.time c) (CacheSet.blocks s).
Proof.
  intros Hset. apply Forall_forall. intros [t b] Hin.
  apply (so_blocks _ _ _ Hset) in Hin as []. simpl. lia.
Qed.

Lemma read_preserves address memory c st c' st' r :
  cache_ok c →
  Cache.read address memory (c, st) = ((c', st'), r) →
  cache_ok c'.
Proof.
  intros Hok H.
  destruct (Cache.address_split c address) as [[[tag index] offset]|e]
    eqn:Hsp.
  2: { rewrite (read_split_raise _ _ _ _ _ Hsp) in H.
       injection H as <- <- <-.
       eapply cache_ok_ext; eauto using same_config_counted_read.
       reflexivity. }
  destruct (split_index_range _ _ _ _ _ Hok Hsp) as (Hi & Ho & s & Hs).
  destruct (split_base _ _ _ _ _ Hok Hsp) as (Hbase & Hoff & Hlt).
  pose proof (co_sets _ Hok _ _ Hs) as Hset.
  destruct (is_hit s tag) eqn:Hh.
  - unfold is_hit in Hh.
    destruct (CacheSet.find_block s tag) as [b|] eqn:Hb; [|discriminate].
    rewrite (read_hit _ _ _ _ _ _ _ _ _ Hsp (proj1 Hi) Hs Hb Hh) in H.
    injection H as <- <- <-. unfold read_hit_cache.
    pose proof (so_blocks _ _ _ Hset _ _ (find_block_elem _ _ _ Hb)) as Hbk.
    destruct (String.eqb (Cache.policy c) "LRU").
    + eapply (cache_ok_update c _ (Z.to_nat index) s); eauto;
        try reflexivity; simpl; try lia.
      * by split.
      * apply NoDup_keys_setitem, Hset.
      * eapply sorted_setitem_same; [exact Hb|reflexivity|apply Hset].
      * intros t0 b0 Hin. apply elem_of_setitem in Hin as [?|[= -> ->]];
          [by left|right].
        destruct Hbk. split; simpl; try done; lia.
    + apply (cache_ok_ext c); [by split|simpl; lia|reflexivity|done].
  - rewrite (read_miss _ _ _ _ _ _ _ _ Hsp (proj1 Hi) Hs Hh) in H.
    unfold read_miss_outcome in H.
    destruct (Cache.fetch _ _ _ _ _ st) as [st1 [data|e]] eqn:Hf.
    2: { injection H as <- <- <-.
         eapply cache_ok_ext; eauto using same_config_counted_read.
         reflexivity. }
    apply fetch_block_inv in Hf as [Hb0 Hlen];
      [|apply Hok|pose proof (co_block_size _ Hok); lia].
    destruct (CacheSet.add_block _ (s, st1)) as [[s' st2] r'] eqn:Hadd.
    apply add_block_set in Hadd as (Hm & Ha & Hp & Hblocks).
    destruct Hblocks as [[Hr Hbl]|[-> (d & Hd & Hbl)]].
    + destruct r' as [[]|e]; [done|]. injection H as <- <- <-.
      eapply (cache_ok_update c _ (Z.to_nat index) s); eauto;
        try reflexivity; simpl; try lia.
      * by split.
      * rewrite Hbl. apply Hset.
      * rewrite Hbl. apply Hset.
      * intros t0 b0 Hin. left. by rewrite <- Hbl.
    + injection H as <- <- <-.
      eapply (cache_ok_update c _ (Z.to_nat index) s); eauto;
        try reflexivity; simpl; try lia.
      * by split.
      * rewrite Hbl. apply NoDup_keys_setitem.
        destruct Hd as [->|[v ->]]; [apply Hset|].
        apply NoDup_keys_delitem, Hset.
      * rewrite Hbl. pose proof (miss_not_key _ _ _ _ Hset Hh) as Hk.
        pose proof (blocks_before_now _ _ _ Hset) as Hall.
        apply sorted_setitem_new; simpl.
        { destruct Hd as [->|[v ->]]; [done|].
          intros Hin. apply Hk. by eapply keys_delitem_subset. }
        { destruct Hd as [->|[v ->]]; [done|].
          apply Forall_forall. intros [k1 v1] Hin.
          apply elem_of_delitem in Hin. by eapply Forall_forall in Hall. }
        destruct Hd as [->|[v ->]]; [apply Hset|].
        apply sorted_delitem, Hset.
      * intros t0 b0 Hin. rewrite Hbl in Hin. simpl in Hin.
        apply elem_of_setitem in Hin as [Hin|[= -> ->]].
        { left. destruct Hd as [->|[v ->]]; [done|].
          by eapply elem_of_delitem. }
        right. pose proof (co_time _ Hok).
        split; simpl; try done; try lia.
        rewrite Hbase. f_equal. lia.
Qed.

(** A block of the cache has a word for every address it covers. *)
Lemma block_data_covers c i tag b offset :
  cache_ok c → block_ok c i tag b →
  0 ≤ offset < Cache.block_size c →
  CacheBlock.base_address b + offset < 2 ^ Cache.address_bit c →
  (Z.to_nat offset < length (CacheBlock.data b))%nat.
Proof. intros [] [] Ho Hlt. rewrite bk_data0. lia. Qed.

Lemma writable_data_ok c i tag b :
  cache_ok c → block_ok c i tag b → writable_data c b = CacheBlock.data b.
Proof.
  intros Hok Hbk. unfold writable_data.
  pose proof (block_data_covers c i tag b 0 Hok Hbk) as H.
  destruct (CacheBlock.data b); [|done].
  destruct Hok, Hbk. simpl in H. lia.
Qed.

(** The base of the block that a hit finds, from the address. *)
Lemma hit_block_base c address tag index offset s b :
  cache_ok c →
  Cache.address_split c address = Ok (tag, index, offset) →
  Cache.sets c !! Z.to_nat index = Some s →
  CacheSet.find_block s tag = Some b →
  CacheBlock.base_address b + offset = address.
Proof.
  intros Hok Hsp Hs Hb.
  destruct (split_index_range _ _ _ _ _ Hok Hsp) as (Hi & _).
  destruct (split_base _ _ _ _ _ Hok Hsp) as (Hbase & Hoff & _).
  pose proof (so_blocks _ _ _ (co_sets _ Hok _ _ Hs) _ _
                (find_block_elem _ _ _ Hb)) as [].
  rewrite bk_base0, Z2Nat.id by lia. lia.
Qed.

Lemma write_preserves address data memory c st c' st' r :
  cache_ok c →
  Cache.write address data memory (c, st) = ((c', st'), r) →
  cache_ok c'.
Proof.
  intros Hok H.
  destruct (Cache.address_split c address) as [[[tag index] offset]|e]
    eqn:Hsp.
  2: { rewrite (write_split_raise _ _ _ _ _ _ Hsp) in H.
       injection H as <- <- <-.
       apply (cache_ok_ext c); [by split|reflexivity|reflexivity|done]. }
  destruct (split_index_range _ _ _ _ _ Hok Hsp) as (Hi & Ho & s & Hs).
  pose proof (co_sets _ Hok _ _ Hs) as Hset.
  destruct (is_hit s tag) eqn:Hh.
  - unfold is_hit in Hh.
    destruct (CacheSet.find_block s tag) as [b|] eqn:Hb; [|discriminate].
    rewrite (write_hit _ _ _ _ _ _ _ _ _ _ Hsp (proj1 Hi) Hs Hb Hh) in H.
    pose proof (so_blocks _ _ _ Hset _ _ (find_block_elem _ _ _ Hb)) as Hbk.
    unfold write_hit_outcome in H.
    rewrite (writable_data_ok _ _ _ _ Hok Hbk) in H.
    destruct (list_setitem (CacheBlock.data b) offset data) as [data1|]
      eqn:Hset1; injection H as <- <- <-.
    + apply list_setitem_length in Hset1.
      eapply (cache_ok_update c _ (Z.to_nat index) s); eauto;
        try reflexivity; simpl; try lia.
      * by split.
      * apply NoDup_keys_setitem, Hset.
      * eapply sorted_setitem_same; [exact Hb| |apply Hset].
        unfold touched. by destruct (String.eqb (Cache.policy c) "LRU").
      * intros t0 b0 Hin. apply elem_of_setitem in Hin as [?|[= -> ->]];
          [by left|right].
        destruct Hbk. unfold touched.
        destruct (String.eqb (Cache.policy c) "LRU");
          split; simpl; try done; try lia; congruence.
    + eapply (cache_ok_update c _ (Z.to_nat index) s); eauto;
        try reflexivity; simpl; try lia.
      * by split.
      * apply NoDup_keys_setitem, Hset.
      * eapply sorted_setitem_same; [exact Hb|reflexivity|apply Hset].
      * intros t0 b0 Hin. apply elem_of_setitem in Hin as [?|[= -> ->]];
          [by left|right].
        destruct Hbk. split; simpl; try done; lia.
  - rewrite (write_miss _ _ _ _ _ _ _ _ _ Hsp (proj1 Hi) Hs Hh) in H.
    unfold write_miss_outcome in H.
    destruct (at_ref memory _ st) as [st1 r1]. injection H as <- <- <-.
    apply (cache_ok_ext c); [by split|simpl; lia|reflexivity|done].
Qed.

Lemma step_preserves w w' : step w w' → cache_ok w.1 → cache_ok w'.1.
Proof.
  intros [a m [c st] [c' st'] r H|a v m [c st] [c' st'] r H]; simpl.
  - intros. eapply read_preserves; eauto.
  - intros. eapply write_preserves; eauto.
Qed.

Lemma reachable_ok w : reachable w → cache_ok w.1.
Proof.
  induction 1 as [? ? ? ? ? ? c st H|w w' _ IH Hstep]; simpl.
  - eapply init_ok; eauto.
  - eapply step_preserves; eauto.
Qed.

(** ** The cases of a call *)

Lemma read_cases address memory c st :
  (∃ e, Cache.address_split c address = Raise e
        ∧ Cache.read address memory (c, st) = ((counted_read c, st), Raise e))
  ∨ (∃ tag index offset,
       Cache.address_split c address = Ok (tag, index, offset)
       ∧ ((index < 0 ∨ Cache.sets c !! Z.to_nat index = None)
          ∧ Cache.read address memory (c, st)
            = ((counted_read c, st), Raise KeyError)
          ∨ ∃ s, 0 ≤ index ∧ Cache.sets c !! Z.to_nat index = Some s
              ∧ ((∃ b, CacheSet.find_block s tag = Some b
                       ∧ CacheBlock.valid b = true
                       ∧ Cache.read address memory (c, st)
                         = ((read_hit_cache c index tag s b, st),
                            word_at (CacheBlock.data b) offset))
                 ∨ (is_hit s tag = false
                    ∧ Cache.read address memory (c, st)
                      = read_miss_outcome address memory c st
                          tag index offset s)))).
Proof.
  destruct (Cache.address_split c address) as [[[tag index] offset]|e]
    eqn:Hsp; [right|left; eauto using read_split_raise].
  exists tag, index, offset. split; [done|].
  destruct (Z.lt_ge_cases index 0) as [Hi|Hi];
    [left; eauto using read_key_error|].
  destruct (Cache.sets c !! Z.to_nat index) as [s|] eqn:Hs;
    [right|left; eauto using read_key_error].
  exists s. repeat split; try done.
  destruct (is_hit s tag) eqn:Hh; [left|right; eauto using read_miss].
  unfold is_hit in Hh.
  destruct (CacheSet.find_block s tag) as [b|] eqn:Hb; [|discriminate].
  eauto 6 using read_hit.
Qed.

Lemma write_cases address data memory c st :
  (∃ e, Cache.address_split c address = Raise e
        ∧ Cache.write address data memory (c, st)
          = ((counted_write c, st), Raise e))
  ∨ (∃ tag index offset,
       Cache.address_split c address = Ok (tag, index, offset)
       ∧ ((index < 0 ∨ Cache.sets c !! Z.to_nat index = None)
          ∧ Cache.write address data memory (c, st)
            = ((counted_write c, st), Raise KeyError)
          ∨ ∃ s, 0 ≤ index ∧ Cache.sets c !! Z.to_nat index = Some s
              ∧ ((∃ b, CacheSet.find_block s tag = Some b
                       ∧ CacheBlock.valid b = true
                       ∧ Cache.write address data memory (c, st)
                         = write_hit_outcome c st data index tag offset s b)
                 ∨ (is_hit s tag = false
                    ∧ Cache.write address data memory (c, st)
                      = write_miss_outcome address data memory c st)))).
Proof.
  destruct (Cache.address_split c address) as [[[tag index] offset]|e]
    eqn:Hsp; [right|left; eauto using write_split_raise].
  exists tag, index, offset. split; [done|].
  destruct (Z.lt_ge_cases index 0) as [Hi|Hi];
    [left; eauto using write_key_error|].
  destruct (Cache.sets c !! Z.to_nat index) as [s|] eqn:Hs;
    [right|left; eauto using write_key_error].
  exists s. repeat split; try done.
  destruct (is_hit s tag) eqn:Hh; [left|right; eauto using write_miss].
  unfold is_hit in Hh.
  destruct (CacheSet.find_block s tag) as [b|] eqn:Hb; [|discriminate].
  eauto 6 using write_hit.
Qed.

(** ** The small cache is a cache *)

Lemma demo_cache_init : Cache.init 8 2 2 "LRU" 4 0%nat = Ok demo_cache.
Proof. reflexivity. Qed.

Lemma demo_reachable : reachable (demo_cache, demo_store).
Proof. eapply reachable_init. exact demo_cache_init. Defined.

(** ** Address decomposition round-trip *)

(** C5.  In every cache a driver can reach, the tag, index and offset that
    [address_split] returns for an address in [0, 2^address_bit) recombine
    to the address: [tag * block_size * set_count + index * block_size +
    offset = address]; and a triple is returned whenever the cache has a
    set. *)
Theorem address_split_round_trip (c : Cache.t) (st : Store) (address : Z) :
  reachable (c, st) →
  0 ≤ address < 2 ^ Cache.address_bit c →
  (∀ tag index offset,
     Cache.address_split c address = Ok (tag, index, offset) →
     tag * Cache.block_size c * Cache.set_count c
     + index * Cache.block_size c + offset = address)
  ∧ (0 < Cache.set_count c →
     ∃ tag index offset,
       Cache.address_split c address = Ok (tag, index, offset)).
Proof.
  intros Hr Ha. apply reachable_ok in Hr as []. simpl in *. split.
  - intros tag index offset H.
    apply address_split_inv in H as (_ & _ & Hs & -> & -> & ->).
    apply recombine; lia.
  - intros Hs. rewrite address_split_ok by lia. eauto.
Qed.

Lemma address_split_round_trip_witness :
  (∀ tag index offset,
     Cache.address_split demo_cache 13 = Ok (tag, index, offset) →
     tag * Cache.block_size demo_cache * Cache.set_count demo_cache
     + index * Cache.block_size demo_cache + offset = 13)
  ∧ (0 < Cache.set_count demo_cache →
     ∃ tag index offset,
       Cache.address_split demo_cache 13 = Ok (tag, index, offset)).
Proof.
  apply (address_split_round_trip demo_cache demo_store 13).
  - exact demo_reachable.
  - simpl. lia.
Defined.

(** ** The constructor and inexact division *)

Lemma power_of_two_inv n :
  Cache.is_power_of_two n = true → ∃ k, 0 ≤ k ∧ n = 2 ^ k.
Proof.
  unfold Cache.is_power_of_two. intros H. apply Z.eqb_eq in H.
  exists (Z.log2 n). split; [apply Z.log2_nonneg|done].
Qed.

(** Between powers of two, the smaller divides the larger. *)
Lemma power_of_two_quotient a b :
  0 ≤ a → 0 ≤ b →
  (2 ^ a) `mod` (2 ^ b) ≠ 0 → (2 ^ a) `div` (2 ^ b) = 0.
Proof.
  intros Ha Hb Hm. destruct (Z.le_gt_cases b a) as [Hle|Hgt].
  - exfalso. apply Hm. replace a with ((a - b) + b) by lia.
    rewrite Z.pow_add_r by lia. apply Z.mod_mul.
    pose proof (Z.pow_pos_nonneg 2 b); lia.
  - apply Z.div_small. split; [apply Z.pow_nonneg; lia|].
    apply Z.pow_lt_mono_r; lia.
Qed.

(** C7, counterexample.  A cache of 2 words in blocks of 4: 2 / (4 * 1) is
    not a whole number, and the constructor returns a cache. *)
Lemma init_accepts_inexact_division :
  2 `mod` (4 * 1) ≠ 0
  ∧ ∃ c, Cache.init 2 4 1 "LRU" 4 0%nat = Ok c ∧ Cache.set_count c = 0.
Proof. split; [done|]. eexists. split; reflexivity. Qed.

(** C7, as the code has it.  The constructor checks that the three sizes
    are positive powers of two and that the policy is known, and nothing
    else: for such arguments it returns a cache whose [set_count] is the
    quotient [cache_size / (block_size * associativity)] rounded down, which
    is 0 whenever the division is not exact. *)
Theorem init_truncates_set_count
    (cache_size block_size associativity : Z) (policy : string)
    (address_bit : Z) (memory : ref) :
  0 < cache_size → 0 < block_size → 0 < associativity →
  Cache.is_power_of_two cache_size = true →
  Cache.is_power_of_two block_size = true →
  Cache.is_power_of_two associativity = true →
  policy ∈ ["FIFO"; "LRU"; "RANDOM"] →
  ∃ c,
    Cache.init cache_size block_size associativity policy address_bit memory
      = Ok c
    ∧ Cache.set_count c = cache_size `div` (block_size * associativity)
    ∧ (cache_size `mod` (block_size * associativity) ≠ 0 →
       Cache.set_count c = 0).
Proof.
  intros Hc Hb Ha Pc Pb Pa Hp. unfold Cache.init.
  destruct (Z.leb_spec cache_size 0); [lia|].
  destruct (Z.leb_spec block_size 0); [lia|].
  destruct (Z.leb_spec associativity 0); [lia|].
  rewrite Pc, Pb, Pa. simpl. rewrite bool_decide_eq_true_2 by done. simpl.
  eexists. split; [reflexivity|]. simpl.
  rewrite Z.quot_div_nonneg by nia. split; [done|].
  apply power_of_two_inv in Pc as (kc & ? & ->).
  apply power_of_two_inv in Pb as (kb & ? & ->).
  apply power_of_two_inv in Pa as (ka & ? & ->).
  rewrite <- Z.pow_add_r by lia. apply power_of_two_quotient; lia.
Qed.

Lemma init_truncates_set_count_witness :
  ∃ c,
    Cache.init 2 4 1 "FIFO" 4 0%nat = Ok c
    ∧ Cache.set_count c = 2 `div` (4 * 1)
    ∧ (2 `mod` (4 * 1) ≠ 0 → Cache.set_count c = 0).
Proof.
  apply (init_truncates_set_count 2 4 1 "FIFO" 4 0%nat);
    try lia; try reflexivity.
  apply list_elem_of_here.
Defined.

(** ** An address beyond the address space *)

(** C8, counterexample.  Reading address 16 of a 16-word address space
    raises, and the failed call has been counted. *)
Lemma read_out_of_range_counts :
  ∃ c' st',
    Cache.read 16 0%nat (demo_cache, demo_store)
    = ((c', st'), Raise (ValueError "Address out of range"))
    ∧ Cache.access_count c' ≠ Cache.access_count demo_cache
    ∧ Cache.read_count c' ≠ Cache.read_count demo_cache.
Proof. eexists _, _. split; [reflexivity|]. split; discriminate. Qed.

(** C8, as the code has it.  A [read] or [write] of an address at or
    beyond [2^address_bit] raises ValueError("Address out of range") after
    the call has been counted: [access_count] and [read_count] (for
    [write]: [write_count]) are one higher, and nothing else has changed,
    neither [time], the hit counters and the sets nor any memory.  (The
    [address_bit] is not negative, so that [2**address_bit] is an
    integer.) *)
Theorem out_of_range_raises_after_counting
    (c : Cache.t) (st : Store) (address : Z) (data : pyval) (memory : ref) :
  0 ≤ Cache.address_bit c →
  2 ^ Cache.address_bit c ≤ address →
  Cache.read address memory (c, st)
  = ((Cache.set_read_count (Cache.read_count c + 1)
        (Cache.set_access_count (Cache.access_count c + 1) c), st),
     Raise (ValueError "Address out of range"))
  ∧ Cache.write address data memory (c, st)
    = ((Cache.set_write_count (Cache.write_count c + 1)
          (Cache.set_access_count (Cache.access_count c + 1) c), st),
       Raise (ValueError "Address out of range")).
Proof.
  intros _ Ha. split.
  - apply read_split_raise. by apply address_split_raise_range.
  - apply write_split_raise. by apply address_split_raise_range.
Qed.

Lemma out_of_range_raises_after_counting_witness :
  Cache.read 16 0%nat (demo_cache, demo_store)
  = ((Cache.set_read_count (Cache.read_count demo_cache + 1)
        (Cache.set_access_count (Cache.access_count demo_cache + 1)
           demo_cache), demo_store),
     Raise (ValueError "Address out of range"))
  ∧ Cache.write 16 (PyInt 7) 0%nat (demo_cache, demo_store)
    = ((Cache.set_write_count (Cache.write_count demo_cache + 1)
          (Cache.set_access_count (Cache.access_count demo_cache + 1)
             demo_cache), demo_store),
       Raise (ValueError "Address out of range")).
Proof.
  apply (out_of_range_raises_after_counting demo_cache demo_store 16
           (PyInt 7) 0%nat); simpl; lia.
Defined.

(** ** Counter consistency *)

Lemma read_counters address memory c st c' st' r :
  Cache.read address memory (c, st) = ((c', st'), r) →
  counters_consistent c → counters_consistent c'.
Proof.
  unfold counters_consistent. intros H [H1 H2].
  destruct (read_cases address memory c st)
    as [(e & _ & E)
       |(tag & index & offset & _ &
          [[_ E]|(s & _ & _ & [(b & _ & _ & E)|[_ E]])])];
    rewrite E in H; clear E.
  - injection H as <- <- <-. simpl. lia.
  - injection H as <- <- <-. simpl. lia.
  - injection H as <- <- <-. unfold read_hit_cache.
    destruct (String.eqb (Cache.policy c) "LRU"); simpl; lia.
  - unfold read_miss_outcome in H.
    destruct (Cache.fetch _ _ _ _ _ st) as [st1 [data|e]];
      [|injection H as <- <- <-; simpl; lia].
    destruct (CacheSet.add_block _ (s, st1)) as [[s' st2] [u|e]];
      injection H as <- <- <-; simpl; lia.
Qed.

Lemma write_counters address data memory c st c' st' r :
  Cache.write address data memory (c, st) = ((c', st'), r) →
  counters_consistent c → counters_consistent c'.
Proof.
  unfold counters_consistent. intros H [H1 H2].
  destruct (write_cases address data memory c st)
    as [(e & _ & E)
       |(tag & index & offset & _ &
          [[_ E]|(s & _ & _ & [(b & _ & _ & E)|[_ E]])])];
    rewrite E in H; clear E.
  - injection H as <- <- <-. simpl. lia.
  - injection H as <- <- <-. simpl. lia.
  - unfold write_hit_outcome in H.
    destruct (list_setitem _ offset data);
      injection H as <- <- <-; simpl; lia.
  - unfold write_miss_outcome in H.
    destruct (at_ref memory _ st) as [st1 r1].
    injection H as <- <- <-. simpl. lia.
Qed.

(** C6.  After any sequence of [read] and [write] calls on a freshly
    constructed cache (the calls that completed, and also one that raised),
    [access_count = read_count + write_count] and
    [hit_count = read_hit_count + write_hit_count]. *)
Theorem counters_stay_consistent (c : Cache.t) (st : Store) :
  reachable (c, st) →
  Cache.access_count c = Cache.read_count c + Cache.write_count c
  ∧ Cache.hit_count c = Cache.read_hit_count c + Cache.write_hit_count c.
Proof.
  intros H. change (counters_consistent (c, st).1).
  induction H as [? ? ? ? ? ? c0 st0 H|w w' _ IH Hstep].
  - apply init_inv in H as (_ & _ & _ & ->). by split.
  - destruct Hstep as [a m [c1 st1] [c2 st2] r H
                      |a v m [c1 st1] [c2 st2] r H]; simpl in *.
    + eapply read_counters; eauto.
    + eapply write_counters; eauto.
Qed.

Lemma run_op_step memory o w w' r :
  run_op memory o w = (w', r) → step w w'.
Proof.
  destruct o as [a|a v]; simpl; unfold bind, ret.
  - destruct (Cache.read a memory w) as [w1 [x|e]] eqn:E;
      intros [= <- <-]; eapply step_read; eauto.
  - intros H. eapply step_write; eauto.
Qed.

Lemma run_ops_reachable memory ops :
  ∀ w w' r, reachable w → run_ops memory ops w = (w', r) → reachable w'.
Proof.
  unfold run_ops. induction ops as [|o ops IH]; intros w w' r Hw; simpl.
  - unfold ret. by intros [= <- <-].
  - unfold bind. destruct (run_op memory o w) as [w1 [[]|e]] eqn:E.
    + intros H. eapply IH; [|exact H].
      eapply reachable_step; eauto using run_op_step.
    + intros [= <- <-]. eapply reachable_step; eauto using run_op_step.
Defined.

Lemma demo_world_reachable : reachable demo_world.
Proof.
  eapply (run_ops_reachable 0%nat demo_trace (demo_cache, demo_store)
            demo_world (Ok tt)).
  - exact demo_reachable.
  - reflexivity.
Defined.

Lemma counters_stay_consistent_witness :
  Cache.access_count demo_world.1
  = Cache.read_count demo_world.1 + Cache.write_count demo_world.1
  ∧ Cache.hit_count demo_world.1
    = Cache.read_hit_count demo_world.1 + Cache.write_hit_count demo_world.1.
Proof.
  apply (counters_stay_consistent demo_world.1 demo_world.2).
  exact demo_world_reachable.
Defined.

Example demo_world_counters :
  run_ops 0%nat demo_trace (demo_cache, demo_store) = (demo_world, Ok tt)
  ∧ Cache.access_count demo_world.1 = 5
  ∧ Cache.hit_count demo_world.1 = 2
  ∧ Cache.time demo_world.1 = 5
  ∧ (Memory.data <$> mems demo_world.2) !! 0%nat
    = Some ([PyNone; PyNone; PyNone; PyNone; PyNone; PyNone; PyNone; PyNone;
             PyNone; PyInt 3; PyNone; PyNone; PyNone; PyNone; PyNone; PyNone]).
Proof. repeat split; reflexivity. Qed.

(** ** A read hit leaves every memory alone *)

Lemma word_at_ok data offset :
  0 ≤ offset → (Z.to_nat offset < length data)%nat →
  ∃ w, word_at data offset = Ok w.
Proof.
  intros Ho Hlt. unfold word_at, list_getitem.
  destruct data as [|w0 ws]; [simpl in Hlt; lia|].
  destruct (Z.leb_spec 0 offset); [|lia].
  destruct (lookup_lt_is_Some_2 (w0 :: ws) (Z.to_nat offset) Hlt) as [w ->].
  eauto.
Qed.

(** C10.  When the block of a valid address is in its set and valid,
    [read] returns a word and the store of Memory objects is the same
    after the call as before: no cell and no [access_count] has changed. *)
Theorem read_hit_leaves_memory
    (c : Cache.t) (st : Store) (address : Z) (memory : ref)
    (tag index offset : Z) (s : CacheSet.t) :
  reachable (c, st) →
  0 ≤ address < 2 ^ Cache.address_bit c →
  Cache.address_split c address = Ok (tag, index, offset) →
  Cache.sets c !! Z.to_nat index = Some s →
  is_hit s tag = true →
  ∃ c' w, Cache.read address memory (c, st) = ((c', st), Ok w).
Proof.
  intros Hr Ha Hsp Hs Hh. apply reachable_ok in Hr. simpl in Hr.
  destruct (split_index_range _ _ _ _ _ Hr Hsp) as (Hi & Ho & _).
  unfold is_hit in Hh.
  destruct (CacheSet.find_block s tag) as [b|] eqn:Hb; [|discriminate].
  rewrite (read_hit _ _ _ _ _ _ _ _ _ Hsp (proj1 Hi) Hs Hb Hh).
  pose proof (so_blocks _ _ _ (co_sets _ Hr _ _ Hs) _ _
                (find_block_elem _ _ _ Hb)) as Hbk.
  pose proof (hit_block_base _ _ _ _ _ _ _ Hr Hsp Hs Hb) as Hbase.
  destruct (word_at_ok (CacheBlock.data b) offset) as [w ->]; [lia| |eauto].
  eapply block_data_covers; eauto. lia.
Qed.

Lemma read_hit_leaves_memory_witness :
  ∃ c' w, Cache.read 5 0%nat demo_world = ((c', demo_world.2), Ok w).
Proof.
  apply (read_hit_leaves_memory demo_world.1 demo_world.2 5 0%nat 1 0 1
           (CacheSet.mk 0%nat
              [(0, CacheBlock.mk 0 true true 2 [PyInt 0; PyInt 7] 0 0 2);
               (1, CacheBlock.mk 1 true false 2 [PyInt 0; PyInt 0] 4 1 4)]
              2 "LRU")).
  - exact demo_world_reachable.
  - simpl. lia.
  - reflexivity.
  - reflexivity.
  - reflexivity.
Defined.

(** ** A write miss goes around the cache *)

(** C4.  When the tag of a valid address is not in its set, [write] stores
    the value in the cell of Memory at that address and returns; the sets
    of the cache are as before (no block is created, no set is filled) and
    so are [hit_count] and [write_hit_count]. *)
Theorem write_miss_goes_around
    (c : Cache.t) (st : Store) (address : Z) (data : pyval) (memory : ref)
    (tag index offset : Z) (s : CacheSet.t) (mem : Memory.t) :
  reachable (c, st) →
  0 ≤ address < 2 ^ Cache.address_bit c →
  Cache.address_split c address = Ok (tag, index, offset) →
  Cache.sets c !! Z.to_nat index = Some s →
  is_hit s tag = false →
  mems st !! memory = Some mem →
  memory_ok mem →
  address < Memory.size mem →
  ∃ c' st' mem',
    Cache.write address data memory (c, st) = ((c', st'), Ok tt)
    ∧ Cache.sets c' = Cache.sets c
    ∧ Cache.hit_count c' = Cache.hit_count c
    ∧ Cache.write_hit_count c' = Cache.write_hit_count c
    ∧ mems st' = <[memory := mem']> (mems st)
    ∧ Memory.data mem' = <[Z.to_nat address := data]> (Memory.data mem)
    ∧ Memory.data mem' !! Z.to_nat address = Some data.
Proof.
  intros Hr Ha Hsp Hs Hh Hm Hok Hsz. apply reachable_ok in Hr. simpl in Hr.
  destruct (split_index_range _ _ _ _ _ Hr Hsp) as (Hi & _ & _).
  rewrite (write_miss _ _ _ _ _ _ _ _ _ Hsp (proj1 Hi) Hs Hh).
  unfold write_miss_outcome, at_ref. rewrite Hm.
  rewrite memory_write_ok by (done || lia).
  eexists _, _, _. split; [reflexivity|]. simpl. repeat split.
  apply list_lookup_insert_eq. destruct Hok. lia.
Qed.

Lemma write_miss_goes_around_witness :
  ∃ c' st' mem',
    Cache.write 9 (PyInt 3) 0%nat (demo_cache, demo_store)
    = ((c', st'), Ok tt)
    ∧ Cache.sets c' = Cache.sets demo_cache
    ∧ Cache.hit_count c' = Cache.hit_count demo_cache
    ∧ Cache.write_hit_count c' = Cache.write_hit_count demo_cache
    ∧ mems st' = <[0%nat := mem']> (mems demo_store)
    ∧ Memory.data mem'
      = <[Z.to_nat 9 := PyInt 3]> (Memory.data (Memory.init 16))
    ∧ Memory.data mem' !! Z.to_nat 9 = Some (PyInt 3).
Proof.
  apply (write_miss_goes_around demo_cache demo_store 9 (PyInt 3) 0%nat
           2 0 1 (CacheSet.init 2 "LRU" 0%nat) (Memory.init 16)).
  - exact demo_reachable.
  - simpl. lia.
  - reflexivity.
  - reflexivity.
  - reflexivity.
  - reflexivity.
  - split; [simpl; lia|reflexivity].
  - simpl. lia.
Defined.

(** ** The victim of FIFO and LRU *)

Section Scan.
Variable stamp : CacheBlock.t → Z.

Lemma scan_snoc d item :
  CacheSet.scan stamp (d ++ [item])
  = CacheSet.scan_step stamp (CacheSet.scan stamp d) item.
Proof. unfold CacheSet.scan. by rewrite foldl_app. Qed.

(** The loop returns the first of the blocks with the least stamp. *)
Lemma scan_first_minimum d :
  d ≠ [] →
  Forall (λ item, 0 ≤ stamp item.2) d →
  ∃ pre tag b post,
    d = pre ++ (tag, b) :: post
    ∧ CacheSet.scan stamp d = (stamp b, Some tag)
    ∧ Forall (λ item, stamp b < stamp item.2) pre
    ∧ Forall (λ item, stamp b ≤ stamp item.2) post.
Proof.
  induction d as [|[t0 b0] d IH] using rev_ind; [done|].
  intros _ Hpos. apply Forall_app in Hpos as [Hpos _]. rewrite scan_snoc.
  destruct d as [|e d'].
  - exists [], t0, b0, []. simpl. repeat split; constructor.
  - destruct IH as (pre & tag & b & post & Hd & Hscan & Hpre & Hpost);
      [done|done|].
    rewrite Hscan. unfold CacheSet.scan_step. simpl.
    assert (0 ≤ stamp b) as Hb.
    { rewrite Hd in Hpos. apply Forall_app in Hpos as [_ Hpos].
      by apply Forall_cons in Hpos as [Hpos _]. }
    destruct (Z.eqb_spec (stamp b) (-1)); [lia|]. simpl.
    destruct (Z.ltb_spec (stamp b0) (stamp b)).
    + exists (e :: d'), t0, b0, []. repeat split; [|constructor].
      rewrite Hd. apply Forall_app. split.
      * eapply Forall_impl; [exact Hpre|]. simpl. intros; lia.
      * constructor; [simpl; lia|].
        eapply Forall_impl; [exact Hpost|]. simpl. intros; lia.
    + exists pre, tag, b, (post ++ [(t0, b0)]). repeat split; try done.
      * change ((e :: d') ++ [(t0, b0)]
                = pre ++ ((tag, b) :: post) ++ [(t0, b0)]).
        by rewrite Hd, <- app_assoc.
      * apply Forall_app. split; [done|]. constructor; [simpl; lia|done].
Qed.

(** Whatever the stamps, the loop over a set that is not empty returns the
    tag of one of its blocks. *)
Lemma scan_returns_key d :
  d ≠ [] →
  ∃ tag, (CacheSet.scan stamp d).2 = Some tag ∧ tag ∈ OrderedDict.keys d.
Proof.
  unfold OrderedDict.keys.
  induction d as [|[t0 b0] d IH] using rev_ind; [done|].
  intros _. rewrite scan_snoc, fmap_app. unfold CacheSet.scan_step. simpl.
  destruct ((CacheSet.scan stamp d).1 =? -1) eqn:E1; simpl.
  { exists t0. split; [done|]. apply elem_of_app. right.
    apply list_elem_of_here. }
  destruct (stamp b0 <? (CacheSet.scan stamp d).1); simpl.
  { exists t0. split; [done|]. apply elem_of_app. right.
    apply list_elem_of_here. }
  destruct d as [|e d']; [discriminate|].
  destruct IH as (tag & Htag & Hin); [done|].
  exists tag. split; [done|]. apply elem_of_app. by left.
Qed.

End Scan.

Lemma getitem_middle {V} (pre post : OrderedDict.t V) k v :
  k ∉ OrderedDict.keys pre →
  OrderedDict.getitem (pre ++ (k, v) :: post) k = Some v.
Proof.
  unfold OrderedDict.keys. induction pre as [|[k0 v0] pre IH]; simpl.
  - by rewrite Z.eqb_refl.
  - rewrite not_elem_of_cons. intros [Hne Hk].
    destruct (Z.eqb_spec k k0); [done|]. by apply IH.
Qed.

Lemma NoDup_keys_middle {V} (pre post : OrderedDict.t V) k v :
  NoDup (OrderedDict.keys (pre ++ (k, v) :: post)) →
  k ∉ OrderedDict.keys pre.
Proof.
  unfold OrderedDict.keys. rewrite fmap_app. simpl.
  intros H Hin. apply NoDup_app in H as (_ & H & _).
  apply (H k Hin). apply list_elem_of_here.
Qed.

Lemma choose_victim_stamp s st :
  CacheSet.policy s = "FIFO" ∨ CacheSet.policy s = "LRU" →
  CacheSet.choose_victim (s, st)
  = ((s, st),
     Ok (CacheSet.scan (policy_stamp (CacheSet.policy s))
           (CacheSet.blocks s)).2).
Proof.
  unfold policy_stamp. intros [H|H]; rewrite H; simpl.
  - by apply choose_victim_fifo.
  - by apply choose_victim_lru.
Qed.

(** What [evict_block] does under FIFO and LRU, given where the first
    block of least stamp stands: it flushes that block and, unless the
    flush raised, removes it. *)
Lemma evict_block_first_minimum s st pre tag b post :
  CacheSet.policy s = "FIFO" ∨ CacheSet.policy s = "LRU" →
  NoDup (OrderedDict.keys (CacheSet.blocks s)) →
  CacheSet.blocks s = pre ++ (tag, b) :: post →
  CacheSet.scan (policy_stamp (CacheSet.policy s)) (CacheSet.blocks s)
  = (policy_stamp (CacheSet.policy s) b, Some tag) →
  CacheSet.evict_block (s, st)
  = match flush (CacheSet.memory s) b st with
    | (st', Raise e) => ((s, st'), Raise e)
    | (st', Ok _) => ((CacheSet.set_blocks (pre ++ post) s, st'), Ok tt)
    end.
Proof.
  intros Hp Hnd Hd Hscan. rewrite evict_block_eq. unfold evict_outcome.
  rewrite (choose_victim_stamp _ _ Hp), Hscan. simpl.
  rewrite Hd in Hnd. apply NoDup_keys_middle in Hnd.
  rewrite Hd, getitem_middle, delitem_middle by done.
  by destruct pre.
Qed.

(** ** Write-back *)

Lemma store_word_size b mem i :
  Memory.size (store_word b mem i) = Memory.size mem.
Proof.
  unfold store_word.
  destruct (CacheBlock.base_address b + i <? Memory.size mem); [|done].
  by destruct (list_getitem (CacheBlock.data b) i).
Qed.

Lemma store_word_ok b mem i : memory_ok mem → memory_ok (store_word b mem i).
Proof.
  intros [Hs Hl]. unfold store_word.
  destruct (CacheBlock.base_address b + i <? Memory.size mem); [|done].
  destruct (list_getitem (CacheBlock.data b) i); [|done].
  split; simpl; [done|]. by rewrite length_insert.
Qed.

Lemma store_words_size b offsets :
  ∀ mem, Memory.size (store_words b offsets mem) = Memory.size mem.
Proof.
  unfold store_words. induction offsets as [|i offsets IH]; intros mem;
    simpl; [done|]. by rewrite IH, store_word_size.
Qed.

Lemma store_words_ok b offsets :
  ∀ mem, memory_ok mem → memory_ok (store_words b offsets mem).
Proof.
  unfold store_words. induction offsets as [|i offsets IH]; intros mem Hok;
    simpl; [done|]. by apply IH, store_word_ok.
Qed.

Lemma set_mems_id st mem r :
  mems st !! r = Some mem → set_mems (<[r := mem]> (mems st)) st = st.
Proof. intros H. destruct st. unfold set_mems. simpl in *.
       by rewrite list_insert_id. Qed.

Lemma write_back_turn memory b i st mem :
  0 ≤ CacheBlock.base_address b →
  mems st !! memory = Some mem →
  memory_ok mem →
  covers b (Memory.size mem) [i] →
  (do size <- at_ref memory (do m <- get; ret (Memory.size m));
   if CacheBlock.base_address b + i <? size then
     match list_getitem (CacheBlock.data b) i with
     | None => raise IndexError
     | Some w => at_ref memory (Memory.write (CacheBlock.base_address b + i) w)
     end
   else ret tt) st
  = (set_mems (<[memory := store_word b mem i]> (mems st)) st, Ok tt).
Proof.
  intros Hbase Hm Hok Hcov. apply Forall_singleton in Hcov as [Hi Hlen].
  unfold bind at 1.
  assert (at_ref memory (do m <- get; ret (Memory.size m)) st
          = (st, Ok (Memory.size mem))) as ->.
  { unfold at_ref, bind, get, ret. rewrite Hm. by rewrite set_mems_id. }
  unfold store_word.
  destruct (Z.ltb_spec (CacheBlock.base_address b + i) (Memory.size mem)).
  - unfold list_getitem. destruct (Z.leb_spec 0 i); [|lia].
    destruct (lookup_lt_is_Some_2 (CacheBlock.data b) (Z.to_nat i))
      as [w Hw]; [auto|].
    rewrite Hw. unfold at_ref. rewrite Hm.
    by rewrite memory_write_ok by (done || lia).
  - unfold ret. by rewrite set_mems_id.
Qed.

Lemma write_back_ok memory b offsets :
  0 ≤ CacheBlock.base_address b →
  ∀ st mem,
    mems st !! memory = Some mem →
    memory_ok mem →
    covers b (Memory.size mem) offsets →
    for_each offsets (λ i,
      let addr := CacheBlock.base_address b + i in
      do size <- at_ref memory (do m <- get; ret (Memory.size m));
      if addr <? size then
        match list_getitem (CacheBlock.data b) i with
        | None => raise IndexError
        | Some w => at_ref memory (Memory.write addr w)
        end
      else ret tt) st
    = (set_mems (<[memory := store_words b offsets mem]> (mems st)) st, Ok tt).
Proof.
  intros Hbase. unfold covers.
  induction offsets as [|i offsets IH]; intros st mem Hm Hok Hcov.
  - simpl. unfold ret. by rewrite set_mems_id.
  - apply Forall_cons in Hcov as [Hi Hcov].
    cbn [for_each store_words foldl]. unfold bind at 1. cbv zeta.
    rewrite (write_back_turn memory b i st mem Hbase Hm Hok)
      by by apply Forall_singleton.
    assert (memory < length (mems st))%nat by by eapply lookup_lt_Some.
    rewrite (IH _ (store_word b mem i)).
    + unfold set_mems. simpl. by rewrite list_insert_insert_eq.
    + simpl. by apply list_lookup_insert_eq.
    + by apply store_word_ok.
    + by rewrite store_word_size.
Qed.

(** The flush of a victim succeeds on a well-formed memory. *)
Lemma flush_ok memory b st mem :
  0 ≤ CacheBlock.base_address b →
  mems st !! memory = Some mem →
  memory_ok mem →
  covers b (Memory.size mem) (seqZ 0 (CacheBlock.block_size b)) →
  flush memory b st
  = (set_mems
       (<[memory :=
            if CacheBlock.dirty b
               && negb (bool_decide (CacheBlock.data b = []))
            then store_words b (seqZ 0 (CacheBlock.block_size b)) mem
            else mem]> (mems st)) st, Ok tt).
Proof.
  intros Hb Hm Hok Hcov. unfold flush.
  destruct (CacheBlock.dirty b && negb (bool_decide (CacheBlock.data b = []))).
  - unfold CacheSet.write_back. by apply write_back_ok.
  - unfold ret. by rewrite set_mems_id.
Qed.

(** The cells after the write-back loop over the offsets [0 .. n-1]. *)
Lemma store_words_lookup b mem (n : nat) (addr : Z) :
  0 ≤ CacheBlock.base_address b →
  covers b (Memory.size mem) (seqZ 0 (Z.of_nat n)) →
  memory_ok mem →
  0 ≤ addr < Memory.size mem →
  Memory.data (store_words b (seqZ 0 (Z.of_nat n)) mem) !! Z.to_nat addr
  = if decide (CacheBlock.base_address b ≤ addr
               < CacheBlock.base_address b + Z.of_nat n)
    then CacheBlock.data b !! Z.to_nat (addr - CacheBlock.base_address b)
    else Memory.data mem !! Z.to_nat addr.
Proof.
  intros Hb Hcov Hok Ha. induction n as [|n IH].
  - simpl. rewrite decide_False by lia. done.
  - rewrite seqZ_S in *. apply Forall_app in Hcov as [Hcov Hn].
    apply Forall_singleton in Hn as [_ Hn]. simpl in Hn.
    unfold store_words in *. rewrite foldl_app. simpl.
    specialize (IH Hcov).
    set (mem1 := foldl (store_word b) mem (seqZ 0 (Z.of_nat n))) in *.
    assert (Memory.size mem1 = Memory.size mem) as Hsz
      by apply store_words_size.
    assert (memory_ok mem1) as [_ Hl1] by by apply store_words_ok.
    unfold store_word. rewrite Hsz.
    destruct (Z.ltb_spec (CacheBlock.base_address b + (0 + Z.of_nat n))
                (Memory.size mem)) as [Hlt|Hge].
    + unfold list_getitem. destruct (Z.leb_spec 0 (0 + Z.of_nat n)); [|lia].
      destruct (lookup_lt_is_Some_2 (CacheBlock.data b)
                  (Z.to_nat (0 + Z.of_nat n))) as [w Hw]; [auto|].
      rewrite Hw. simpl.
      destruct (decide (addr = CacheBlock.base_address b + (0 + Z.of_nat n)))
        as [->|Hne].
      * rewrite list_lookup_insert_eq by lia.
        rewrite decide_True by lia. rewrite <- Hw. f_equal. lia.
      * rewrite list_lookup_insert_ne by lia. rewrite IH.
        destruct (decide (CacheBlock.base_address b ≤ addr
                          < CacheBlock.base_address b + Z.of_nat n)).
        -- by rewrite decide_True by lia.
        -- by rewrite decide_False by lia.
    + rewrite IH.
      destruct (decide (CacheBlock.base_address b ≤ addr
                        < CacheBlock.base_address b + Z.of_nat n)).
      * by rewrite decide_True by lia.
      * by rewrite decide_False by lia.
Qed.



Example demo_set_in_world : Cache.sets demo_world.1 !! 0%nat = Some demo_set.
Proof. reflexivity. Qed.


(** A value written on a hit reaches Memory when its block is evicted:
    the write of 7 to address 1 hits the block of tag 0, which the read of
    address 8 evicts. *)
Example write_back_fidelity :
  let res := run_ops 0%nat [Read 0; Write 1 (PyInt 7); Read 4; Read 8]
               (demo_cache, demo_store) in
  res.2 = Ok tt
  ∧ (λ s, OrderedDict.keys (CacheSet.blocks s)) <$> Cache.sets res.1.1
    = [[1; 2]; []]
  ∧ (λ m, take 4 (Memory.data m)) <$> mems res.1.2
    = [[PyInt 0; PyInt 7; PyNone; PyNone]].
Proof. by vm_compute. Qed.

(** ** Admission under FIFO and LRU *)

Lemma getitem_clean d tag b :
  all_clean d → OrderedDict.getitem d tag = Some b →
  CacheBlock.dirty b = false.
Proof.
  intros Hc Hb. apply getitem_Some_elem in Hb.
  by eapply Forall_forall in Hc; [|exact Hb].
Qed.

Lemma add_block_clean block s st :
  CacheSet.policy s = "FIFO" ∨ CacheSet.policy s = "LRU" →
  all_clean (CacheSet.blocks s) →
  CacheSet.add_block block (s, st)
  = ((CacheSet.set_blocks
        (fill (CacheSet.policy s) (CacheSet.associativity s)
           (CacheSet.blocks s) block) s, st), Ok tt).
Proof.
  intros Hp Hclean. rewrite add_block_eq. unfold add_outcome, fill.
  destruct (Z.of_nat (length (CacheSet.blocks s))
            >=? CacheSet.associativity s); [|done].
  rewrite evict_block_eq. unfold evict_outcome.
  destruct (CacheSet.blocks s) as [|e d] eqn:Hd; [simpl; by rewrite Hd|].
  rewrite (choose_victim_stamp _ _ Hp). rewrite Hd.
  destruct (scan_returns_key (policy_stamp (CacheSet.policy s)) (e :: d))
    as (victim & -> & Hin); [done|].
  destruct (OrderedDict.getitem (e :: d) victim) as [b|] eqn:Hb.
  - unfold flush. by rewrite (getitem_clean _ _ _ Hclean Hb).
  - apply getitem_None_keys in Hb. done.
Qed.

Lemma all_clean_fill policy associativity d block :
  all_clean d → CacheBlock.dirty block = false →
  all_clean (fill policy associativity d block).
Proof.
  unfold all_clean, fill. intros Hc Hb. apply Forall_forall.
  intros [t b] Hin. apply elem_of_setitem in Hin as [Hin|[= -> ->]];
    [|done].
  assert ((t, b) ∈ d) as Hd; [|by eapply Forall_forall in Hc; [|exact Hd]].
  destruct (Z.of_nat (length d) >=? associativity); [|done].
  destruct (CacheSet.scan (policy_stamp policy) d).2; [|done].
  by eapply elem_of_delitem.
Qed.

(** A set that is not full takes the block at the end. *)
Lemma fill_room policy associativity d block :
  Z.of_nat (length d) < associativity →
  CacheBlock.tag block ∉ OrderedDict.keys d →
  fill policy associativity d block = d ++ [(CacheBlock.tag block, block)].
Proof.
  intros Hlen Hk. unfold fill.
  destruct (Z.geb_spec (Z.of_nat (length d)) associativity); [lia|].
  by apply setitem_new.
Qed.

(** Blocks in the order of their admission: under FIFO the victim of a
    full set is the head. *)
Lemma scan_load_time_head e d :
  StronglySorted filled_before (e :: d) →
  Forall (λ item, 0 ≤ CacheBlock.load_time item.2) (e :: d) →
  (CacheSet.scan CacheBlock.load_time (e :: d)).2 = Some e.1.
Proof.
  intros Hsorted Hpos.
  destruct (scan_first_minimum CacheBlock.load_time (e :: d))
    as (pre & tag & b & post & Hd & -> & Hpre & _); [done|done|].
  destruct pre as [|x pre]; [by injection Hd as ->|]. exfalso.
  injection Hd as -> ->. apply Forall_cons in Hpre as [Hx _].
  apply StronglySorted_cons in Hsorted as [Hall _].
  eapply Forall_forall in Hall;
    [|apply elem_of_app; right; apply list_elem_of_here].
  unfold filled_before in Hall. simpl in *. lia.
Qed.

Lemma fill_fifo_full associativity e d block :
  associativity ≤ Z.of_nat (length (e :: d)) →
  NoDup (OrderedDict.keys (e :: d)) →
  StronglySorted filled_before (e :: d) →
  Forall (λ item, 0 ≤ CacheBlock.load_time item.2) (e :: d) →
  CacheBlock.tag block ∉ OrderedDict.keys (e :: d) →
  fill "FIFO" associativity (e :: d) block
  = d ++ [(CacheBlock.tag block, block)].
Proof.
  intros Hlen Hnd Hsorted Hpos Hk. unfold fill.
  destruct (Z.geb_spec (Z.of_nat (length (e :: d))) associativity); [|lia].
  change (policy_stamp "FIFO") with CacheBlock.load_time.
  rewrite scan_load_time_head by done. destruct e as [k v]. simpl.
  rewrite Z.eqb_refl. apply setitem_new.
  intros Hin. apply Hk. unfold OrderedDict.keys in *. simpl.
  by apply list_elem_of_further.
Qed.

(** ** Calls on a memory that covers the address space *)

Lemma fetch_ok address_bit memory base offsets :
  ∀ acc st mem,
    mems st !! memory = Some mem →
    memory_ok mem →
    Forall (λ i, base + i < 2 ^ address_bit →
                 0 ≤ base + i < Memory.size mem) offsets →
    ∃ data mem',
      Cache.fetch address_bit memory base offsets acc st
      = (set_mems (<[memory := mem']> (mems st)) st, Ok data)
      ∧ memory_ok mem'
      ∧ Memory.size mem' = Memory.size mem
      ∧ Memory.data mem' = Memory.data mem.
Proof.
  induction offsets as [|i offsets IH]; intros acc st mem Hm Hok Hall; simpl.
  - exists acc, mem. unfold ret. by rewrite set_mems_id.
  - apply Forall_cons in Hall as [Hi Hall].
    destruct (Z.ltb_spec (base + i) (2 ^ address_bit)) as [Hlt|Hge];
      [|by apply IH].
    unfold bind, at_ref. rewrite Hm.
    destruct (memory_read_ok (base + i) mem Hok (Hi Hlt)) as (v & _ & ->).
    set (mem1 := Memory.set_access_count _ mem).
    assert (memory < length (mems st))%nat by by eapply lookup_lt_Some.
    destruct (IH (acc ++ [cell_value v])
                (set_mems (<[memory := mem1]> (mems st)) st) mem1)
      as (data & mem' & -> & Hok' & Hsz & Hdata).
    + simpl. by apply list_lookup_insert_eq.
    + done.
    + done.
    + exists data, mem'. split; [|split; [exact Hok'|split; done]].
      unfold set_mems. simpl. by rewrite list_insert_insert_eq.
Qed.

Lemma address_split_config c c' address :
  same_config c c' →
  Cache.address_split c' address = Cache.address_split c address.
Proof.
  intros []. unfold Cache.address_split.
  by rewrite sc_address_bit0, sc_block_size0, sc_set_count0.
Qed.

Lemma getitem_is_hit c i s tag :
  set_ok c i s →
  is_hit s tag = bool_decide (tag ∈ OrderedDict.keys (CacheSet.blocks s)).
Proof.
  intros Hset. destruct (is_hit s tag) eqn:Hh.
  - unfold is_hit in Hh.
    destruct (CacheSet.find_block s tag) as [b|] eqn:Hb; [|done].
    symmetry. apply bool_decide_eq_true. by eapply find_block_key.
  - symmetry. apply bool_decide_eq_false. by eapply miss_not_key.
Qed.

(** A read of a tag that the watched set does not hold. *)
Lemma read_miss_tracked c0 memory index now d w address tag offset :
  tracked c0 memory index now d w →
  Cache.policy c0 = "FIFO" ∨ Cache.policy c0 = "LRU" →
  0 ≤ address →
  Cache.address_split c0 address = Ok (tag, index, offset) →
  tag ∉ OrderedDict.keys d →
  ∃ w' v data,
    Cache.read address memory w = (w', Ok v)
    ∧ tracked c0 memory index (now + 1)
        (fill (Cache.policy c0) (Cache.associativity c0) d
           (CacheBlock.mk tag true false (Cache.block_size c0) data
              ((address `div` Cache.block_size c0) * Cache.block_size c0)
              now now)) w'.
Proof.
  destruct w as [c st].
  intros [Hok Hcfg Htime (s & Hs & Hd) Hclean (mem & Hm & Hmok & Hsz)] Hp Ha
    Hsp Hk. simpl in *. subst now d.
  rewrite <- (address_split_config _ _ _ Hcfg) in Hsp.
  destruct (split_index_range _ _ _ _ _ Hok Hsp) as (Hi & Ho & _).
  destruct (split_base _ _ _ _ _ Hok Hsp) as (Hbase & Hoff & Hlt).
  pose proof (co_sets _ Hok _ _ Hs) as Hset.
  pose proof Hcfg as []. pose proof (co_block_size _ Hok) as Hbs.
  assert (is_hit s tag = false) as Hh.
  { rewrite (getitem_is_hit _ _ _ _ Hset).
    by apply bool_decide_eq_false. }
  destruct (Cache.read address memory (c, st)) as [[c' st'] r] eqn:Hread.
  pose proof (read_preserves _ _ _ _ _ _ _ Hok Hread) as Hok'.
  rewrite (read_miss _ _ _ _ _ _ _ _ Hsp (proj1 Hi) Hs Hh) in Hread.
  unfold read_miss_outcome in Hread.
  assert (0 ≤ address `div` Cache.block_size c * Cache.block_size c)
    as Hb0.
  { pose proof (Z.div_pos address (Cache.block_size c)). nia. }
  destruct (fetch_ok (Cache.address_bit c) memory
              (address `div` Cache.block_size c * Cache.block_size c)
              (seqZ 0 (Cache.block_size c)) [] st mem Hm Hmok)
    as (data & mem' & Hf & Hmok' & Hsz' & _).
  { apply Forall_forall. intros i Hin. apply elem_of_seqZ in Hin.
    rewrite <- sc_address_bit0 in Hsz. lia. }
  rewrite Hf in Hread.
  apply fetch_block_inv in Hf as [_ Hlen]; [|lia|lia].
  rewrite add_block_clean in Hread.
  2: { rewrite (so_policy _ _ _ Hset). by rewrite sc_policy0. }
  2: { done. }
  destruct (word_at_ok data offset) as [v Hv]; [lia|lia|].
  rewrite Hv in Hread. injection Hread as <- <- <-.
  eexists _, v, data. split; [reflexivity|].
  assert (memory < length (mems st))%nat by by eapply lookup_lt_Some.
  rewrite <- sc_policy0, <- sc_associativity0, <- sc_block_size0.
  split; simpl; try done.
  - eexists. split.
    + apply list_lookup_insert_eq. by eapply lookup_lt_Some.
    + simpl. by rewrite (so_policy _ _ _ Hset),
        (so_associativity _ _ _ Hset).
  - by apply all_clean_fill.
  - exists mem'. rewrite list_lookup_insert_eq by done.
    split; [done|]. split; [done|]. lia.
Qed.

(** A read of a tag that the watched LRU set holds. *)
Lemma read_hit_tracked c0 memory index now d w address tag offset b :
  tracked c0 memory index now d w →
  Cache.policy c0 = "LRU" →
  Cache.address_split c0 address = Ok (tag, index, offset) →
  OrderedDict.getitem d tag = Some b →
  ∃ w' v,
    Cache.read address memory w = (w', Ok v)
    ∧ w'.2 = w.2
    ∧ tracked c0 memory index (now + 1)
        (OrderedDict.setitem d tag (CacheBlock.set_last_time now b)) w'.
Proof.
  destruct w as [c st].
  intros [Hok Hcfg Htime (s & Hs & Hd) Hclean Hmem] Hp Hsp Hb.
  simpl in *. subst now d.
  rewrite <- (address_split_config _ _ _ Hcfg) in Hsp.
  destruct (split_index_range _ _ _ _ _ Hok Hsp) as (Hi & Ho & _).
  pose proof (co_sets _ Hok _ _ Hs) as Hset.
  pose proof Hcfg as [].
  pose proof (so_blocks _ _ _ Hset _ _ (getitem_Some_elem _ _ _ Hb)) as Hbk.
  pose proof (hit_block_base _ _ _ _ _ _ _ Hok Hsp Hs Hb) as Hbase.
  destruct (split_base _ _ _ _ _ Hok Hsp) as (_ & _ & Hlt).
  destruct (Cache.read address memory (c, st)) as [[c' st'] r] eqn:Hread.
  pose proof (read_preserves _ _ _ _ _ _ _ Hok Hread) as Hok'.
  rewrite (read_hit _ _ _ _ _ _ _ _ _ Hsp (proj1 Hi) Hs Hb
             (bk_valid _ _ _ _ Hbk)) in Hread.
  destruct (word_at_ok (CacheBlock.data b) offset) as [v Hv]; [lia| |].
  { apply (block_data_covers c (Z.to_nat index) tag b offset Hok Hbk); lia. }
  rewrite Hv in Hread. injection Hread as <- <- <-.
  eexists _, v. split; [reflexivity|]. split; [done|].
  unfold read_hit_cache, with_block in *. rewrite sc_policy0, Hp in *.
  simpl in *. split; simpl.
  - done.
  - split; simpl; congruence.
  - done.
  - eexists. split.
    + apply list_lookup_insert_eq. by eapply lookup_lt_Some.
    + done.
  - apply Forall_forall. intros [t1 b1] Hin.
    apply elem_of_setitem in Hin as [Hin|[= -> ->]].
    + by eapply Forall_forall in Hclean; [|exact Hin].
    + simpl. by eapply getitem_clean.
  - done.
Qed.

(** A write of a tag that the watched set does not hold. *)
Lemma write_miss_tracked c0 memory index now d w address data tag offset :
  tracked c0 memory index now d w →
  0 ≤ address →
  Cache.address_split c0 address = Ok (tag, index, offset) →
  tag ∉ OrderedDict.keys d →
  ∃ w',
    Cache.write address data memory w = (w', Ok tt)
    ∧ tracked c0 memory index (now + 1) d w'.
Proof.
  destruct w as [c st].
  intros [Hok Hcfg Htime (s & Hs & Hd) Hclean (mem & Hm & Hmok & Hsz)] Ha
    Hsp Hk. simpl in *. subst now d.
  rewrite <- (address_split_config _ _ _ Hcfg) in Hsp.
  destruct (split_index_range _ _ _ _ _ Hok Hsp) as (Hi & Ho & _).
  destruct (split_base _ _ _ _ _ Hok Hsp) as (_ & _ & Hlt).
  pose proof (co_sets _ Hok _ _ Hs) as Hset.
  pose proof Hcfg as []. pose proof Hsz as Hsz0.
  rewrite <- sc_address_bit0 in Hsz.
  assert (is_hit s tag = false) as Hh.
  { rewrite (getitem_is_hit _ _ _ _ Hset).
    by apply bool_decide_eq_false. }
  destruct (Cache.write address data memory (c, st)) as [[c' st'] r]
    eqn:Hwrite.
  pose proof (write_preserves _ _ _ _ _ _ _ _ Hok Hwrite) as Hok'.
  rewrite (write_miss _ _ _ _ _ _ _ _ _ Hsp (proj1 Hi) Hs Hh) in Hwrite.
  unfold write_miss_outcome, at_ref in Hwrite. rewrite Hm in Hwrite.
  rewrite memory_write_ok in Hwrite by (done || lia).
  injection Hwrite as <- <- <-.
  eexists. split; [reflexivity|].
  assert (memory < length (mems st))%nat by by eapply lookup_lt_Some.
  split; simpl.
  - done.
  - split; simpl; congruence.
  - done.
  - eauto.
  - done.
  - eexists. rewrite list_lookup_insert_eq by done.
    split; [done|]. destruct Hmok as [? Hl].
    split; [|simpl; lia]. split; simpl; [done|]. by rewrite length_insert.
Qed.

(** A fresh cache on a memory that covers the address space. *)
Lemma init_tracked cache_size block_size associativity policy address_bit
    cache_memory memory c0 st mem index :
  Cache.init cache_size block_size associativity policy address_bit
    cache_memory = Ok c0 →
  mems st !! memory = Some mem →
  memory_ok mem →
  2 ^ address_bit ≤ Memory.size mem →
  0 ≤ index < Cache.set_count c0 →
  tracked c0 memory index 0 [] (c0, st).
Proof.
  intros Hinit Hm Hmok Hsz Hi. pose proof (init_ok _ _ _ _ _ _ _ Hinit).
  apply init_inv in Hinit as (_ & _ & _ & ->). simpl in *.
  split; simpl; try done.
  - exists (CacheSet.init associativity policy cache_memory). split; [|done].
    rewrite list_lookup_fmap, lookup_seqZ_lt by lia. done.
  - constructor.
  - eauto.
Qed.

Lemma tracked_set c0 memory index now d w :
  tracked c0 memory index now d w →
  NoDup (OrderedDict.keys d)
  ∧ StronglySorted filled_before d
  ∧ Forall (λ item, 0 ≤ CacheBlock.load_time item.2) d.
Proof.
  intros [Hok _ _ (s & Hs & <-) _ _].
  pose proof (co_sets _ Hok _ _ Hs) as Hset.
  split; [apply Hset|]. split; [apply Hset|].
  apply Forall_forall. intros [t b] Hin.
  apply (so_blocks _ _ _ Hset) in Hin as []. simpl. lia.
Qed.

(** ** FIFO is a queue *)

Lemma aimed_split c index address :
  0 < Cache.block_size c → 0 < Cache.set_count c →
  address < 2 ^ Cache.address_bit c →
  index_of c address = index →
  Cache.address_split c address
  = Ok (tag_of c address, index, address `mod` Cache.block_size c).
Proof. intros ? ? ? <-. by apply address_split_ok. Qed.

Lemma keys_snoc (d : OrderedDict.t CacheBlock.t) k v :
  OrderedDict.keys (d ++ [(k, v)]) = OrderedDict.keys d ++ [k].
Proof. unfold OrderedDict.keys. by rewrite fmap_app. Qed.

(** The keys of a FIFO set after one more tag, in terms of all the tags
    inserted so far. *)
Lemma fifo_keys_step (k : nat) (ins : list Z) (t : Z)
    (d : OrderedDict.t CacheBlock.t) (block : CacheBlock.t) :
  (1 ≤ k)%nat →
  CacheBlock.tag block = t →
  OrderedDict.keys d = drop (length ins - k) ins →
  t ∉ ins →
  NoDup (OrderedDict.keys d) →
  StronglySorted filled_before d →
  Forall (λ item, 0 ≤ CacheBlock.load_time item.2) d →
  OrderedDict.keys (fill "FIFO" (Z.of_nat k) d block)
  = drop (length (ins ++ [t]) - k) (ins ++ [t]).
Proof.
  intros Hk Ht Hkeys Hnin Hnd Hsorted Hpos.
  assert (length d = (length ins - (length ins - k))%nat) as Hlen.
  { unfold OrderedDict.keys in Hkeys. apply (f_equal length) in Hkeys.
    by rewrite length_fmap, length_drop in Hkeys. }
  assert (t ∉ OrderedDict.keys d) as Hnk.
  { rewrite Hkeys. intros Hin. apply Hnin.
    by eapply (subseteq_drop (length ins - k) ins). }
  rewrite length_app. simpl.
  destruct (decide (length d < k)%nat) as [Hroom|Hfull].
  - rewrite fill_room by (rewrite ?Ht; done || lia).
    rewrite keys_snoc, Hkeys, Ht.
    replace (length ins - k)%nat with 0%nat by lia.
    replace (length ins + 1 - k)%nat with 0%nat by lia. done.
  - destruct d as [|e d']; [simpl in *; lia|].
    rewrite fill_fifo_full by (rewrite ?Ht; done || lia).
    rewrite keys_snoc, Ht.
    replace (length ins + 1 - k)%nat with (S (length ins - k)) by lia.
    rewrite drop_app_le by lia. f_equal.
    unfold OrderedDict.keys in *. simpl in Hkeys.
    replace (S (length ins - k)) with (length ins - k + 1)%nat by lia.
    by rewrite <- (drop_drop _ 1 (length ins - k)), <- Hkeys.
Qed.

Lemma run_ops_cons memory o ops w :
  run_ops memory (o :: ops) w
  = match run_op memory o w with
    | (w1, Ok _) => run_ops memory ops w1
    | (w1, Raise e) => (w1, Raise e)
    end.
Proof. reflexivity. Qed.

Lemma run_read memory address w w' v :
  Cache.read address memory w = (w', Ok v) →
  run_op memory (Read address) w = (w', Ok tt).
Proof. intros H. simpl. unfold bind, ret. by rewrite H. Qed.

(** A trace of reads of new tags and of writes of tags that are never
    read, all for one set of a FIFO cache: the set holds the last
    [associativity] tags read, in the order of their reading. *)
Lemma fifo_queue c0 memory index (k : nat) :
  Cache.policy c0 = "FIFO" →
  Cache.associativity c0 = Z.of_nat k → (1 ≤ k)%nat →
  0 < Cache.block_size c0 → 0 < Cache.set_count c0 →
  ∀ ops ins now d w,
    tracked c0 memory index now d w →
    OrderedDict.keys d = drop (length ins - k) ins →
    aimed_at c0 index ops →
    NoDup (ins ++ read_tags c0 ops) →
    Forall (λ t, t ∉ ins ++ read_tags c0 ops) (write_tags c0 ops) →
    ∃ w' now' d',
      run_ops memory ops w = (w', Ok tt)
      ∧ tracked c0 memory index now' d' w'
      ∧ OrderedDict.keys d'
        = drop (length (ins ++ read_tags c0 ops) - k)
            (ins ++ read_tags c0 ops).
Proof.
  intros Hp Hassoc Hk Hbs Hsc.
  induction ops as [|o ops IH]; intros ins now d w Htr Hkeys Haim Hnd Hw.
  - simpl. rewrite app_nil_r. exists w, now, d. split; [done|]. by split.
  - apply Forall_cons in Haim as [[Ha Hidx] Haim].
    rewrite run_ops_cons.
    destruct o as [address|address data]; simpl in *.
    + pose proof (aimed_split c0 index address Hbs Hsc (proj2 Ha) Hidx)
        as Hsp.
      set (t := tag_of c0 address) in *.
      assert (t ∉ ins) as Hnin.
      { apply NoDup_app in Hnd as (_ & Hnd & _). intros Hin.
        apply (Hnd t Hin). apply list_elem_of_here. }
      assert (t ∉ OrderedDict.keys d) as Hnk.
      { rewrite Hkeys. intros Hin. apply Hnin.
        by eapply (subseteq_drop (length ins - k) ins). }
      destruct (read_miss_tracked _ _ _ _ _ _ _ _ _ Htr (or_introl Hp)
                  (proj1 Ha) Hsp Hnk) as (w1 & v & data & Hread & Htr1).
      unfold bind, ret. rewrite Hread.
      destruct (tracked_set _ _ _ _ _ _ Htr) as (Hnd0 & Hsorted & Hpos).
      destruct (IH (ins ++ [t]) _ _ w1 Htr1) as (w' & now' & d' & Hrun & H').
      * rewrite Hp, Hassoc. by apply fifo_keys_step.
      * done.
      * by rewrite <- app_assoc.
      * by rewrite <- app_assoc.
      * exists w', now', d'. by rewrite <- app_assoc in H'.
    + apply Forall_cons in Hw as [Hnot Hw].
      pose proof (aimed_split c0 index address Hbs Hsc (proj2 Ha) Hidx)
        as Hsp.
      set (t := tag_of c0 address) in *.
      assert (t ∉ OrderedDict.keys d) as Hnk.
      { rewrite Hkeys. intros Hin. apply Hnot. apply elem_of_app. left.
        by eapply (subseteq_drop (length ins - k) ins). }
      destruct (write_miss_tracked _ _ _ _ _ _ _ data _ _ Htr (proj1 Ha)
                  Hsp Hnk) as (w1 & Hwrite & Htr1).
      rewrite Hwrite. by eapply IH.
Qed.

(** ** The victim of a full set in a running cache *)

Lemma block_covers c i tag b size :
  cache_ok c → block_ok c i tag b →
  size ≤ 2 ^ Cache.address_bit c →
  covers b size (seqZ 0 (CacheBlock.block_size b)).
Proof.
  intros Hok Hbk Hsz. apply Forall_forall. intros o Ho.
  apply elem_of_seqZ in Ho. split; [lia|]. intros Hlt.
  apply (block_data_covers c i tag b o Hok Hbk).
  - rewrite <- (bk_size _ _ _ _ Hbk). lia.
  - lia.
Qed.

Lemma stamps_nonneg c i s policy :
  set_ok c i s →
  Forall (λ item, 0 ≤ policy_stamp policy item.2) (CacheSet.blocks s).
Proof.
  intros Hset. apply Forall_forall. intros [t b] Hin.
  apply (so_blocks _ _ _ Hset) in Hin as []. unfold policy_stamp. simpl.
  destruct (String.eqb policy "FIFO"); lia.
Qed.

(** In a running FIFO or LRU cache whose Memory is within the address
    space, [add_block] on a full set evicts the first block of least stamp
    and puts the new block in. *)
Lemma add_block_evicts c st i s block mem :
  cache_ok c →
  Cache.policy c = "FIFO" ∨ Cache.policy c = "LRU" →
  Cache.sets c !! i = Some s →
  CacheSet.associativity s ≤ Z.of_nat (length (CacheSet.blocks s)) →
  mems st !! Cache.memory c = Some mem →
  memory_ok mem →
  Memory.size mem ≤ 2 ^ Cache.address_bit c →
  ∃ pre victim b post st',
    CacheSet.blocks s = pre ++ (victim, b) :: post
    ∧ Forall (λ item, policy_stamp (Cache.policy c) b
                      < policy_stamp (Cache.policy c) item.2) pre
    ∧ Forall (λ item, policy_stamp (Cache.policy c) b
                      ≤ policy_stamp (Cache.policy c) item.2) post
    ∧ CacheSet.add_block block (s, st)
      = ((CacheSet.set_blocks
            (OrderedDict.setitem (pre ++ post) (CacheBlock.tag block) block)
            s, st'), Ok tt).
Proof.
  intros Hok Hp Hs Hfull Hm Hmok Hsz.
  pose proof (co_sets _ Hok _ _ Hs) as Hset.
  pose proof (co_associativity _ Hok) as Ha.
  rewrite <- (so_policy _ _ _ Hset) in *.
  rewrite <- (so_associativity _ _ _ Hset) in Ha.
  rewrite <- (so_memory _ _ _ Hset) in Hm.
  assert (CacheSet.blocks s ≠ []) as Hne.
  { intros E. rewrite E in Hfull. simpl in Hfull. lia. }
  destruct (scan_first_minimum (policy_stamp (CacheSet.policy s))
              (CacheSet.blocks s) Hne (stamps_nonneg _ _ _ _ Hset))
    as (pre & victim & b & post & Hd & Hscan & Hpre & Hpost).
  assert (block_ok c i victim b) as Hbk.
  { apply (so_blocks _ _ _ Hset). rewrite Hd. apply elem_of_app. right.
    apply list_elem_of_here. }
  eexists pre, victim, b, post, _. repeat split; try done.
  rewrite add_block_eq. unfold add_outcome.
  destruct (Z.geb_spec (Z.of_nat (length (CacheSet.blocks s)))
              (CacheSet.associativity s)); [|lia].
  rewrite (evict_block_first_minimum s st pre victim b post Hp
             (so_nodup _ _ _ Hset) Hd Hscan).
  rewrite (flush_ok _ _ _ mem); try done.
  - apply (bk_range _ _ _ _ Hbk).
  - by eapply block_covers.
Qed.

(** ** Hits refresh [last_time] under LRU *)

Lemma list_setitem_ok {A} (l : list A) i x :
  0 ≤ i → (Z.to_nat i < length l)%nat →
  list_setitem l i x = Some (<[Z.to_nat i := x]> l).
Proof.
  intros Hi Hlt. unfold list_setitem.
  destruct (Z.leb_spec 0 i); [|lia].
  destruct (Z.ltb_spec i (Z.of_nat (length l))); [done|lia].
Qed.

Lemma read_hit_refreshes c st address memory tag index offset s b :
  cache_ok c →
  Cache.policy c = "LRU" →
  Cache.address_split c address = Ok (tag, index, offset) →
  Cache.sets c !! Z.to_nat index = Some s →
  CacheSet.find_block s tag = Some b →
  ∃ c' w s' b',
    Cache.read address memory (c, st) = ((c', st), Ok w)
    ∧ Cache.time c' = Cache.time c + 1
    ∧ Cache.sets c' !! Z.to_nat index = Some s'
    ∧ CacheSet.find_block s' tag = Some b'
    ∧ CacheBlock.last_time b' = Cache.time c
    ∧ CacheBlock.load_time b' = CacheBlock.load_time b.
Proof.
  intros Hok Hp Hsp Hs Hb.
  destruct (split_index_range _ _ _ _ _ Hok Hsp) as (Hi & Ho & _).
  destruct (split_base _ _ _ _ _ Hok Hsp) as (_ & _ & Hlt).
  pose proof (so_blocks _ _ _ (co_sets _ Hok _ _ Hs) _ _
                (find_block_elem _ _ _ Hb)) as Hbk.
  pose proof (hit_block_base _ _ _ _ _ _ _ Hok Hsp Hs Hb) as Hbase.
  rewrite (read_hit _ _ _ _ _ _ _ _ _ Hsp (proj1 Hi) Hs Hb
             (bk_valid _ _ _ _ Hbk)).
  destruct (word_at_ok (CacheBlock.data b) offset) as [w ->]; [lia| |].
  { apply (block_data_covers c (Z.to_nat index) tag b offset Hok Hbk); lia. }
  unfold read_hit_cache. rewrite Hp. simpl.
  eexists _, w, _, _. split; [reflexivity|]. simpl. split; [done|].
  split; [apply list_lookup_insert_eq; by eapply lookup_lt_Some|].
  unfold CacheSet.find_block. simpl. rewrite getitem_setitem_eq. done.
Qed.

Lemma write_hit_refreshes c st address data memory tag index offset s b :
  cache_ok c →
  Cache.policy c = "LRU" →
  Cache.address_split c address = Ok (tag, index, offset) →
  Cache.sets c !! Z.to_nat index = Some s →
  CacheSet.find_block s tag = Some b →
  ∃ c' s' b',
    Cache.write address data memory (c, st) = ((c', st), Ok tt)
    ∧ Cache.time c' = Cache.time c + 1
    ∧ Cache.sets c' !! Z.to_nat index = Some s'
    ∧ CacheSet.find_block s' tag = Some b'
    ∧ CacheBlock.last_time b' = Cache.time c
    ∧ CacheBlock.load_time b' = CacheBlock.load_time b.
Proof.
  intros Hok Hp Hsp Hs Hb.
  destruct (split_index_range _ _ _ _ _ Hok Hsp) as (Hi & Ho & _).
  destruct (split_base _ _ _ _ _ Hok Hsp) as (_ & _ & Hlt).
  pose proof (so_blocks _ _ _ (co_sets _ Hok _ _ Hs) _ _
                (find_block_elem _ _ _ Hb)) as Hbk.
  pose proof (hit_block_base _ _ _ _ _ _ _ Hok Hsp Hs Hb) as Hbase.
  rewrite (write_hit _ _ _ _ _ _ _ _ _ _ Hsp (proj1 Hi) Hs Hb
             (bk_valid _ _ _ _ Hbk)).
  unfold write_hit_outcome.
  rewrite (writable_data_ok _ _ _ _ Hok Hbk).
  rewrite list_setitem_ok; [|lia|].
  2: { apply (block_data_covers c (Z.to_nat index) tag b offset Hok Hbk);
       lia. }
  unfold touched, with_block. rewrite Hp. simpl.
  eexists _, _, _. split; [reflexivity|]. simpl. split; [done|].
  split; [apply list_lookup_insert_eq; by eapply lookup_lt_Some|].
  unfold CacheSet.find_block. simpl. rewrite getitem_setitem_eq. done.
Qed.

(** ** LRU: A, B, A again, then C *)

Lemma init_set_count_pos cache_size block_size associativity policy
    address_bit memory c0 address tag index offset :
  Cache.init cache_size block_size associativity policy address_bit memory
    = Ok c0 →
  Cache.address_split c0 address = Ok (tag, index, offset) →
  0 ≤ index < Cache.set_count c0.
Proof.
  intros Hinit Hsp. apply init_ok in Hinit.
  by destruct (split_index_range _ _ _ _ _ Hinit Hsp) as (Hi & _).
Qed.

Lemma lru_scenario cache_size block_size address_bit cache_memory c0 st
    memory mem (a b c ta tb tc index oa ob oc : Z) :
  Cache.init cache_size block_size 2 "LRU" address_bit cache_memory
    = Ok c0 →
  mems st !! memory = Some mem →
  memory_ok mem →
  2 ^ address_bit ≤ Memory.size mem →
  0 ≤ a → 0 ≤ b → 0 ≤ c →
  Cache.address_split c0 a = Ok (ta, index, oa) →
  Cache.address_split c0 b = Ok (tb, index, ob) →
  Cache.address_split c0 c = Ok (tc, index, oc) →
  ta ≠ tb → tc ≠ ta → tc ≠ tb →
  ∃ w s,
    run_ops memory [Read a; Read b; Read a; Read c] (c0, st) = (w, Ok tt)
    ∧ Cache.sets w.1 !! Z.to_nat index = Some s
    ∧ OrderedDict.keys (CacheSet.blocks s) = [ta; tc].
Proof.
  intros Hinit Hm Hmok Hsz Ha Hb Hc Hspa Hspb Hspc Hab Hca Hcb.
  pose proof (init_set_count_pos _ _ _ _ _ _ _ _ _ _ _ Hinit Hspa) as Hi.
  pose proof (init_tracked _ _ _ _ _ _ memory c0 st mem index
                Hinit Hm Hmok Hsz Hi) as T0.
  apply init_inv in Hinit as (_ & _ & _ & Hc0).
  assert (Cache.policy c0 = "LRU") as Hp by by rewrite Hc0.
  assert (Cache.associativity c0 = 2) as Hassoc by by rewrite Hc0.
  clear Hc0.
  (* read A: a miss into the empty set *)
  destruct (read_miss_tracked _ _ _ _ _ _ _ _ _ T0 (or_intror Hp) Ha Hspa)
    as (w1 & v1 & d1 & R1 & T1).
  { apply not_elem_of_nil. }
  rewrite fill_room in T1; [|rewrite Hassoc; simpl; lia|apply not_elem_of_nil].
  simpl in T1. change (0 + 1) with 1 in T1.
  (* read B: a miss, the set has room *)
  destruct (read_miss_tracked _ _ _ _ _ _ _ _ _ T1 (or_intror Hp) Hb Hspb)
    as (w2 & v2 & d2 & R2 & T2).
  { simpl. intros H. apply list_elem_of_singleton in H. congruence. }
  rewrite fill_room in T2; [|rewrite Hassoc; simpl; lia|].
  2: { simpl. intros H. apply list_elem_of_singleton in H. congruence. }
  simpl in T2. change (1 + 1) with 2 in T2.
  (* read A again: a hit *)
  match type of T2 with
  | tracked _ _ _ _ ((_, ?blockA) :: _) _ =>
      destruct (read_hit_tracked c0 memory index _ _ w2 a ta oa blockA
                  T2 Hp Hspa) as (w3 & v3 & R3 & _ & T3)
  end.
  { simpl. by rewrite Z.eqb_refl. }
  simpl in T3. rewrite Z.eqb_refl in T3. change (2 + 1) with 3 in T3.
  (* read C: a miss into the full set *)
  destruct (read_miss_tracked _ _ _ _ _ _ _ _ _ T3 (or_intror Hp) Hc Hspc)
    as (w4 & v4 & d4 & R4 & T4).
  { simpl. intros H. apply elem_of_cons in H as [H|H]; [congruence|].
    apply list_elem_of_singleton in H. congruence. }
  unfold fill in T4. rewrite Hp, Hassoc in T4. simpl in T4.
  destruct (Z.eqb_spec tb ta) as [E|_]; [congruence|].
  rewrite Z.eqb_refl in T4.
  (* the trace *)
  destruct T4 as [_ _ _ (s & Hs & Hd) _ _].
  exists w4, s. split; [|split; [done|]].
  2: { rewrite Hd. simpl. by destruct (Z.eqb_spec tc ta); [congruence|]. }
  rewrite run_ops_cons, (run_read _ _ _ _ _ R1).
  rewrite run_ops_cons, (run_read _ _ _ _ _ R2).
  rewrite run_ops_cons, (run_read _ _ _ _ _ R3).
  rewrite run_ops_cons, (run_read _ _ _ _ _ R4). reflexivity.
Qed.

(** ** [load_time] is written once *)

Lemma getitem_delitem_ne {V} (d : OrderedDict.t V) k k' :
  k ≠ k' →
  OrderedDict.getitem (OrderedDict.delitem d k) k' = OrderedDict.getitem d k'.
Proof.
  intros Hne. induction d as [|[k0 v0] d IH]; simpl; [done|].
  destruct (Z.eqb_spec k k0) as [->|]; simpl.
  - destruct (Z.eqb_spec k' k0); [congruence|done].
  - destruct (Z.eqb_spec k' k0); [done|]. exact IH.
Qed.

Lemma getitem_delitem_eq {V} (d : OrderedDict.t V) k :
  NoDup (OrderedDict.keys d) →
  OrderedDict.getitem (OrderedDict.delitem d k) k = None.
Proof.
  intros Hnd. apply getitem_None_keys.
  unfold OrderedDict.keys in *. induction d as [|[k0 v0] d IH]; simpl.
  - apply not_elem_of_nil.
  - apply NoDup_cons in Hnd as [Hk0 Hnd].
    destruct (Z.eqb_spec k k0) as [->|]; [done|].
    simpl. apply not_elem_of_cons. auto.
Qed.

(** The sets of the cache after a call that changed at most the set
    [index]. *)
Lemma lookup_updated_sets (sets : list CacheSet.t) index s1 i s s' :
  sets !! i = Some s →
  <[index := s1]> sets !! i = Some s' →
  (i = index ∧ s' = s1) ∨ s' = s.
Proof.
  intros Hs Hs'. destruct (decide (index = i)) as [->|Hne].
  - rewrite list_lookup_insert_eq in Hs' by by eapply lookup_lt_Some.
    left. split; congruence.
  - rewrite list_lookup_insert_ne in Hs' by done. right. congruence.
Qed.

Lemma read_keeps_load_time address memory c st c' st' r i s s' tag b b' :
  cache_ok c →
  Cache.read address memory (c, st) = ((c', st'), r) →
  Cache.sets c !! i = Some s →
  Cache.sets c' !! i = Some s' →
  CacheSet.find_block s tag = Some b →
  CacheSet.find_block s' tag = Some b' →
  CacheBlock.load_time b' = CacheBlock.load_time b.
Proof.
  intros Hok Hread Hs Hs' Hb Hb'.
  pose proof (co_sets _ Hok _ _ Hs) as Hset.
  destruct (read_cases address memory c st)
    as [(e & _ & E)
       |(t0 & index & offset & Hsp &
          [[_ E]|(s0 & Hi & Hs0 & [(b0 & Hb0 & Hv & E)|[Hh E]])])];
    rewrite E in Hread; clear E.
  - injection Hread as <- <- <-. simpl in Hs'. congruence.
  - injection Hread as <- <- <-. simpl in Hs'. congruence.
  - injection Hread as <- <- <-. unfold read_hit_cache in Hs'.
    destruct (String.eqb (Cache.policy c) "LRU"); simpl in Hs';
      [|congruence].
    apply (lookup_updated_sets _ _ _ _ _ _ Hs) in Hs' as [[-> ->]| ->];
      [|congruence].
    assert (s0 = s) as -> by congruence.
    unfold CacheSet.find_block in *. simpl in Hb'.
    destruct (decide (t0 = tag)) as [->|Hne].
    + rewrite getitem_setitem_eq in Hb'. injection Hb' as <-.
      simpl. congruence.
    + rewrite getitem_setitem_ne in Hb' by done. congruence.
  - unfold read_miss_outcome in Hread.
    destruct (Cache.fetch _ _ _ _ _ st) as [st1 [data|e]];
      [|injection Hread as <- <- <-; simpl in Hs'; congruence].
    destruct (CacheSet.add_block _ (s0, st1)) as [[s1 st2] r1] eqn:Hadd.
    apply add_block_set in Hadd as (_ & _ & _ & Hblocks).
    assert (Cache.sets c' = <[Z.to_nat index := s1]> (Cache.sets c)) as Hc'.
    { destruct r1; injection Hread as <- <- <-; reflexivity. }
    rewrite Hc' in Hs'.
    apply (lookup_updated_sets _ _ _ _ _ _ Hs) in Hs' as [[-> ->]| ->];
      [|congruence].
    assert (s0 = s) as -> by congruence.
    unfold CacheSet.find_block in *.
    destruct Hblocks as [[_ Hbl]|[_ (d & Hd & Hbl)]];
      [rewrite Hbl in Hb'; congruence|].
    rewrite Hbl in Hb'. simpl in Hb'.
    assert (t0 ≠ tag) as Hne.
    { intros ->. apply (miss_not_key _ _ _ _ Hset Hh).
      by eapply find_block_key. }
    rewrite getitem_setitem_ne in Hb' by done.
    destruct Hd as [->|[v ->]]; [congruence|].
    destruct (decide (v = tag)) as [->|Hv].
    + rewrite getitem_delitem_eq in Hb' by apply Hset. discriminate.
    + rewrite getitem_delitem_ne in Hb' by done. congruence.
Qed.

Lemma write_keeps_load_time address data memory c st c' st' r i s s' tag
    b b' :
  cache_ok c →
  Cache.write address data memory (c, st) = ((c', st'), r) →
  Cache.sets c !! i = Some s →
  Cache.sets c' !! i = Some s' →
  CacheSet.find_block s tag = Some b →
  CacheSet.find_block s' tag = Some b' →
  CacheBlock.load_time b' = CacheBlock.load_time b.
Proof.
  intros Hok Hwrite Hs Hs' Hb Hb'.
  destruct (write_cases address data memory c st)
    as [(e & _ & E)
       |(t0 & index & offset & Hsp &
          [[_ E]|(s0 & Hi & Hs0 & [(b0 & Hb0 & Hv & E)|[Hh E]])])];
    rewrite E in Hwrite; clear E.
  - injection Hwrite as <- <- <-. simpl in Hs'. congruence.
  - injection Hwrite as <- <- <-. simpl in Hs'. congruence.
  - unfold write_hit_outcome in Hwrite.
    assert (∃ b1, CacheBlock.load_time b1 = CacheBlock.load_time b0
                  ∧ Cache.sets c'
                    = <[Z.to_nat index :=
                          CacheSet.set_blocks
                            (OrderedDict.setitem (CacheSet.blocks s0) t0 b1)
                            s0]> (Cache.sets c)) as (b1 & Hb1 & Hc').
    { destruct (list_setitem _ offset data);
        injection Hwrite as <- <- <-; eexists; (split; [|reflexivity]);
        [|done].
      unfold touched. by destruct (String.eqb (Cache.policy c) "LRU"). }
    rewrite Hc' in Hs'.
    apply (lookup_updated_sets _ _ _ _ _ _ Hs) in Hs' as [[-> ->]| ->];
      [|congruence].
    assert (s0 = s) as -> by congruence.
    unfold CacheSet.find_block in *. simpl in Hb'.
    destruct (decide (t0 = tag)) as [->|Hne].
    + rewrite getitem_setitem_eq in Hb'. injection Hb' as <-. congruence.
    + rewrite getitem_setitem_ne in Hb' by done. congruence.
  - unfold write_miss_outcome in Hwrite.
    destruct (at_ref memory _ st) as [st1 r1].
    injection Hwrite as <- <- <-. simpl in Hs'. congruence.
Qed.

(** A read that misses and completes leaves in the set a clean block
    stamped with the clock of the call. *)
Lemma read_miss_stamps c st address memory tag index offset s c' st' v :
  cache_ok c →
  Cache.address_split c address = Ok (tag, index, offset) →
  Cache.sets c !! Z.to_nat index = Some s →
  is_hit s tag = false →
  Cache.read address memory (c, st) = ((c', st'), Ok v) →
  ∃ s' b',
    Cache.sets c' !! Z.to_nat index = Some s'
    ∧ CacheSet.find_block s' tag = Some b'
    ∧ CacheBlock.load_time b' = Cache.time c
    ∧ CacheBlock.last_time b' = Cache.time c
    ∧ CacheBlock.dirty b' = false.
Proof.
  intros Hok Hsp Hs Hh Hread.
  destruct (split_index_range _ _ _ _ _ Hok Hsp) as (Hi & _).
  rewrite (read_miss _ _ _ _ _ _ _ _ Hsp (proj1 Hi) Hs Hh) in Hread.
  unfold read_miss_outcome in Hread.
  destruct (Cache.fetch _ _ _ _ _ st) as [st1 [data|e]]; [|discriminate].
  destruct (CacheSet.add_block _ (s, st1)) as [[s1 st2] r1] eqn:Hadd.
  apply add_block_set in Hadd as (_ & _ & _ & Hblocks).
  destruct r1 as [u|e]; [|discriminate].
  destruct Hblocks as [[Hr _]|[_ (d & _ & Hbl)]]; [by destruct u|].
  injection Hread as <- <- _. simpl.
  eexists s1, _. split.
  - apply list_lookup_insert_eq. by eapply lookup_lt_Some.
  - unfold CacheSet.find_block. rewrite Hbl. simpl.
    rewrite getitem_setitem_eq. done.
Qed.

(** ** FIFO: one tag more than the set can hold *)

Lemma read_tags_nonempty c ops :
  read_tags c ops ≠ [] → ∃ o, o ∈ ops.
Proof. destruct ops as [|o ops]; [done|]. exists o. apply list_elem_of_here. Qed.

Lemma fifo_scenario cache_size block_size (k : nat) address_bit cache_memory
    c0 st memory mem index ops :
  Cache.init cache_size block_size (Z.of_nat k) "FIFO" address_bit
    cache_memory = Ok c0 →
  block_size * Z.of_nat k ≤ cache_size →
  mems st !! memory = Some mem →
  memory_ok mem →
  2 ^ address_bit ≤ Memory.size mem →
  aimed_at c0 index ops →
  NoDup (read_tags c0 ops) →
  Forall (λ t, t ∉ read_tags c0 ops) (write_tags c0 ops) →
  length (read_tags c0 ops) = S k →
  ∃ w s,
    run_ops memory ops (c0, st) = (w, Ok tt)
    ∧ Cache.sets w.1 !! Z.to_nat index = Some s
    ∧ OrderedDict.keys (CacheSet.blocks s) = tail (read_tags c0 ops).
Proof.
  intros Hinit Hfit Hm Hmok Hsz Haim Hnd Hw Hlen.
  pose proof (init_ok _ _ _ _ _ _ _ Hinit) as Hok.
  pose proof Hinit as Hinv.
  apply init_inv in Hinv as ((Hcs & Hbs & Hk) & _ & _ & Hc0).
  assert (Cache.policy c0 = "FIFO") as Hp by by rewrite Hc0.
  assert (Cache.associativity c0 = Z.of_nat k) as Hassoc by by rewrite Hc0.
  assert (Cache.block_size c0 = block_size) as Hbs0 by by rewrite Hc0.
  assert (Cache.address_bit c0 = address_bit) as Hab0 by by rewrite Hc0.
  assert (0 < Cache.set_count c0) as Hsc.
  { rewrite Hc0. simpl. rewrite Z.quot_div_nonneg by nia.
    apply Z.div_str_pos. nia. }
  clear Hc0.
  assert (0 ≤ index < Cache.set_count c0) as Hi.
  { destruct (read_tags_nonempty c0 ops) as [o Ho].
    { intros E. rewrite E in Hlen. discriminate. }
    eapply Forall_forall in Haim; [|exact Ho]. destruct Haim as [_ <-].
    unfold index_of. apply Z.mod_pos_bound. lia. }
  pose proof (init_tracked _ _ _ _ _ _ memory c0 st mem index
                Hinit Hm Hmok Hsz Hi) as T0.
  destruct (fifo_queue c0 memory index k Hp Hassoc ltac:(lia)
              ltac:(lia) Hsc ops [] 0 [] (c0, st) T0)
    as (w & now & d & Hrun & [_ _ _ (s & Hs & Hd) _ _] & Hkeys);
    try done.
  exists w, s. split; [done|]. split; [done|].
  rewrite Hd, Hkeys. simpl. rewrite Hlen.
  replace (S k - k)%nat with 1%nat by lia.
  by destruct (read_tags c0 ops).
Qed.

(** ** LRU eviction *)

(** C1.  Three facts about a cache under LRU.  (1) In a running cache
    whose Memory lies within the address space, [add_block] on a full set
    evicts a block whose [last_time] is the least of the set, and puts the
    new block in.  (2) A read hit and a write hit both set the [last_time]
    of the block they find to the value of the clock at the call, which
    then advances by one.  (3) With two ways, reading A, B, A again and
    then C, three tags of one set of a fresh cache, leaves A and C in the
    set: B was evicted. *)
Theorem lru_evicts_least_recently_used :
  (∀ c st i s block mem,
     reachable (c, st) →
     Cache.policy c = "LRU" →
     Cache.sets c !! i = Some s →
     CacheSet.associativity s ≤ Z.of_nat (length (CacheSet.blocks s)) →
     mems st !! Cache.memory c = Some mem →
     memory_ok mem →
     Memory.size mem ≤ 2 ^ Cache.address_bit c →
     ∃ pre victim b post st',
       CacheSet.blocks s = pre ++ (victim, b) :: post
       ∧ (∀ tag' b', (tag', b') ∈ CacheSet.blocks s →
                     CacheBlock.last_time b ≤ CacheBlock.last_time b')
       ∧ CacheSet.add_block block (s, st)
         = ((CacheSet.set_blocks
               (OrderedDict.setitem (pre ++ post) (CacheBlock.tag block)
                  block) s, st'), Ok tt))
  ∧ (∀ c st address data memory tag index offset s b,
       reachable (c, st) →
       Cache.policy c = "LRU" →
       Cache.address_split c address = Ok (tag, index, offset) →
       Cache.sets c !! Z.to_nat index = Some s →
       CacheSet.find_block s tag = Some b →
       (∃ c' w s' b',
          Cache.read address memory (c, st) = ((c', st), Ok w)
          ∧ Cache.time c' = Cache.time c + 1
          ∧ Cache.sets c' !! Z.to_nat index = Some s'
          ∧ CacheSet.find_block s' tag = Some b'
          ∧ CacheBlock.last_time b' = Cache.time c)
       ∧ (∃ c' s' b',
            Cache.write address data memory (c, st) = ((c', st), Ok tt)
            ∧ Cache.time c' = Cache.time c + 1
            ∧ Cache.sets c' !! Z.to_nat index = Some s'
            ∧ CacheSet.find_block s' tag = Some b'
            ∧ CacheBlock.last_time b' = Cache.time c))
  ∧ (∀ cache_size block_size address_bit cache_memory c0 st memory mem
       a b c ta tb tc index oa ob oc,
       Cache.init cache_size block_size 2 "LRU" address_bit cache_memory
         = Ok c0 →
       mems st !! memory = Some mem →
       memory_ok mem →
       2 ^ address_bit ≤ Memory.size mem →
       0 ≤ a → 0 ≤ b → 0 ≤ c →
       Cache.address_split c0 a = Ok (ta, index, oa) →
       Cache.address_split c0 b = Ok (tb, index, ob) →
       Cache.address_split c0 c = Ok (tc, index, oc) →
       ta ≠ tb → tc ≠ ta → tc ≠ tb →
       ∃ w s,
         run_ops memory [Read a; Read b; Read a; Read c] (c0, st)
         = (w, Ok tt)
         ∧ Cache.sets w.1 !! Z.to_nat index = Some s
         ∧ OrderedDict.keys (CacheSet.blocks s) = [ta; tc]).
Proof.
  split; [|split].
  - intros c st i s block mem Hr Hp Hs Hfull Hm Hmok Hsz.
    apply reachable_ok in Hr. simpl in Hr.
    destruct (add_block_evicts c st i s block mem Hr (or_intror Hp) Hs Hfull
                Hm Hmok Hsz)
      as (pre & victim & b & post & st' & Hd & Hpre & Hpost & Hadd).
    exists pre, victim, b, post, st'. split; [done|]. split; [|done].
    rewrite Hp in Hpre, Hpost. change (policy_stamp "LRU")
      with CacheBlock.last_time in *.
    intros tag' b' Hin. rewrite Hd in Hin.
    apply elem_of_app in Hin as [Hin|Hin].
    + eapply Forall_forall in Hpre; [|exact Hin]. simpl in Hpre. lia.
    + apply elem_of_cons in Hin as [[= -> ->]|Hin]; [lia|].
      by eapply Forall_forall in Hpost; [|exact Hin].
  - intros c st address data memory tag index offset s b Hr Hp Hsp Hs Hb.
    apply reachable_ok in Hr. simpl in Hr. split.
    + destruct (read_hit_refreshes c st address memory tag index offset s b)
        as (c' & w & s' & b' & H1 & H2 & H3 & H4 & H5 & _); try done.
      by exists c', w, s', b'.
    + destruct (write_hit_refreshes c st address data memory tag index
                  offset s b)
        as (c' & s' & b' & H1 & H2 & H3 & H4 & H5 & _); try done.
      by exists c', s', b'.
  - intros. eapply lru_scenario; eauto.
Qed.

Example demo_memory_in_world : mems demo_world.2 !! 0%nat = Some demo_memory.
Proof. reflexivity. Qed.

Lemma demo_memory_ok : memory_ok demo_memory.
Proof. split; [by vm_compute|reflexivity]. Defined.

Lemma demo_store_ok : memory_ok (Memory.init 16).
Proof. split; [by vm_compute|reflexivity]. Defined.

Lemma lru_evicts_least_recently_used_witness :
  (∃ pre victim b post st',
     CacheSet.blocks demo_set = pre ++ (victim, b) :: post
     ∧ (∀ tag' b', (tag', b') ∈ CacheSet.blocks demo_set →
                   CacheBlock.last_time b ≤ CacheBlock.last_time b')
     ∧ CacheSet.add_block (tie_block 2) (demo_set, demo_world.2)
       = ((CacheSet.set_blocks
             (OrderedDict.setitem (pre ++ post)
                (CacheBlock.tag (tie_block 2)) (tie_block 2)) demo_set,
           st'), Ok tt))
  ∧ (∃ c' w s' b',
       Cache.read 5 0%nat demo_world = ((c', demo_world.2), Ok w)
       ∧ Cache.time c' = Cache.time demo_world.1 + 1
       ∧ Cache.sets c' !! Z.to_nat 0 = Some s'
       ∧ CacheSet.find_block s' 1 = Some b'
       ∧ CacheBlock.last_time b' = Cache.time demo_world.1)
  ∧ (∃ w s,
       run_ops 0%nat [Read 0; Read 4; Read 0; Read 8]
         (demo_cache, demo_store) = (w, Ok tt)
       ∧ Cache.sets w.1 !! Z.to_nat 0 = Some s
       ∧ OrderedDict.keys (CacheSet.blocks s) = [0; 2]).
Proof.
  destruct lru_evicts_least_recently_used as (H1 & H2 & H3).
  split; [|split].
  - apply (H1 demo_world.1 demo_world.2 0%nat demo_set (tie_block 2)
             demo_memory).
    + exact demo_world_reachable.
    + reflexivity.
    + reflexivity.
    + by vm_compute.
    + reflexivity.
    + exact demo_memory_ok.
    + by vm_compute.
  - apply (H2 demo_world.1 demo_world.2 5 PyNone 0%nat 1 0 1 demo_set
             (CacheBlock.mk 1 true false 2 [PyInt 0; PyInt 0] 4 1 4)).
    + exact demo_world_reachable.
    + reflexivity.
    + reflexivity.
    + reflexivity.
    + reflexivity.
  - apply (H3 8 2 4 0%nat demo_cache demo_store 0%nat (Memory.init 16)
             0 4 8 0 1 2 0 0 0 0).
    + reflexivity.
    + reflexivity.
    + exact demo_store_ok.
    + by vm_compute.
    + lia.
    + lia.
    + lia.
    + reflexivity.
    + reflexivity.
    + reflexivity.
    + lia.
    + lia.
    + lia.
Defined.

Example lru_scenario_runs :
  let res := run_ops 0%nat [Read 0; Read 4; Read 0; Read 8]
               (demo_cache, demo_store) in
  res.2 = Ok tt
  ∧ (λ s, OrderedDict.keys (CacheSet.blocks s)) <$> Cache.sets res.1.1
    = [[0; 2]; []]
  ∧ Cache.hit_count res.1.1 = 1.
Proof. by vm_compute. Qed.

(** ** FIFO eviction *)

(** C2.  Three facts about a cache under FIFO.  (1) In a running cache
    whose Memory lies within the address space, the victim of [add_block]
    on a full set is the first block of the set, whose [load_time] is
    below that of every other block; the new block goes last.  (2) A read
    that misses and completes leaves in the set a block whose [load_time]
    is the value of the clock at the call, and no call of [read] or
    [write], hit or miss, changes the [load_time] of a block that is in
    the cache before and after the call.  (3) On a fresh cache
    of associativity [k], a trace of calls for one set in which [k+1]
    distinct tags are read and no tag that is read is also written (so no
    call hits, whatever the mix of reads and writes) completes and leaves
    in the set the tags read, less the first. *)
Theorem fifo_evicts_first_inserted :
  (∀ c st i s block mem,
     reachable (c, st) →
     Cache.policy c = "FIFO" →
     Cache.sets c !! i = Some s →
     CacheSet.associativity s ≤ Z.of_nat (length (CacheSet.blocks s)) →
     mems st !! Cache.memory c = Some mem →
     memory_ok mem →
     Memory.size mem ≤ 2 ^ Cache.address_bit c →
     ∃ victim b rest st',
       CacheSet.blocks s = (victim, b) :: rest
       ∧ (∀ tag' b', (tag', b') ∈ rest →
                     CacheBlock.load_time b < CacheBlock.load_time b')
       ∧ CacheSet.add_block block (s, st)
         = ((CacheSet.set_blocks
               (OrderedDict.setitem rest (CacheBlock.tag block) block) s,
             st'), Ok tt))
  ∧ (∀ c st address memory tag index offset s c' st' v,
       reachable (c, st) →
       Cache.address_split c address = Ok (tag, index, offset) →
       Cache.sets c !! Z.to_nat index = Some s →
       is_hit s tag = false →
       Cache.read address memory (c, st) = ((c', st'), Ok v) →
       ∃ s' b',
         Cache.sets c' !! Z.to_nat index = Some s'
         ∧ CacheSet.find_block s' tag = Some b'
         ∧ CacheBlock.load_time b' = Cache.time c)
  ∧ (∀ w w' i s s' tag b b',
       reachable w →
       step w w' →
       Cache.sets w.1 !! i = Some s →
       Cache.sets w'.1 !! i = Some s' →
       CacheSet.find_block s tag = Some b →
       CacheSet.find_block s' tag = Some b' →
       CacheBlock.load_time b' = CacheBlock.load_time b)
  ∧ (∀ cache_size block_size (k : nat) address_bit cache_memory c0 st
       memory mem index ops,
       Cache.init cache_size block_size (Z.of_nat k) "FIFO" address_bit
         cache_memory = Ok c0 →
       block_size * Z.of_nat k ≤ cache_size →
       mems st !! memory = Some mem →
       memory_ok mem →
       2 ^ address_bit ≤ Memory.size mem →
       aimed_at c0 index ops →
       NoDup (read_tags c0 ops) →
       Forall (λ t, t ∉ read_tags c0 ops) (write_tags c0 ops) →
       length (read_tags c0 ops) = S k →
       ∃ w s,
         run_ops memory ops (c0, st) = (w, Ok tt)
         ∧ Cache.sets w.1 !! Z.to_nat index = Some s
         ∧ OrderedDict.keys (CacheSet.blocks s) = tail (read_tags c0 ops)).
Proof.
  split; [|split; [|split]].
  - intros c st i s block mem Hr Hp Hs Hfull Hm Hmok Hsz.
    apply reachable_ok in Hr. simpl in Hr.
    destruct (add_block_evicts c st i s block mem Hr (or_introl Hp) Hs Hfull
                Hm Hmok Hsz)
      as (pre & victim & b & post & st' & Hd & Hpre & _ & Hadd).
    rewrite Hp in Hpre. change (policy_stamp "FIFO")
      with CacheBlock.load_time in *.
    pose proof (so_sorted _ _ _ (co_sets _ Hr _ _ Hs)) as Hsorted.
    rewrite Hd in Hsorted.
    destruct pre as [|x pre].
    + exists victim, b, post, st'. split; [done|]. split; [|done].
      simpl in Hsorted. apply StronglySorted_cons in Hsorted as [Hall _].
      intros tag' b' Hin. by eapply Forall_forall in Hall; [|exact Hin].
    + exfalso. apply Forall_cons in Hpre as [Hx _].
      simpl in Hsorted. apply StronglySorted_cons in Hsorted as [Hall _].
      eapply Forall_forall in Hall;
        [|apply elem_of_app; right; apply list_elem_of_here].
      unfold filled_before in Hall. simpl in *. lia.
  - intros c st address memory tag index offset s c' st' v Hr Hsp Hs Hh
      Hread.
    apply reachable_ok in Hr. simpl in Hr.
    destruct (read_miss_stamps _ _ _ _ _ _ _ _ _ _ _ Hr Hsp Hs Hh Hread)
      as (s' & b' & H1 & H2 & H3 & _).
    by exists s', b'.
  - intros w w' i s s' tag b b' Hr Hstep Hs Hs' Hb Hb'.
    apply reachable_ok in Hr.
    destruct Hstep as [a m [c st] [c' st'] r H|a v m [c st] [c' st'] r H];
      simpl in *.
    + eapply read_keeps_load_time; eauto.
    + eapply write_keeps_load_time; eauto.
  - intros. eapply fifo_scenario; eauto.
Qed.

Lemma demo_fifo_reachable : reachable demo_fifo_world.
Proof.
  eapply (run_ops_reachable 0%nat [Read 0; Read 4]
            (demo_fifo_cache, demo_store) demo_fifo_world (Ok tt)).
  - eapply reachable_init.
    exact (eq_refl : Cache.init 8 2 2 "FIFO" 4 0%nat = Ok demo_fifo_cache).
  - reflexivity.
Defined.

Lemma demo_step : step demo_world demo_next.
Proof.
  eapply (step_read 5 0%nat demo_world demo_next (Ok (PyInt 0))).
  reflexivity.
Defined.

Lemma fifo_evicts_first_inserted_witness :
  (∃ victim b rest st',
     CacheSet.blocks demo_fifo_set = (victim, b) :: rest
     ∧ (∀ tag' b', (tag', b') ∈ rest →
                   CacheBlock.load_time b < CacheBlock.load_time b')
     ∧ CacheSet.add_block (tie_block 2) (demo_fifo_set, demo_fifo_world.2)
       = ((CacheSet.set_blocks
             (OrderedDict.setitem rest (CacheBlock.tag (tie_block 2))
                (tie_block 2)) demo_fifo_set, st'), Ok tt))
  ∧ (∃ s' b',
       Cache.sets demo_fifo_first.1 !! Z.to_nat 0 = Some s'
       ∧ CacheSet.find_block s' 0 = Some b'
       ∧ CacheBlock.load_time b' = Cache.time demo_fifo_cache)
  ∧ CacheBlock.load_time
      (CacheBlock.mk 1 true false 2 [PyInt 0; PyInt 0] 4 1 5)
    = CacheBlock.load_time
        (CacheBlock.mk 1 true false 2 [PyInt 0; PyInt 0] 4 1 4)
  ∧ (∃ w s,
       run_ops 0%nat [Read 0; Write 13 (PyInt 9); Read 4; Read 8]
         (demo_fifo_cache, demo_store) = (w, Ok tt)
       ∧ Cache.sets w.1 !! Z.to_nat 0 = Some s
       ∧ OrderedDict.keys (CacheSet.blocks s)
         = tail (read_tags demo_fifo_cache
                   [Read 0; Write 13 (PyInt 9); Read 4; Read 8])).
Proof.
  destruct fifo_evicts_first_inserted as (H1 & H2 & H3 & H4).
  split; [|split; [|split]].
  - apply (H1 demo_fifo_world.1 demo_fifo_world.2 0%nat demo_fifo_set
             (tie_block 2)
             (Memory.mk 16 (replicate 16 PyNone) 4)).
    + exact demo_fifo_reachable.
    + reflexivity.
    + reflexivity.
    + by vm_compute.
    + reflexivity.
    + split; [by vm_compute|reflexivity].
    + by vm_compute.
  - apply (H2 demo_fifo_cache demo_store 0 0%nat 0 0 0
             (CacheSet.init 2 "FIFO" 0%nat) demo_fifo_first.1
             demo_fifo_first.2 (PyInt 0)).
    + eapply reachable_init.
      exact (eq_refl : Cache.init 8 2 2 "FIFO" 4 0%nat = Ok demo_fifo_cache).
    + reflexivity.
    + reflexivity.
    + reflexivity.
    + reflexivity.
  - apply (H3 demo_world demo_next 0%nat demo_set demo_next_set 1).
    + exact demo_world_reachable.
    + exact demo_step.
    + reflexivity.
    + reflexivity.
    + reflexivity.
    + reflexivity.
  - apply (H4 8 2 2%nat 4 0%nat demo_fifo_cache demo_store 0%nat
             (Memory.init 16) 0).
    + reflexivity.
    + by vm_compute.
    + reflexivity.
    + exact demo_store_ok.
    + by vm_compute.
    + unfold aimed_at. repeat (apply Forall_cons_2; [by vm_compute|]).
      apply Forall_nil_2.
    + change (NoDup [0; 1; 2]).
      repeat (apply NoDup_cons; split;
        [rewrite ?not_elem_of_cons; repeat split;
           try discriminate; apply not_elem_of_nil|]).
      apply NoDup_nil_2.
    + change (Forall (λ t, t ∉ [0; 1; 2]) [3]).
      apply Forall_cons_2; [|apply Forall_nil_2].
      rewrite !not_elem_of_cons. repeat split; try discriminate.
      apply not_elem_of_nil.
    + reflexivity.
Defined.

Example fifo_scenario_runs :
  let res := run_ops 0%nat [Read 0; Write 13 (PyInt 9); Read 4; Read 8]
               (demo_fifo_cache, demo_store) in
  res.2 = Ok tt
  ∧ (λ s, OrderedDict.keys (CacheSet.blocks s)) <$> Cache.sets res.1.1
    = [[1; 2]; []]
  ∧ Cache.hit_count res.1.1 = 0.
Proof. by vm_compute. Qed.

(** ** The default configuration of [main()]

    1024 words in blocks of 64, two ways, LRU, over 2^10 addresses. *)

Example default_configuration :
  ∃ c, Cache.init 1024 64 2 "LRU" 10 0%nat = Ok c
       ∧ Cache.set_count c = 8 ∧ length (Cache.sets c) = 8%nat.
Proof. eexists. split; [reflexivity|]. by vm_compute. Qed.

(** A miss, then a hit on the same address, which returns the same word;
    address 512 goes to set 0 too, under another tag, and both blocks fit. *)
Example default_read_twice :
  match Cache.init 1024 64 2 "LRU" 10 0%nat with
  | Raise _ => False
  | Ok c =>
      let w0 := (c, mkStore [Memory.init 1024] []) in
      let r1 := Cache.read 0 0%nat w0 in
      let r2 := Cache.read 512 0%nat r1.1 in
      let r3 := Cache.read 0 0%nat r2.1 in
      r1.2 = Ok (PyInt 0) ∧ r3.2 = r1.2
      ∧ Cache.hit_count r1.1.1 = 0
      ∧ Cache.hit_count r2.1.1 = 0
      ∧ Cache.hit_count r3.1.1 = 1
      ∧ (λ s, OrderedDict.keys (CacheSet.blocks s)) <$> Cache.sets r3.1.1
        = [[0; 1]; []; []; []; []; []; []; []]
  end.
Proof. by vm_compute. Qed.

(** * Further properties *)

(** ** Memory on its own *)

Lemma memory_read_raise address mem :
  address < 0 ∨ Memory.size mem ≤ address →
  Memory.read address mem = (mem, Raise (ValueError "Address out of range")).
Proof.
  intros H. unfold Memory.read. simpl_m.
  destruct (Z.ltb_spec address 0); simpl; [done|].
  destruct (Z.geb_spec address (Memory.size mem)); [done|lia].
Qed.

Lemma memory_write_raise address v mem :
  address < 0 ∨ Memory.size mem ≤ address →
  Memory.write address v mem
  = (mem, Raise (ValueError "Address out of range")).
Proof.
  intros H. unfold Memory.write. simpl_m.
  destruct (Z.ltb_spec address 0); simpl; [done|].
  destruct (Z.geb_spec address (Memory.size mem)); [done|lia].
Qed.

Lemma memory_write_result address v mem :
  memory_ok mem →
  (Memory.write address v mem).2
  = if decide (0 ≤ address < Memory.size mem) then Ok tt
    else Raise (ValueError "Address out of range").
Proof.
  intros Hm. destruct (decide _) as [Hr|Hr].
  - by rewrite memory_write_ok.
  - rewrite memory_write_raise; [done|lia].
Qed.

(** X1. A [Memory.write] followed by a [Memory.read] of the same address
    returns the value written (0 for [None]); the two calls are counted
    and no other cell changes. *)
Theorem memory_write_read_round_trip
    (mem : Memory.t) (address : Z) (v : pyval) :
  memory_ok mem →
  0 ≤ address < Memory.size mem →
  ∃ mem1 mem2,
    Memory.write address v mem = (mem1, Ok tt)
    ∧ Memory.read address mem1 = (mem2, Ok (cell_value v))
    ∧ Memory.access_count mem2 = Memory.access_count mem + 2
    ∧ memory_ok mem2
    ∧ ∀ a, 0 ≤ a → a ≠ address →
        Memory.data mem2 !! Z.to_nat a = Memory.data mem !! Z.to_nat a.
Proof.
  intros Hm Ha.
  pose proof (memory_write_ok address v mem Hm Ha) as Hw.
  set (mem1 := Memory.mk (Memory.size mem)
                 (<[Z.to_nat address := v]> (Memory.data mem))
                 (Memory.access_count mem + 1)) in *.
  assert (Hm1 : memory_ok mem1).
  { destruct Hm as [H0 Hl]. split; [done|]. simpl.
    by rewrite length_insert. }
  destruct (memory_read_ok address mem1 Hm1 Ha) as (v' & Hv' & Hr).
  simpl in Hv'. rewrite list_lookup_insert_eq in Hv'.
  2: { destruct Hm as [H0 Hl]. rewrite Hl. lia. }
  injection Hv' as <-.
  eexists mem1, _. split_and!; [done|done| |by destruct Hm1|].
  - simpl. lia.
  - intros a H0 Hne. simpl. apply list_lookup_insert_ne. lia.
Qed.

Lemma memory_write_read_round_trip_witness :
  ∃ mem1 mem2,
    Memory.write 9 (PyInt 3) (Memory.init 16) = (mem1, Ok tt)
    ∧ Memory.read 9 mem1 = (mem2, Ok (cell_value (PyInt 3)))
    ∧ Memory.access_count mem2 = Memory.access_count (Memory.init 16) + 2
    ∧ memory_ok mem2
    ∧ ∀ a, 0 ≤ a → a ≠ 9 →
        Memory.data mem2 !! Z.to_nat a
        = Memory.data (Memory.init 16) !! Z.to_nat a.
Proof.
  apply (memory_write_read_round_trip (Memory.init 16) 9 (PyInt 3)).
  - apply demo_store_ok.
  - simpl. lia.
Defined.

(** X2. [Memory.read] and [Memory.write] raise exactly for an address
    below 0 or not below [size]; a call that raises changes nothing, not
    even [access_count]. *)
Theorem memory_rejects_out_of_range
    (mem : Memory.t) (address : Z) (v : pyval) :
  memory_ok mem →
  (address < 0 ∨ Memory.size mem ≤ address →
   Memory.read address mem
   = (mem, Raise (ValueError "Address out of range"))
   ∧ Memory.write address v mem
     = (mem, Raise (ValueError "Address out of range")))
  ∧ (0 ≤ address < Memory.size mem →
     (∃ w, (Memory.read address mem).2 = Ok w)
     ∧ (Memory.write address v mem).2 = Ok tt).
Proof.
  intros Hm. split.
  - intros H. split.
    + by apply memory_read_raise.
    + by apply memory_write_raise.
  - intros H. split.
    + destruct (memory_read_ok address mem Hm H) as (w & _ & ->).
      by eexists.
    + by rewrite memory_write_ok.
Qed.

Lemma memory_rejects_out_of_range_witness :
  (-1 < 0 ∨ Memory.size (Memory.init 16) ≤ -1 →
   Memory.read (-1) (Memory.init 16)
   = (Memory.init 16, Raise (ValueError "Address out of range"))
   ∧ Memory.write (-1) (PyInt 7) (Memory.init 16)
     = (Memory.init 16, Raise (ValueError "Address out of range")))
  ∧ (0 ≤ -1 < Memory.size (Memory.init 16) →
     (∃ w, (Memory.read (-1) (Memory.init 16)).2 = Ok w)
     ∧ (Memory.write (-1) (PyInt 7) (Memory.init 16)).2 = Ok tt).
Proof.
  apply (memory_rejects_out_of_range (Memory.init 16) (-1) (PyInt 7)).
  apply demo_store_ok.
Defined.

(** X3. A cell of a new [Memory] reads as 0, not as [None]; the read is
    counted and leaves the cells as they are. *)
Theorem fresh_memory_reads_zero (size address : Z) :
  0 ≤ address < size →
  Memory.read address (Memory.init size)
  = (Memory.set_access_count 1 (Memory.init size), Ok (PyInt 0)).
Proof.
  intros Ha.
  destruct (memory_read_ok address (Memory.init size)) as (v & Hv & ->).
  - apply memory_init_ok. lia.
  - simpl. lia.
  - simpl in Hv. apply lookup_replicate in Hv as [-> _]. reflexivity.
Qed.

Lemma fresh_memory_reads_zero_witness :
  Memory.read 5 (Memory.init 16)
  = (Memory.set_access_count 1 (Memory.init 16), Ok (PyInt 0)).
Proof. apply (fresh_memory_reads_zero 16 5). lia. Defined.

Lemma memory_read_data address mem :
  Memory.data (Memory.read address mem).1 = Memory.data mem
  ∧ Memory.size (Memory.read address mem).1 = Memory.size mem.
Proof.
  unfold Memory.read. simpl_m.
  destruct (_ || _); [done|].
  destruct (list_getitem _ _) as [[|z]|]; done.
Qed.

Lemma memory_write_size address v mem :
  Memory.size (Memory.write address v mem).1 = Memory.size mem
  ∧ length (Memory.data (Memory.write address v mem).1)
    = length (Memory.data mem).
Proof.
  unfold Memory.write. simpl_m.
  destruct (_ || _); [done|].
  destruct (list_setitem _ _ _) as [l|] eqn:Hl; [|done].
  simpl. split; [done|]. by apply list_setitem_length in Hl.
Qed.

(** X4. Whatever their outcome, [Memory.read] and [Memory.write] keep
    [size] and the number of cells, and [Memory.read] leaves every cell
    as it is. *)
Theorem memory_keeps_its_cells (mem : Memory.t) (address : Z) (v : pyval) :
  Memory.data (Memory.read address mem).1 = Memory.data mem
  ∧ Memory.size (Memory.read address mem).1 = Memory.size mem
  ∧ Memory.size (Memory.write address v mem).1 = Memory.size mem
  ∧ length (Memory.data (Memory.write address v mem).1)
    = length (Memory.data mem).
Proof.
  destruct (memory_read_data address mem).
  destruct (memory_write_size address v mem). done.
Qed.

(** ** A set on its own *)

Lemma length_delitem {V} (d : OrderedDict.t V) k v :
  OrderedDict.getitem d k = Some v →
  S (length (OrderedDict.delitem d k)) = length d.
Proof.
  induction d as [|[k' v'] d IH]; simpl; [done|].
  destruct (Z.eqb_spec k k'); [done|].
  intros H. simpl. f_equal. by apply IH.
Qed.

Lemma length_setitem_le {V} (d : OrderedDict.t V) k v :
  (length (OrderedDict.setitem d k v) ≤ S (length d))%nat.
Proof.
  induction d as [|[k' v'] d IH]; simpl; [lia|].
  destruct (Z.eqb_spec k k'); simpl; lia.
Qed.

Lemma key_getitem {V} (d : OrderedDict.t V) k :
  k ∈ OrderedDict.keys d → is_Some (OrderedDict.getitem d k).
Proof.
  intros Hk. destruct (OrderedDict.getitem d k) eqn:Hg; [by eexists|].
  by apply getitem_None_keys in Hg.
Qed.

(** The victim is an occupant, under each of the three policies and
    whatever [random.choice] draws. *)
Lemma choose_victim_occupant s st :
  CacheSet.policy s ∈ ["FIFO"; "LRU"; "RANDOM"] →
  CacheSet.blocks s ≠ [] →
  ∃ st1 victim b,
    CacheSet.choose_victim (s, st) = ((s, st1), Ok (Some victim))
    ∧ OrderedDict.getitem (CacheSet.blocks s) victim = Some b
    ∧ mems st1 = mems st
    ∧ (CacheSet.policy s = "FIFO" ∨ CacheSet.policy s = "LRU" →
       (CacheSet.scan (policy_stamp (CacheSet.policy s)) (CacheSet.blocks s)).2
       = Some victim).
Proof.
  intros Hp Hne.
  apply elem_of_cons in Hp as [Hp | Hp];
    [|apply elem_of_cons in Hp as [Hp | Hp];
      [|apply list_elem_of_singleton in Hp]].
  - destruct (scan_returns_key CacheBlock.load_time _ Hne) as (t & Ht & Hk).
    destruct (key_getitem _ _ Hk) as [b Hb].
    exists st, t, b. split_and!; [|done|done|by rewrite Hp].
    rewrite choose_victim_fifo by done. by rewrite Ht.
  - destruct (scan_returns_key CacheBlock.last_time _ Hne) as (t & Ht & Hk).
    destruct (key_getitem _ _ Hk) as [b Hb].
    exists st, t, b. split_and!; [|done|done|by rewrite Hp].
    rewrite choose_victim_lru by done. by rewrite Ht.
  - unfold CacheSet.choose_victim. simpl_m. rewrite Hp. simpl.
    assert (Hlen : (0 < length (OrderedDict.keys (CacheSet.blocks s)))%nat).
    { unfold OrderedDict.keys. rewrite length_fmap.
      destruct (CacheSet.blocks s); [done|simpl; lia]. }
    unfold random_choice.
    destruct (rand st) as [|r rs] eqn:Hr; simpl.
    + destruct (lookup_lt_is_Some_2 _ 0%nat Hlen) as [t Ht].
      destruct (key_getitem (CacheSet.blocks s) t) as [b Hb].
      { by eapply list_elem_of_lookup_2. }
      exists st, t, b. rewrite Ht.
      split_and!; [by destruct st|done|done|].
      intros [E|E]; rewrite ?Hp in E; discriminate.
    + assert (Hi : (r `mod` length (OrderedDict.keys (CacheSet.blocks s))
                    < length (OrderedDict.keys (CacheSet.blocks s)))%nat).
      { apply Nat.mod_upper_bound. lia. }
      destruct (lookup_lt_is_Some_2 _ _ Hi) as [t Ht].
      destruct (key_getitem (CacheSet.blocks s) t) as [b Hb].
      { by eapply list_elem_of_lookup_2. }
      exists (mkStore (mems st) rs), t, b. rewrite Ht.
      split_and!; [done|done|done|].
      intros [E|E]; rewrite ?Hp in E; discriminate.
Qed.

(** [evict_block] on a set with a block, under one of the three
    policies: an occupant is flushed, then deleted. *)
Lemma evict_block_valid s st :
  CacheSet.policy s ∈ ["FIFO"; "LRU"; "RANDOM"] →
  CacheSet.blocks s ≠ [] →
  ∃ st1 victim b,
    OrderedDict.getitem (CacheSet.blocks s) victim = Some b
    ∧ mems st1 = mems st
    ∧ (CacheSet.policy s = "FIFO" ∨ CacheSet.policy s = "LRU" →
       (CacheSet.scan (policy_stamp (CacheSet.policy s)) (CacheSet.blocks s)).2
       = Some victim)
    ∧ CacheSet.evict_block (s, st)
      = match flush (CacheSet.memory s) b st1 with
        | (st2, Raise e) => ((s, st2), Raise e)
        | (st2, Ok _) =>
            ((CacheSet.set_blocks
                (OrderedDict.delitem (CacheSet.blocks s) victim) s, st2),
             Ok tt)
        end.
Proof.
  intros Hp Hne.
  destruct (choose_victim_occupant s st Hp Hne)
    as (st1 & t & b & Hc & Hb & Hm & Hleast).
  exists st1, t, b. split_and!; [done|done|done|].
  rewrite evict_block_eq. unfold evict_outcome.
  destruct (CacheSet.blocks s) eqn:Hd; [done|]. rewrite <- Hd in *.
  rewrite Hc, Hb. by destruct (flush _ _ _) as [st2 [[]|e]].
Qed.

(** [add_block] under one of the three policies. *)
Lemma add_block_valid block s st :
  CacheSet.policy s ∈ ["FIFO"; "LRU"; "RANDOM"] →
  0 < CacheSet.associativity s →
  (Z.of_nat (length (CacheSet.blocks s)) < CacheSet.associativity s
   ∧ CacheSet.add_block block (s, st)
     = ((CacheSet.set_blocks
           (OrderedDict.setitem (CacheSet.blocks s) (CacheBlock.tag block)
              block) s, st), Ok tt))
  ∨ (CacheSet.associativity s ≤ Z.of_nat (length (CacheSet.blocks s))
     ∧ ∃ st1 victim b,
         OrderedDict.getitem (CacheSet.blocks s) victim = Some b
         ∧ mems st1 = mems st
         ∧ (CacheSet.policy s = "FIFO" ∨ CacheSet.policy s = "LRU" →
            (CacheSet.scan (policy_stamp (CacheSet.policy s))
               (CacheSet.blocks s)).2 = Some victim)
         ∧ CacheSet.add_block block (s, st)
           = match flush (CacheSet.memory s) b st1 with
             | (st2, Raise e) => ((s, st2), Raise e)
             | (st2, Ok _) =>
                 ((CacheSet.set_blocks
                     (OrderedDict.setitem
                        (OrderedDict.delitem (CacheSet.blocks s) victim)
                        (CacheBlock.tag block) block) s, st2), Ok tt)
             end).
Proof.
  intros Hp Ha. rewrite add_block_eq. unfold add_outcome.
  destruct (Z.geb_spec (Z.of_nat (length (CacheSet.blocks s)))
              (CacheSet.associativity s)) as [Hfull|Hroom].
  - right. split; [lia|].
    assert (Hne : CacheSet.blocks s ≠ []).
    { intros E. rewrite E in Hfull. simpl in Hfull. lia. }
    destruct (evict_block_valid s st Hp Hne)
      as (st1 & t & b & Hb & Hm & Hleast & ->).
    exists st1, t, b. split_and!; [done|done|done|].
    by destruct (flush _ _ _) as [st2 [[]|e]].
  - left. split; [lia|done].
Qed.

(** X5. When [add_block] returns, [find_block] finds the block under its
    tag, and every other block that [find_block] finds was in the set
    before. *)
Theorem add_block_then_find_block
    (block : CacheBlock.t) (s s' : CacheSet.t) (st st' : Store) :
  CacheSet.add_block block (s, st) = ((s', st'), Ok tt) →
  CacheSet.find_block s' (CacheBlock.tag block) = Some block
  ∧ ∀ tag b, tag ≠ CacheBlock.tag block →
      CacheSet.find_block s' tag = Some b → (tag, b) ∈ CacheSet.blocks s.
Proof.
  intros H.
  destruct (add_block_set _ _ _ _ _ _ H) as (_ & _ & _ & [[Hr _]|[_ Hd]]);
    [done|].
  destruct Hd as (d & Hd & Hs'). unfold CacheSet.find_block. rewrite Hs'.
  split; [apply getitem_setitem_eq|].
  intros tag b Hne Hb. rewrite getitem_setitem_ne in Hb by done.
  apply getitem_Some_elem in Hb.
  destruct Hd as [-> | [victim ->]]; [done|].
  by eapply elem_of_delitem.
Qed.

Lemma add_block_then_find_block_witness :
  CacheSet.find_block tie_set_added (CacheBlock.tag (tie_block 2))
  = Some (tie_block 2)
  ∧ ∀ tag b, tag ≠ CacheBlock.tag (tie_block 2) →
      CacheSet.find_block tie_set_added tag = Some b →
      (tag, b) ∈ CacheSet.blocks tie_set.
Proof.
  apply (add_block_then_find_block (tie_block 2) tie_set tie_set_added
           demo_store demo_store).
  reflexivity.
Defined.

Lemma choose_victim_unknown s st :
  CacheSet.policy s ∉ ["FIFO"; "LRU"; "RANDOM"] →
  CacheSet.choose_victim (s, st) = ((s, st), Ok None).
Proof.
  intros Hp. unfold CacheSet.choose_victim. simpl_m.
  destruct (String.eqb_spec (CacheSet.policy s) "RANDOM") as [E|_].
  { exfalso. apply Hp. rewrite E. rewrite !elem_of_cons. auto. }
  destruct (String.eqb_spec (CacheSet.policy s) "FIFO") as [E|_].
  { exfalso. apply Hp. rewrite E. rewrite !elem_of_cons. auto. }
  destruct (String.eqb_spec (CacheSet.policy s) "LRU") as [E|_].
  { exfalso. apply Hp. rewrite E. rewrite !elem_of_cons. auto. }
  done.
Qed.

(** X6. A [CacheSet] whose policy is none of FIFO, LRU and RANDOM never
    evicts: [evict_block] does nothing and [add_block] stores the block
    even in a full set. *)
Theorem unknown_policy_never_evicts
    (block : CacheBlock.t) (s : CacheSet.t) (st : Store) :
  CacheSet.policy s ∉ ["FIFO"; "LRU"; "RANDOM"] →
  CacheSet.evict_block (s, st) = ((s, st), Ok tt)
  ∧ CacheSet.add_block block (s, st)
    = ((CacheSet.set_blocks
          (OrderedDict.setitem (CacheSet.blocks s) (CacheBlock.tag block)
             block) s, st), Ok tt).
Proof.
  intros Hp.
  assert (He : CacheSet.evict_block (s, st) = ((s, st), Ok tt)).
  { rewrite evict_block_eq. unfold evict_outcome.
    destruct (CacheSet.blocks s); [done|].
    by rewrite choose_victim_unknown. }
  split; [done|].
  rewrite add_block_eq. unfold add_outcome. rewrite He.
  by destruct (_ >=? _).
Qed.

Lemma unknown_policy_never_evicts_witness :
  CacheSet.evict_block (mru_set, demo_store) = ((mru_set, demo_store), Ok tt)
  ∧ CacheSet.add_block (tie_block 2) (mru_set, demo_store)
    = ((CacheSet.set_blocks
          (OrderedDict.setitem (CacheSet.blocks mru_set)
             (CacheBlock.tag (tie_block 2)) (tie_block 2)) mru_set,
        demo_store), Ok tt).
Proof.
  apply (unknown_policy_never_evicts (tie_block 2) mru_set demo_store).
  simpl. rewrite !not_elem_of_cons. split_and!; try done.
  apply not_elem_of_nil.
Defined.



(** The draw 7 picks the second of two keys. *)
Example random_evicts_the_drawn_key :
  CacheSet.evict_block (random_set, random_store)
  = ((CacheSet.set_blocks [(5, tie_block 5)] random_set,
      mkStore [Memory.init 16] []), Ok tt).
Proof. reflexivity. Qed.

(** ** What a call leaves alone *)

(** The configuration, the number of sets and the sets that the address
    does not map to stay; the clock moves by one at most; the call is
    counted; the hit counters move together, by one at most. *)
Lemma read_frame address memory c st c' st' r :
  Cache.read address memory (c, st) = ((c', st'), r) →
  same_config c c'
  ∧ length (Cache.sets c') = length (Cache.sets c)
  ∧ (∀ j, j ≠ Z.to_nat (index_of c address) →
          Cache.sets c' !! j = Cache.sets c !! j)
  ∧ Cache.time c ≤ Cache.time c' ≤ Cache.time c + 1
  ∧ (∀ v, r = Ok v → Cache.time c' = Cache.time c + 1)
  ∧ Cache.access_count c' = Cache.access_count c + 1
  ∧ Cache.read_count c' = Cache.read_count c + 1
  ∧ Cache.write_count c' = Cache.write_count c
  ∧ Cache.write_hit_count c' = Cache.write_hit_count c
  ∧ ((Cache.hit_count c' = Cache.hit_count c
      ∧ Cache.read_hit_count c' = Cache.read_hit_count c)
     ∨ (Cache.hit_count c' = Cache.hit_count c + 1
        ∧ Cache.read_hit_count c' = Cache.read_hit_count c + 1)).
Proof.
  intros H.
  destruct (read_cases address memory c st)
    as [(e & Hsplit & E)
       | (tag & index & offset & Hsplit
          & [[Hk E] | (s & Hi & Hs & [(b & Hb & Hv & E) | [Hmiss E]])])];
    rewrite E in H; clear E.
  - injection H as <- <- <-. simpl.
    split_and!; try done; try lia; auto.
  - injection H as <- <- <-. simpl.
    split_and!; try done; try lia; auto.
  - injection H as <- <- <-.
    apply address_split_inv in Hsplit as (_ & _ & _ & _ & Hindex & _).
    unfold read_hit_cache, with_block.
    destruct (String.eqb (Cache.policy c) "LRU"); simpl;
      (split_and!; try done; try lia; auto).
    + by rewrite length_insert.
    + intros j Hj. apply list_lookup_insert_ne.
      unfold index_of in Hj. rewrite <- Hindex in Hj. done.
  - apply address_split_inv in Hsplit as (_ & _ & _ & _ & Hindex & _).
    unfold read_miss_outcome in H.
    destruct (Cache.fetch _ _ _ _ _ st) as [st1 [data|e]].
    2: { injection H as <- <- <-. simpl.
         split_and!; try done; try lia; auto. }
    destruct (CacheSet.add_block _ (s, st1)) as [[s1 st2] [u|e]];
      injection H as <- <- <-; simpl;
      (split_and!; try done; try lia; auto).
    + by rewrite length_insert.
    + intros j Hj. apply list_lookup_insert_ne.
      unfold index_of in Hj. rewrite <- Hindex in Hj. done.
    + by rewrite length_insert.
    + intros j Hj. apply list_lookup_insert_ne.
      unfold index_of in Hj. rewrite <- Hindex in Hj. done.
Qed.

Lemma write_frame address data memory c st c' st' r :
  Cache.write address data memory (c, st) = ((c', st'), r) →
  same_config c c'
  ∧ length (Cache.sets c') = length (Cache.sets c)
  ∧ (∀ j, j ≠ Z.to_nat (index_of c address) →
          Cache.sets c' !! j = Cache.sets c !! j)
  ∧ Cache.time c ≤ Cache.time c' ≤ Cache.time c + 1
  ∧ (r = Ok tt → Cache.time c' = Cache.time c + 1)
  ∧ Cache.access_count c' = Cache.access_count c + 1
  ∧ Cache.write_count c' = Cache.write_count c + 1
  ∧ Cache.read_count c' = Cache.read_count c
  ∧ Cache.read_hit_count c' = Cache.read_hit_count c
  ∧ ((Cache.hit_count c' = Cache.hit_count c
      ∧ Cache.write_hit_count c' = Cache.write_hit_count c)
     ∨ (Cache.hit_count c' = Cache.hit_count c + 1
        ∧ Cache.write_hit_count c' = Cache.write_hit_count c + 1)).
Proof.
  intros H.
  destruct (write_cases address data memory c st)
    as [(e & Hsplit & E)
       | (tag & index & offset & Hsplit
          & [[Hk E] | (s & Hi & Hs & [(b & Hb & Hv & E) | [Hmiss E]])])];
    rewrite E in H; clear E.
  - injection H as <- <- <-. simpl.
    split_and!; try done; try lia; auto.
  - injection H as <- <- <-. simpl.
    split_and!; try done; try lia; auto.
  - apply address_split_inv in Hsplit as (_ & _ & _ & _ & Hindex & _).
    unfold write_hit_outcome, with_block in H.
    destruct (list_setitem _ _ _) as [data1|];
      injection H as <- <- <-; simpl;
      (split_and!; try done; try lia; auto).
    + by rewrite length_insert.
    + intros j Hj. apply list_lookup_insert_ne.
      unfold index_of in Hj. rewrite <- Hindex in Hj. done.
    + by rewrite length_insert.
    + intros j Hj. apply list_lookup_insert_ne.
      unfold index_of in Hj. rewrite <- Hindex in Hj. done.
  - unfold write_miss_outcome in H.
    destruct (at_ref _ _ st) as [st1 r1].
    injection H as <- <- <-. simpl.
    split_and!; try done; try lia; auto.
Qed.

(** ** How a call changes a set *)

Lemma read_set_change address memory c st c' st' r :
  cache_ok c →
  Cache.policy c ∈ ["FIFO"; "LRU"; "RANDOM"] →
  Cache.read address memory (c, st) = ((c', st'), r) →
  ∀ i s, Cache.sets c !! i = Some s →
    ∃ s', Cache.sets c' !! i = Some s'
          ∧ set_change c (tag_of c address)
              (CacheSet.blocks s) (CacheSet.blocks s').
Proof.
  intros Hok Hp H i si Hsi.
  destruct (read_cases address memory c st)
    as [(e & Hsplit & E)
       | (tag & index & offset & Hsplit
          & [[Hk E] | (s & Hi & Hs & [(b & Hb & Hv & E) | [Hmiss E]])])];
    rewrite E in H; clear E.
  - injection H as <- <- <-. exists si. split; [done|by apply set_kept].
  - injection H as <- <- <-. exists si. split; [done|by apply set_kept].
  - injection H as <- <- <-.
    apply address_split_inv in Hsplit as (_ & _ & _ & Htag & _ & _).
    unfold tag_of. rewrite <- Htag.
    unfold read_hit_cache, with_block.
    destruct (String.eqb (Cache.policy c) "LRU"); simpl.
    2: { exists si. split; [done|by apply set_kept]. }
    destruct (decide (i = Z.to_nat index)) as [->|Hne].
    + rewrite list_lookup_insert_eq by by eapply lookup_lt_Some.
      eexists. split; [done|]. simpl.
      assert (si = s) as -> by congruence.
      eapply set_touched; [exact Hb|done|done|by right].
    + rewrite list_lookup_insert_ne by done.
      exists si. split; [done|by apply set_kept].
  - pose proof (co_sets c Hok _ _ Hs) as Hso.
    pose proof (miss_not_key _ _ _ _ Hso Hmiss) as Hnk.
    apply address_split_inv in Hsplit as (_ & _ & _ & Htag & _ & _).
    unfold tag_of. rewrite <- Htag.
    unfold read_miss_outcome in H.
    destruct (Cache.fetch _ _ _ _ _ st) as [st1 [data|e]].
    2: { injection H as <- <- <-. exists si. split; [done|by apply set_kept]. }
    set (new := CacheBlock.mk tag true false (Cache.block_size c) data
                  (address `div` Cache.block_size c * Cache.block_size c)
                  (Cache.time c) (Cache.time c)) in *.
    assert (Hps : CacheSet.policy s ∈ ["FIFO"; "LRU"; "RANDOM"]).
    { by rewrite (so_policy _ _ _ Hso). }
    assert (Has : 0 < CacheSet.associativity s).
    { rewrite (so_associativity _ _ _ Hso). apply Hok. }
    destruct (add_block_valid new s st1 Hps Has)
      as [[Hroom E] | (Hfull & st2 & victim & bv & Hbv & Hm & Hleast & E)];
      rewrite E in H; clear E.
    + injection H as <- <- <-. simpl.
      destruct (decide (i = Z.to_nat index)) as [->|Hne].
      * rewrite list_lookup_insert_eq by by eapply lookup_lt_Some.
        eexists. split; [done|]. simpl.
        assert (si = s) as -> by congruence.
        eapply (set_filled _ _ _ _ new); try done.
        by rewrite <- (so_associativity _ _ _ Hso).
      * rewrite list_lookup_insert_ne by done.
        exists si. split; [done|by apply set_kept].
    + destruct (flush _ _ _) as [st3 [[]|e]]; injection H as <- <- <-; simpl.
      * destruct (decide (i = Z.to_nat index)) as [->|Hne].
        -- rewrite list_lookup_insert_eq by by eapply lookup_lt_Some.
           eexists. split; [done|]. simpl.
           assert (si = s) as -> by congruence.
           eapply (set_replaced _ _ _ _ victim bv new); try done.
           ++ by rewrite <- (so_associativity _ _ _ Hso).
           ++ by rewrite <- (so_policy _ _ _ Hso).
        -- rewrite list_lookup_insert_ne by done.
           exists si. split; [done|by apply set_kept].
      * destruct (decide (i = Z.to_nat index)) as [->|Hne].
        -- rewrite list_lookup_insert_eq by by eapply lookup_lt_Some.
           eexists. split; [done|]. simpl.
           assert (si = s) as -> by congruence. by apply set_kept.
        -- rewrite list_lookup_insert_ne by done.
           exists si. split; [done|by apply set_kept].
Qed.

Lemma write_set_change address data memory c st c' st' r :
  cache_ok c →
  Cache.write address data memory (c, st) = ((c', st'), r) →
  ∀ i s, Cache.sets c !! i = Some s →
    ∃ s', Cache.sets c' !! i = Some s'
          ∧ set_change c (tag_of c address)
              (CacheSet.blocks s) (CacheSet.blocks s').
Proof.
  intros Hok H i si Hsi.
  destruct (write_cases address data memory c st)
    as [(e & Hsplit & E)
       | (tag & index & offset & Hsplit
          & [[Hk E] | (s & Hi & Hs & [(b & Hb & Hv & E) | [Hmiss E]])])];
    rewrite E in H; clear E.
  - injection H as <- <- <-. exists si. split; [done|by apply set_kept].
  - injection H as <- <- <-. exists si. split; [done|by apply set_kept].
  - apply address_split_inv in Hsplit as (_ & _ & _ & Htag & _ & _).
    unfold tag_of. rewrite <- Htag.
    unfold write_hit_outcome, with_block in H.
    destruct (list_setitem _ _ _) as [data1|];
      injection H as <- <- <-; simpl.
    + destruct (decide (i = Z.to_nat index)) as [->|Hne].
      * rewrite list_lookup_insert_eq by by eapply lookup_lt_Some.
        eexists. split; [done|]. simpl.
        assert (si = s) as -> by congruence.
        eapply set_touched; [exact Hb|done| |].
        -- unfold touched. by destruct (String.eqb _ _).
        -- unfold touched. destruct (String.eqb _ _); simpl; auto.
      * rewrite list_lookup_insert_ne by done.
        exists si. split; [done|by apply set_kept].
    + destruct (decide (i = Z.to_nat index)) as [->|Hne].
      * rewrite list_lookup_insert_eq by by eapply lookup_lt_Some.
        eexists. split; [done|]. simpl.
        assert (si = s) as -> by congruence.
        eapply set_touched; [exact Hb|done|done|by left].
      * rewrite list_lookup_insert_ne by done.
        exists si. split; [done|by apply set_kept].
  - unfold write_miss_outcome in H.
    destruct (at_ref _ _ st) as [st1 r1].
    injection H as <- <- <-. simpl.
    exists si. split; [done|by apply set_kept].
Qed.

Lemma getitem_key {V} (d : OrderedDict.t V) k v :
  OrderedDict.getitem d k = Some v → k ∈ OrderedDict.keys d.
Proof.
  intros H. apply getitem_Some_elem in H.
  unfold OrderedDict.keys. apply list_elem_of_fmap. by exists (k, v).
Qed.

Lemma set_change_length c tag d d' :
  set_change c tag d d' →
  Z.of_nat (length d) ≤ Cache.associativity c →
  Z.of_nat (length d') ≤ Cache.associativity c.
Proof.
  intros [-> | b b' Hb -> _ _ | block Hk Hroom -> _ _
          | victim b block Hk Hfull Hb _ -> _ _] Hd.
  - done.
  - rewrite length_setitem_present; [done|by eapply getitem_key].
  - pose proof (length_setitem_le d tag block). lia.
  - pose proof (length_setitem_le (OrderedDict.delitem d victim) tag block).
    pose proof (length_delitem d victim b Hb). lia.
Qed.

(** ** The configuration of a running cache *)

Lemma step_frame w w' :
  step w w' →
  same_config w.1 w'.1
  ∧ length (Cache.sets w'.1) = length (Cache.sets w.1)
  ∧ Cache.time w.1 ≤ Cache.time w'.1.
Proof.
  intros [address memory [c st] [c' st'] r H
         | address data memory [c st] [c' st'] r H]; simpl.
  - apply read_frame in H as (? & ? & _ & ? & _). split_and!; [done|done|lia].
  - apply write_frame in H as (? & ? & _ & ? & _). split_and!; [done|done|lia].
Qed.

Lemma reachable_policy w :
  reachable w → Cache.policy w.1 ∈ ["FIFO"; "LRU"; "RANDOM"].
Proof.
  induction 1 as [cs bs a p ab m c st Hinit | w w' Hw IH Hstep].
  - apply init_inv in Hinit as (_ & _ & Hp & ->). done.
  - apply step_frame in Hstep as (Hc & _). by rewrite (sc_policy _ _ Hc).
Qed.

Lemma step_set_change w w' :
  cache_ok w.1 →
  Cache.policy w.1 ∈ ["FIFO"; "LRU"; "RANDOM"] →
  step w w' →
  ∃ tag, ∀ i s, Cache.sets w.1 !! i = Some s →
    ∃ s', Cache.sets w'.1 !! i = Some s'
          ∧ set_change w.1 tag (CacheSet.blocks s) (CacheSet.blocks s').
Proof.
  intros Hok Hp Hstep. revert Hok Hp.
  destruct Hstep as [address memory [c st] [c' st'] r H
                    | address data memory [c st] [c' st'] r H];
    simpl; intros Hok Hp.
  - exists (tag_of c address).
    exact (read_set_change _ _ _ _ _ _ _ Hok Hp H).
  - exists (tag_of c address).
    exact (write_set_change _ _ _ _ _ _ _ _ Hok H).
Qed.

(** A set of the world after a step comes from the set in its place. *)
Lemma step_set_before w w' i s' :
  cache_ok w.1 →
  Cache.policy w.1 ∈ ["FIFO"; "LRU"; "RANDOM"] →
  step w w' →
  Cache.sets w'.1 !! i = Some s' →
  ∃ tag s, Cache.sets w.1 !! i = Some s
           ∧ set_change w.1 tag (CacheSet.blocks s) (CacheSet.blocks s').
Proof.
  intros Hok Hp Hstep Hs'.
  destruct (step_frame _ _ Hstep) as (_ & Hlen & _).
  destruct (step_set_change _ _ Hok Hp Hstep) as [tag Hch].
  destruct (lookup_lt_is_Some_2 (Cache.sets w.1) i) as [s Hs].
  { rewrite <- Hlen. by eapply lookup_lt_Some. }
  destruct (Hch _ _ Hs) as (s'' & Hs'' & Hc).
  exists tag, s. split; [done|]. congruence.
Qed.

(** X8. In a running cache no set ever holds more blocks than the
    associativity, under each of the three policies and whatever the
    outcomes of the calls and the draws of RANDOM were. *)
Theorem sets_never_overflow (c : Cache.t) (st : Store) (i : nat)
    (s : CacheSet.t) :
  reachable (c, st) →
  Cache.sets c !! i = Some s →
  Z.of_nat (length (CacheSet.blocks s)) ≤ Cache.associativity c.
Proof.
  intros Hr Hs.
  cut (∀ w, reachable w →
         ∀ i s, Cache.sets w.1 !! i = Some s →
                Z.of_nat (length (CacheSet.blocks s))
                ≤ Cache.associativity w.1).
  { intros Hall. exact (Hall (c, st) Hr i s Hs). }
  clear. induction 1 as [cs bs a p ab m c st Hinit | w w' Hw IH Hstep];
    intros i s Hs.
  - pose proof (init_inv _ _ _ _ _ _ _ Hinit) as ((_ & _ & Ha) & _ & _ & ->).
    simpl in *. apply list_lookup_fmap_Some in Hs as (z & -> & _).
    simpl. lia.
  - destruct (step_set_before w w' i s (reachable_ok _ Hw)
                (reachable_policy _ Hw) Hstep Hs) as (tag & s0 & Hs0 & Hch).
    destruct (step_frame _ _ Hstep) as (Hc & _).
    rewrite (sc_associativity _ _ Hc).
    eapply set_change_length; [done|]. by eapply IH.
Qed.

Lemma sets_never_overflow_witness :
  Z.of_nat (length (CacheSet.blocks demo_set))
  ≤ Cache.associativity demo_world.1.
Proof.
  apply (sets_never_overflow demo_world.1 demo_world.2 0%nat demo_set).
  - apply demo_world_reachable.
  - reflexivity.
Defined.

(** ** No two blocks of a set bear the same time *)

Lemma sorted_load_times_differ (d : OrderedDict.t CacheBlock.t) :
  StronglySorted filled_before d →
  ∀ tag1 b1 tag2 b2,
    (tag1, b1) ∈ d → (tag2, b2) ∈ d →
    CacheBlock.load_time b1 = CacheBlock.load_time b2 → tag1 = tag2.
Proof.
  induction d as [|x d IH]; intros Hs tag1 b1 tag2 b2 H1 H2 E.
  { by apply elem_of_nil in H1. }
  apply StronglySorted_cons in Hs as [Hx Hd].
  rewrite Forall_forall in Hx.
  apply elem_of_cons in H1 as [E1 | H1]; apply elem_of_cons in H2 as [E2 | H2].
  - congruence.
  - subst x. specialize (Hx _ H2). unfold filled_before in Hx. simpl in Hx.
    lia.
  - subst x. specialize (Hx _ H1). unfold filled_before in Hx. simpl in Hx.
    lia.
  - by eapply IH.
Qed.

Lemma set_change_last_times c tag d d' :
  set_change c tag d d' →
  (∀ k b, (k, b) ∈ d → CacheBlock.last_time b < Cache.time c) →
  last_times_differ d → last_times_differ d'.
Proof.
  intros [-> | b b' Hb -> _ Hl | block Hk Hroom -> _ Hl
          | victim b block Hk Hfull Hb _ -> _ Hl] Hnow Hd; [done| | |].
  - intros k1 x1 k2 x2 H1 H2 E.
    apply getitem_Some_elem in Hb.
    apply elem_of_setitem in H1 as [H1 | [= -> ->]];
      apply elem_of_setitem in H2 as [H2 | [= -> ->]]; [by eapply Hd| | |done].
    + destruct Hl as [Hl | Hl].
      * rewrite Hl in E. by eapply Hd.
      * specialize (Hnow _ _ H1). lia.
    + destruct Hl as [Hl | Hl].
      * rewrite Hl in E. by eapply Hd.
      * specialize (Hnow _ _ H2). lia.
  - intros k1 x1 k2 x2 H1 H2 E.
    apply elem_of_setitem in H1 as [H1 | [= -> ->]];
      apply elem_of_setitem in H2 as [H2 | [= -> ->]]; [by eapply Hd| | |done].
    + specialize (Hnow _ _ H1). lia.
    + specialize (Hnow _ _ H2). lia.
  - intros k1 x1 k2 x2 H1 H2 E.
    apply elem_of_setitem in H1 as [H1 | [= -> ->]];
      apply elem_of_setitem in H2 as [H2 | [= -> ->]]; [| | |done].
    + apply elem_of_delitem in H1, H2. by eapply Hd.
    + apply elem_of_delitem in H1. specialize (Hnow _ _ H1). lia.
    + apply elem_of_delitem in H2. specialize (Hnow _ _ H2). lia.
Qed.

Lemma reachable_last_times w :
  reachable w →
  ∀ i s, Cache.sets w.1 !! i = Some s →
         last_times_differ (CacheSet.blocks s).
Proof.
  induction 1 as [cs bs a p ab m c st Hinit | w w' Hw IH Hstep];
    intros i s Hs.
  - pose proof (init_inv _ _ _ _ _ _ _ Hinit) as (_ & _ & _ & ->).
    simpl in *. apply list_lookup_fmap_Some in Hs as (z & -> & _).
    intros k1 x1 k2 x2 H1. by apply elem_of_nil in H1.
  - pose proof (reachable_ok _ Hw) as Hok.
    destruct (step_set_before w w' i s Hok (reachable_policy _ Hw) Hstep Hs)
      as (tag & s0 & Hs0 & Hch).
    eapply set_change_last_times; [done| |by eapply IH].
    intros k b Hb.
    apply (bk_times _ _ _ _ (so_blocks _ _ _ (co_sets _ Hok _ _ Hs0) _ _ Hb)).
Qed.

(** X9. In a running cache two blocks of a set under different tags never
    bear the same [load_time] nor the same [last_time]: FIFO and LRU
    never meet a tie between timestamps. *)
Theorem timestamps_never_tie (c : Cache.t) (st : Store) (i : nat)
    (s : CacheSet.t) (tag1 tag2 : Z) (b1 b2 : CacheBlock.t) :
  reachable (c, st) →
  Cache.sets c !! i = Some s →
  CacheSet.find_block s tag1 = Some b1 →
  CacheSet.find_block s tag2 = Some b2 →
  tag1 ≠ tag2 →
  CacheBlock.load_time b1 ≠ CacheBlock.load_time b2
  ∧ CacheBlock.last_time b1 ≠ CacheBlock.last_time b2.
Proof.
  intros Hr Hs H1 H2 Hne.
  apply find_block_elem in H1, H2.
  split; intros E; apply Hne.
  - pose proof (co_sets _ (reachable_ok _ Hr) _ _ Hs) as Hso.
    by eapply (sorted_load_times_differ _ (so_sorted _ _ _ Hso)).
  - by eapply (reachable_last_times _ Hr i s Hs).
Qed.

Lemma timestamps_never_tie_witness :
  CacheBlock.load_time demo_dirty_block
  ≠ CacheBlock.load_time
      (CacheBlock.mk 1 true false 2 [PyInt 0; PyInt 0] 4 1 4)
  ∧ CacheBlock.last_time demo_dirty_block
    ≠ CacheBlock.last_time
        (CacheBlock.mk 1 true false 2 [PyInt 0; PyInt 0] 4 1 4).
Proof.
  apply (timestamps_never_tie demo_world.1 demo_world.2 0%nat demo_set 0 1).
  - apply demo_world_reachable.
  - reflexivity.
  - reflexivity.
  - reflexivity.
  - done.
Defined.

(** ** The blocks of a running cache *)

(** X10. In a running cache whose [address_bit] is not negative, every
    block of the set [i] under the tag [tag] is valid, bears that tag,
    starts at the address
    [(tag * set_count + i) * block_size], which lies in the address
    space, holds a word for each of its addresses in the address space,
    and was loaded and last touched at past times of the clock. *)
Theorem blocks_are_aligned (c : Cache.t) (st : Store) (i : nat)
    (s : CacheSet.t) (tag : Z) (b : CacheBlock.t) :
  reachable (c, st) →
  0 ≤ Cache.address_bit c →
  Cache.sets c !! i = Some s →
  CacheSet.find_block s tag = Some b →
  CacheBlock.tag b = tag
  ∧ CacheBlock.valid b = true
  ∧ CacheBlock.block_size b = Cache.block_size c
  ∧ CacheBlock.base_address b
    = (tag * Cache.set_count c + Z.of_nat i) * Cache.block_size c
  ∧ 0 ≤ CacheBlock.base_address b < 2 ^ Cache.address_bit c
  ∧ Z.of_nat (length (CacheBlock.data b))
    = Z.min (Cache.block_size c)
        (2 ^ Cache.address_bit c - CacheBlock.base_address b)
  ∧ 0 ≤ CacheBlock.load_time b ≤ CacheBlock.last_time b
  ∧ CacheBlock.last_time b < Cache.time c
  ∧ Cache.address_split c (CacheBlock.base_address b)
    = Ok (tag, Z.of_nat i, 0).
Proof.
  intros Hr _ Hs Hb.
  pose proof (reachable_ok _ Hr) as Hok. simpl in Hok.
  pose proof (co_sets _ Hok _ _ Hs) as Hso.
  destruct (so_blocks _ _ _ Hso _ _ (find_block_elem _ _ _ Hb))
    as [H1 H2 H3 H4 H5 H6 [H7 H8]].
  pose proof (co_block_size _ Hok) as Hbs.
  assert (Hi : 0 ≤ Z.of_nat i < Cache.set_count c).
  { apply lookup_lt_Some in Hs. rewrite (co_length _ Hok) in Hs. lia. }
  split_and!; try done; try lia.
  rewrite address_split_ok by lia. rewrite H4.
  set (bs := Cache.block_size c) in *. set (sc := Cache.set_count c) in *.
  assert (E1 : ((tag * sc + Z.of_nat i) * bs) `div` bs = tag * sc + Z.of_nat i).
  { apply Z.div_mul. lia. }
  assert (E2 : ((tag * sc + Z.of_nat i) * bs) `mod` bs = 0).
  { apply Z.mod_mul. lia. }
  rewrite <- (Z.div_div _ bs sc) by lia. rewrite E1, E2.
  rewrite (Z.add_comm (tag * sc)), Z.div_add by lia.
  rewrite Z.mod_add by lia.
  rewrite Z.div_small, Z.mod_small by lia. done.
Qed.

Lemma blocks_are_aligned_witness :
  CacheBlock.tag demo_dirty_block = 0
  ∧ CacheBlock.valid demo_dirty_block = true
  ∧ CacheBlock.block_size demo_dirty_block = Cache.block_size demo_world.1
  ∧ CacheBlock.base_address demo_dirty_block
    = (0 * Cache.set_count demo_world.1 + Z.of_nat 0)
      * Cache.block_size demo_world.1
  ∧ 0 ≤ CacheBlock.base_address demo_dirty_block
    < 2 ^ Cache.address_bit demo_world.1
  ∧ Z.of_nat (length (CacheBlock.data demo_dirty_block))
    = Z.min (Cache.block_size demo_world.1)
        (2 ^ Cache.address_bit demo_world.1
         - CacheBlock.base_address demo_dirty_block)
  ∧ 0 ≤ CacheBlock.load_time demo_dirty_block
    ≤ CacheBlock.last_time demo_dirty_block
  ∧ CacheBlock.last_time demo_dirty_block < Cache.time demo_world.1
  ∧ Cache.address_split demo_world.1
      (CacheBlock.base_address demo_dirty_block)
    = Ok (0, Z.of_nat 0, 0).
Proof.
  apply (blocks_are_aligned demo_world.1 demo_world.2 0%nat demo_set 0
           demo_dirty_block).
  - apply demo_world_reachable.
  - by vm_compute.
  - reflexivity.
  - reflexivity.
Defined.

(** ** The clock, the configuration and the other sets *)

Lemma run_op_read memory address w :
  run_op memory (Read address) w
  = match Cache.read address memory w with
    | (w', Ok _) => (w', Ok tt)
    | (w', Raise e) => (w', Raise e)
    end.
Proof. unfold run_op. simpl_m. by destruct (Cache.read _ _ _) as [? []]. Qed.

(** What [read_frame] and [write_frame] say of a call of either kind. *)
Lemma run_op_frame memory o c st c' st' r :
  run_op memory o (c, st) = ((c', st'), r) →
  same_config c c'
  ∧ length (Cache.sets c') = length (Cache.sets c)
  ∧ (∀ j, j ≠ Z.to_nat (index_of c (op_address o)) →
          Cache.sets c' !! j = Cache.sets c !! j)
  ∧ Cache.time c ≤ Cache.time c' ≤ Cache.time c + 1
  ∧ (r = Ok tt → Cache.time c' = Cache.time c + 1)
  ∧ Cache.access_count c' = Cache.access_count c + 1
  ∧ Cache.read_count c' = Cache.read_count c + count_reads [o]
  ∧ Cache.write_count c' = Cache.write_count c + count_writes [o].
Proof.
  destruct o as [address | address data].
  - rewrite run_op_read. simpl.
    destruct (Cache.read address memory (c, st)) as [[c1 st1] r1] eqn:H.
    apply read_frame in H as (? & ? & ? & ? & Ht & ? & ? & ? & _).
    destruct r1 as [v|e]; intros [= <- <- <-];
      (split_and!; try done; try lia).
    intros _. by eapply Ht.
  - simpl. intros H.
    apply write_frame in H as (? & ? & ? & ? & Ht & ? & ? & ? & _).
    split_and!; try done; lia.
Qed.

(** X11. The clock [time] moves by one at most in a call of [read] or
    [write], never backwards, and by exactly one in a call that
    returns. *)
Theorem clock_ticks_once_per_call (memory : ref) (o : op) (w w' : World)
    (r : result unit) :
  run_op memory o w = (w', r) →
  Cache.time w.1 ≤ Cache.time w'.1 ≤ Cache.time w.1 + 1
  ∧ (r = Ok tt → Cache.time w'.1 = Cache.time w.1 + 1).
Proof.
  destruct w as [c st], w' as [c' st']. intros H.
  apply run_op_frame in H as (_ & _ & _ & ? & ? & _). done.
Qed.

Lemma clock_ticks_once_per_call_witness :
  Cache.time demo_world.1 ≤ Cache.time demo_next.1
  ≤ Cache.time demo_world.1 + 1
  ∧ (Ok tt = Ok tt → Cache.time demo_next.1 = Cache.time demo_world.1 + 1).
Proof.
  apply (clock_ticks_once_per_call 0%nat (Read 5) demo_world demo_next
           (Ok tt)).
  reflexivity.
Defined.

(** X12. A call of [read] or [write], whatever its outcome, changes
    neither a parameter of the cache nor the number of its sets, and it
    leaves every set alone but the one that its address maps to. *)
Theorem calls_keep_the_configuration (memory : ref) (o : op) (w w' : World)
    (r : result unit) :
  run_op memory o w = (w', r) →
  Cache.cache_size w'.1 = Cache.cache_size w.1
  ∧ Cache.block_size w'.1 = Cache.block_size w.1
  ∧ Cache.associativity w'.1 = Cache.associativity w.1
  ∧ Cache.policy w'.1 = Cache.policy w.1
  ∧ Cache.address_bit w'.1 = Cache.address_bit w.1
  ∧ Cache.set_count w'.1 = Cache.set_count w.1
  ∧ Cache.memory w'.1 = Cache.memory w.1
  ∧ length (Cache.sets w'.1) = length (Cache.sets w.1)
  ∧ ∀ j, j ≠ Z.to_nat (index_of w.1 (op_address o)) →
         Cache.sets w'.1 !! j = Cache.sets w.1 !! j.
Proof.
  destruct w as [c st], w' as [c' st']. intros H.
  apply run_op_frame in H as ([] & ? & ? & _). done.
Qed.

Lemma calls_keep_the_configuration_witness :
  Cache.cache_size demo_next.1 = Cache.cache_size demo_world.1
  ∧ Cache.block_size demo_next.1 = Cache.block_size demo_world.1
  ∧ Cache.associativity demo_next.1 = Cache.associativity demo_world.1
  ∧ Cache.policy demo_next.1 = Cache.policy demo_world.1
  ∧ Cache.address_bit demo_next.1 = Cache.address_bit demo_world.1
  ∧ Cache.set_count demo_next.1 = Cache.set_count demo_world.1
  ∧ Cache.memory demo_next.1 = Cache.memory demo_world.1
  ∧ length (Cache.sets demo_next.1) = length (Cache.sets demo_world.1)
  ∧ ∀ j, j ≠ Z.to_nat (index_of demo_world.1 (op_address (Read 5))) →
         Cache.sets demo_next.1 !! j = Cache.sets demo_world.1 !! j.
Proof.
  apply (calls_keep_the_configuration 0%nat (Read 5) demo_world demo_next
           (Ok tt)).
  reflexivity.
Defined.

(** ** Counting over a trace *)

(** X13. A trace that runs to its end has advanced the clock and
    [access_count] by its length, [read_count] by the number of its
    reads and [write_count] by the number of its writes; a trace that
    stops at an exception has advanced the clock and [access_count] by
    its length at most. *)
Theorem trace_counts_calls (memory : ref) (ops : list op) (w w' : World)
    (r : result unit) :
  run_ops memory ops w = (w', r) →
  Cache.time w.1 ≤ Cache.time w'.1 ≤ Cache.time w.1 + Z.of_nat (length ops)
  ∧ Cache.access_count w.1 ≤ Cache.access_count w'.1
    ≤ Cache.access_count w.1 + Z.of_nat (length ops)
  ∧ (r = Ok tt →
     Cache.time w'.1 = Cache.time w.1 + Z.of_nat (length ops)
     ∧ Cache.access_count w'.1
       = Cache.access_count w.1 + Z.of_nat (length ops)
     ∧ Cache.read_count w'.1 = Cache.read_count w.1 + count_reads ops
     ∧ Cache.write_count w'.1 = Cache.write_count w.1 + count_writes ops).
Proof.
  revert w w' r. induction ops as [|o ops IH]; intros w w' r H.
  - injection H as <- <-. simpl. split_and!; lia.
  - rewrite run_ops_cons in H.
    destruct (run_op memory o w) as [[c1 st1] r1] eqn:Ho.
    destruct w as [c st].
    apply run_op_frame in Ho as (_ & _ & _ & Ht & Ht1 & Ha & Hr & Hw).
    simpl in Hr, Hw.
    destruct r1 as [[]|e].
    + apply IH in H as (Ht' & Ha' & Hok). simpl in *.
      specialize (Ht1 eq_refl).
      split_and!; try lia.
      intros ->. destruct (Hok eq_refl) as (? & ? & ? & ?).
      destruct o; simpl; lia.
    + injection H as <- <-. simpl. split_and!; try lia. done.
Qed.

Lemma trace_counts_calls_witness :
  Cache.time demo_cache ≤ Cache.time demo_world.1
  ≤ Cache.time demo_cache + Z.of_nat (length demo_trace)
  ∧ Cache.access_count demo_cache ≤ Cache.access_count demo_world.1
    ≤ Cache.access_count demo_cache + Z.of_nat (length demo_trace)
  ∧ (Ok tt = Ok tt →
     Cache.time demo_world.1
     = Cache.time demo_cache + Z.of_nat (length demo_trace)
     ∧ Cache.access_count demo_world.1
       = Cache.access_count demo_cache + Z.of_nat (length demo_trace)
     ∧ Cache.read_count demo_world.1
       = Cache.read_count demo_cache + count_reads demo_trace
     ∧ Cache.write_count demo_world.1
       = Cache.write_count demo_cache + count_writes demo_trace).
Proof.
  apply (trace_counts_calls 0%nat demo_trace (demo_cache, demo_store)
           demo_world (Ok tt)).
  reflexivity.
Defined.

(** ** Hit rates *)

Lemma reachable_counters w : reachable w → counters_bounded w.1.
Proof.
  induction 1 as [cs bs a p ab m c st Hinit | w w' Hw IH Hstep].
  - apply init_inv in Hinit as (_ & _ & _ & ->). by split.
  - destruct IH as [H1 H2 H3].
    destruct Hstep as [address memory [c st] [c' st'] r H
                      | address data memory [c st] [c' st'] r H];
      simpl in *.
    + apply read_frame in H
        as (_ & _ & _ & _ & _ & Ha & Hr & Hw' & Hwh & Hh).
      split; simpl; lia.
    + apply write_frame in H
        as (_ & _ & _ & _ & _ & Ha & Hw' & Hr & Hrh & Hh).
      split; simpl; lia.
Qed.

(** X14. In a running cache each of the three hit-rate methods returns 0
    when its counter of calls is 0, and otherwise divides a hit counter
    that is not negative by a counter of calls that is positive and at
    least as large: no division by zero, and a rate between 0 and 1. *)
Theorem hit_rates_are_rates (c : Cache.t) (st : Store) :
  reachable (c, st) →
  (Cache.access_count c = 0 ∧ Cache.get_hit_rate c = Cache.RateZero
   ∨ Cache.get_hit_rate c
     = Cache.RateQuotient (Cache.hit_count c) (Cache.access_count c)
     ∧ 0 ≤ Cache.hit_count c ≤ Cache.access_count c
     ∧ 0 < Cache.access_count c)
  ∧ (Cache.read_count c = 0 ∧ Cache.get_read_hit_rate c = Cache.RateZero
     ∨ Cache.get_read_hit_rate c
       = Cache.RateQuotient (Cache.read_hit_count c) (Cache.read_count c)
       ∧ 0 ≤ Cache.read_hit_count c ≤ Cache.read_count c
       ∧ 0 < Cache.read_count c)
  ∧ (Cache.write_count c = 0 ∧ Cache.get_write_hit_rate c = Cache.RateZero
     ∨ Cache.get_write_hit_rate c
       = Cache.RateQuotient (Cache.write_hit_count c) (Cache.write_count c)
       ∧ 0 ≤ Cache.write_hit_count c ≤ Cache.write_count c
       ∧ 0 < Cache.write_count c).
Proof.
  intros Hr. destruct (reachable_counters _ Hr) as [H1 H2 H3]. simpl in *.
  unfold Cache.get_hit_rate, Cache.get_read_hit_rate,
    Cache.get_write_hit_rate.
  split_and!.
  - destruct (Z.eqb_spec (Cache.access_count c) 0); [by left|right].
    split_and!; try done; lia.
  - destruct (Z.eqb_spec (Cache.read_count c) 0); [by left|right].
    split_and!; try done; lia.
  - destruct (Z.eqb_spec (Cache.write_count c) 0); [by left|right].
    split_and!; try done; lia.
Qed.

Lemma hit_rates_are_rates_witness :
  (Cache.access_count demo_world.1 = 0
   ∧ Cache.get_hit_rate demo_world.1 = Cache.RateZero
   ∨ Cache.get_hit_rate demo_world.1
     = Cache.RateQuotient (Cache.hit_count demo_world.1)
         (Cache.access_count demo_world.1)
     ∧ 0 ≤ Cache.hit_count demo_world.1 ≤ Cache.access_count demo_world.1
     ∧ 0 < Cache.access_count demo_world.1)
  ∧ (Cache.read_count demo_world.1 = 0
     ∧ Cache.get_read_hit_rate demo_world.1 = Cache.RateZero
     ∨ Cache.get_read_hit_rate demo_world.1
       = Cache.RateQuotient (Cache.read_hit_count demo_world.1)
           (Cache.read_count demo_world.1)
       ∧ 0 ≤ Cache.read_hit_count demo_world.1
         ≤ Cache.read_count demo_world.1
       ∧ 0 < Cache.read_count demo_world.1)
  ∧ (Cache.write_count demo_world.1 = 0
     ∧ Cache.get_write_hit_rate demo_world.1 = Cache.RateZero
     ∨ Cache.get_write_hit_rate demo_world.1
       = Cache.RateQuotient (Cache.write_hit_count demo_world.1)
           (Cache.write_count demo_world.1)
       ∧ 0 ≤ Cache.write_hit_count demo_world.1
         ≤ Cache.write_count demo_world.1
       ∧ 0 < Cache.write_count demo_world.1).
Proof.
  apply (hit_rates_are_rates demo_world.1 demo_world.2).
  apply demo_world_reachable.
Defined.

(** The rates of the run of five calls: 2 of 5, 1 of 3 and 1 of 2. *)
Example demo_hit_rates :
  Cache.get_hit_rate demo_world.1 = Cache.RateQuotient 2 5
  ∧ Cache.get_read_hit_rate demo_world.1 = Cache.RateQuotient 1 3
  ∧ Cache.get_write_hit_rate demo_world.1 = Cache.RateQuotient 1 2
  ∧ Cache.get_hit_rate demo_cache = Cache.RateZero.
Proof. by vm_compute. Qed.

(** ** A cache too small for one set *)

(** X15. For a [cache_size], a [block_size] and an [associativity] that
    are powers of two with [cache_size] below [block_size * associativity],
    a policy of the three and an [address_bit] that is not negative, the
    constructor returns a cache with [set_count] 0 and no set, and each
    call of [read] and [write] of that cache for an address below
    [2 ** address_bit] raises ZeroDivisionError once the call is
    counted. *)
Theorem undersized_cache_always_raises
    (cache_size block_size associativity : Z) (policy : string)
    (address_bit : Z) (cache_memory : ref) :
  0 < cache_size → 0 < block_size → 0 < associativity →
  Cache.is_power_of_two cache_size = true →
  Cache.is_power_of_two block_size = true →
  Cache.is_power_of_two associativity = true →
  policy ∈ ["FIFO"; "LRU"; "RANDOM"] →
  0 ≤ address_bit →
  cache_size < block_size * associativity →
  ∃ c,
    Cache.init cache_size block_size associativity policy address_bit
      cache_memory = Ok c
    ∧ Cache.set_count c = 0
    ∧ Cache.sets c = []
    ∧ ∀ (st : Store) (address : Z) (data : pyval) (memory : ref),
        address < 2 ^ address_bit →
        Cache.read address memory (c, st)
        = ((counted_read c, st), Raise ZeroDivisionError)
        ∧ Cache.write address data memory (c, st)
          = ((counted_write c, st), Raise ZeroDivisionError).
Proof.
  intros Hcs Hbs Has Pc Pb Pa Hp _ Hsmall.
  assert (Hq : cache_size ÷ (block_size * associativity) = 0).
  { apply Z.quot_small. lia. }
  assert (Hinit :
    Cache.init cache_size block_size associativity policy address_bit
      cache_memory
    = Ok (Cache.mk cache_size associativity policy address_bit block_size
            0 cache_memory 0 0 0 0 0 0 0 [])).
  { unfold Cache.init.
    destruct (Z.leb_spec cache_size 0); [lia|].
    destruct (Z.leb_spec block_size 0); [lia|].
    destruct (Z.leb_spec associativity 0); [lia|].
    rewrite Pc, Pb, Pa. simpl. rewrite bool_decide_eq_true_2 by done. simpl.
    by rewrite Hq. }
  eexists. split; [exact Hinit|]. split; [done|]. split; [done|].
  intros st address data memory Ha.
  assert (Hsplit : Cache.address_split
            (Cache.mk cache_size associativity policy address_bit block_size
               0 cache_memory 0 0 0 0 0 0 0 []) address
          = Raise ZeroDivisionError).
  { unfold Cache.address_split. simpl.
    destruct (Z.geb_spec address (2 ^ address_bit)); [lia|].
    by destruct (block_size =? 0). }
  split.
  - by apply read_split_raise.
  - by apply write_split_raise.
Qed.

Lemma undersized_cache_always_raises_witness :
  ∃ c,
    Cache.init 2 4 1 "LRU" 4 0%nat = Ok c
    ∧ Cache.set_count c = 0
    ∧ Cache.sets c = []
    ∧ ∀ (st : Store) (address : Z) (data : pyval) (memory : ref),
        address < 2 ^ 4 →
        Cache.read address memory (c, st)
        = ((counted_read c, st), Raise ZeroDivisionError)
        ∧ Cache.write address data memory (c, st)
          = ((counted_write c, st), Raise ZeroDivisionError).
Proof.
  apply (undersized_cache_always_raises 2 4 1 "LRU" 4 0%nat).
  - lia.
  - lia.
  - lia.
  - reflexivity.
  - reflexivity.
  - reflexivity.
  - rewrite !elem_of_cons. auto.
  - lia.
  - lia.
Defined.

(** ** An address below zero *)

Lemma negative_tag_misses c i s address :
  cache_ok c →
  Cache.sets c !! i = Some s →
  0 < Cache.set_count c →
  address < 0 →
  is_hit s (address `div` (Cache.block_size c * Cache.set_count c)) = false.
Proof.
  intros Hok Hs Hsc Ha. unfold is_hit.
  destruct (CacheSet.find_block s _) as [b|] eqn:Hb; [|done].
  exfalso.
  pose proof (co_block_size _ Hok) as Hbs.
  destruct (so_blocks _ _ _ (co_sets _ Hok _ _ Hs) _ _
              (find_block_elem _ _ _ Hb)) as [_ _ _ H4 H5 _ _].
  assert (Hi : 0 ≤ Z.of_nat i < Cache.set_count c).
  { apply lookup_lt_Some in Hs. rewrite (co_length _ Hok) in Hs. lia. }
  assert (Ht : address `div` (Cache.block_size c * Cache.set_count c) < 0).
  { apply Z.div_lt_upper_bound; nia. }
  set (t := address `div` (Cache.block_size c * Cache.set_count c)) in *.
  assert (Hn : t * Cache.set_count c + Z.of_nat i < 0) by nia.
  nia.
Qed.

(** A call for an address below zero: the [Memory] rejects it. *)
Lemma negative_address_outcome c st address data memory mem :
  cache_ok c →
  0 < Cache.set_count c →
  address < 0 →
  mems st !! memory = Some mem →
  Cache.read address memory (c, st)
  = ((counted_read c, st), Raise (ValueError "Address out of range"))
  ∧ Cache.write address data memory (c, st)
    = ((Cache.set_time (Cache.time c + 1) (counted_write c), st),
       Raise (ValueError "Address out of range")).
Proof.
  intros Hok Hsc Ha Hmem.
  pose proof (co_block_size _ Hok) as Hbs.
  assert (Hpow : 0 ≤ 2 ^ Cache.address_bit c) by (apply Z.pow_nonneg; lia).
  pose proof (address_split_ok c address Hbs Hsc ltac:(lia)) as Hsplit.
  destruct (split_index_range _ _ _ _ _ Hok Hsplit) as (Hi & Ho & s & Hs).
  pose proof (negative_tag_misses _ _ _ _ Hok Hs Hsc Ha) as Hmiss.
  assert (Hbase : address `div` Cache.block_size c * Cache.block_size c < 0).
  { pose proof (Z.mod_pos_bound address (Cache.block_size c) Hbs).
    pose proof (Z.div_mod address (Cache.block_size c) ltac:(lia)). nia. }
  split.
  - rewrite (read_miss _ _ _ _ _ _ _ _ Hsplit ltac:(lia) Hs Hmiss).
    unfold read_miss_outcome.
    rewrite (seqZ_cons 0 (Cache.block_size c)) by lia. simpl.
    rewrite Z.add_0_r.
    destruct (Z.ltb_spec (address `div` Cache.block_size c * Cache.block_size c)
                (2 ^ Cache.address_bit c)); [|lia].
    unfold bind, at_ref. rewrite Hmem.
    rewrite memory_read_raise by lia.
    by rewrite set_mems_id.
  - rewrite (write_miss _ _ _ _ _ _ _ _ _ Hsplit ltac:(lia) Hs Hmiss).
    unfold write_miss_outcome, at_ref. rewrite Hmem.
    rewrite memory_write_raise by lia.
    by rewrite set_mems_id.
Qed.

(** X16. [address_split] lets an address below zero pass, and the
    [Memory] rejects it: in a running cache with a set, [read] raises
    ValueError before it stores a block or moves the clock, and [write]
    raises it after it has moved the clock; both calls are counted and
    the memory is not accessed. *)
Theorem negative_address_is_rejected_by_memory
    (c : Cache.t) (st : Store) (address : Z) (data : pyval) (memory : ref)
    (mem : Memory.t) :
  reachable (c, st) →
  0 < Cache.set_count c →
  address < 0 →
  mems st !! memory = Some mem →
  Cache.read address memory (c, st)
  = ((counted_read c, st), Raise (ValueError "Address out of range"))
  ∧ Cache.write address data memory (c, st)
    = ((Cache.set_time (Cache.time c + 1) (counted_write c), st),
       Raise (ValueError "Address out of range")).
Proof.
  intros Hr Hsc Ha Hmem.
  apply (negative_address_outcome c st address data memory mem); try done.
  apply (reachable_ok _ Hr).
Qed.

Lemma negative_address_is_rejected_by_memory_witness :
  Cache.read (-3) 0%nat demo_world
  = ((counted_read demo_world.1, demo_world.2),
     Raise (ValueError "Address out of range"))
  ∧ Cache.write (-3) (PyInt 7) 0%nat demo_world
    = ((Cache.set_time (Cache.time demo_world.1 + 1)
          (counted_write demo_world.1), demo_world.2),
       Raise (ValueError "Address out of range")).
Proof.
  apply (negative_address_is_rejected_by_memory demo_world.1 demo_world.2
           (-3) (PyInt 7) 0%nat demo_memory).
  - apply demo_world_reachable.
  - by vm_compute.
  - lia.
  - reflexivity.
Defined.

(** ** Hits *)

Lemma is_hit_block s tag :
  is_hit s tag = true →
  ∃ b, CacheSet.find_block s tag = Some b ∧ CacheBlock.valid b = true.
Proof.
  unfold is_hit. destruct (CacheSet.find_block s tag) as [b|]; [|done].
  intros Hv. by exists b.
Qed.

(** A hit of [write] in a cache that keeps its invariant. *)
Lemma write_hit_ok c st address data memory tag index offset s b :
  cache_ok c →
  Cache.address_split c address = Ok (tag, index, offset) →
  Cache.sets c !! Z.to_nat index = Some s →
  CacheSet.find_block s tag = Some b →
  (Z.to_nat offset < length (CacheBlock.data b))%nat
  ∧ Cache.write address data memory (c, st)
    = ((Cache.set_time (Cache.time c + 1)
          (with_block (write_hit_counted c) index tag s
             (touched c
                (CacheBlock.set_dirty true
                   (CacheBlock.set_data
                      (<[Z.to_nat offset := data]> (CacheBlock.data b)) b)))),
        st), Ok tt).
Proof.
  intros Hok Hsplit Hs Hb.
  destruct (split_index_range _ _ _ _ _ Hok Hsplit) as (Hi & Ho & _).
  pose proof (so_blocks _ _ _ (co_sets _ Hok _ _ Hs) _ _
                (find_block_elem _ _ _ Hb)) as Hbk.
  pose proof (hit_block_base _ _ _ _ _ _ _ Hok Hsplit Hs Hb) as Hbase.
  pose proof (address_split_inv _ _ _ _ _ Hsplit) as (Ha & _).
  assert (Hlen : (Z.to_nat offset < length (CacheBlock.data b))%nat).
  { eapply block_data_covers; [done|done|done|lia]. }
  split; [done|].
  rewrite (write_hit _ _ _ _ _ _ _ _ _ _ Hsplit ltac:(lia) Hs Hb
             (bk_valid _ _ _ _ Hbk)).
  unfold write_hit_outcome.
  rewrite (writable_data_ok _ _ _ _ Hok Hbk).
  by rewrite list_setitem_ok by lia.
Qed.

Lemma touched_fields c b :
  CacheBlock.dirty (touched c b) = CacheBlock.dirty b
  ∧ CacheBlock.data (touched c b) = CacheBlock.data b
  ∧ CacheBlock.valid (touched c b) = CacheBlock.valid b
  ∧ CacheBlock.base_address (touched c b) = CacheBlock.base_address b
  ∧ CacheBlock.tag (touched c b) = CacheBlock.tag b.
Proof. unfold touched. by destruct (String.eqb _ _). Qed.

(** X17. A hit of [write] in a running cache stores the word in the block
    only: the block becomes dirty and holds the value at the offset, its
    other words stay, both hit counters grow by one and no [Memory] is
    accessed. *)
Theorem write_hit_stays_in_cache
    (c : Cache.t) (st : Store) (address : Z) (data : pyval) (memory : ref)
    (tag index offset : Z) (s : CacheSet.t) :
  reachable (c, st) →
  Cache.address_split c address = Ok (tag, index, offset) →
  Cache.sets c !! Z.to_nat index = Some s →
  is_hit s tag = true →
  ∃ c' s' b b',
    Cache.write address data memory (c, st) = ((c', st), Ok tt)
    ∧ CacheSet.find_block s tag = Some b
    ∧ Cache.sets c' !! Z.to_nat index = Some s'
    ∧ CacheSet.find_block s' tag = Some b'
    ∧ CacheBlock.dirty b' = true
    ∧ CacheBlock.data b' = <[Z.to_nat offset := data]> (CacheBlock.data b)
    ∧ CacheBlock.data b' !! Z.to_nat offset = Some data
    ∧ Cache.hit_count c' = Cache.hit_count c + 1
    ∧ Cache.write_hit_count c' = Cache.write_hit_count c + 1.
Proof.
  intros Hr Hsplit Hs Hh.
  pose proof (reachable_ok _ Hr) as Hok. simpl in Hok.
  destruct (is_hit_block _ _ Hh) as (b & Hb & Hv).
  destruct (write_hit_ok c st address data memory _ _ _ _ _ Hok Hsplit Hs Hb)
    as [Hlen E].
  destruct (touched_fields c
              (CacheBlock.set_dirty true
                 (CacheBlock.set_data
                    (<[Z.to_nat offset := data]> (CacheBlock.data b)) b)))
    as (Hd & Hdata & _).
  eexists _, _, b, _. split_and!.
  - exact E.
  - done.
  - simpl. by apply with_block_lookup.
  - unfold CacheSet.find_block. simpl. apply getitem_setitem_eq.
  - by rewrite Hd.
  - by rewrite Hdata.
  - rewrite Hdata. simpl. by apply list_lookup_insert_eq.
  - done.
  - done.
Qed.

Lemma write_hit_stays_in_cache_witness :
  ∃ c' s' b b',
    Cache.write 5 (PyInt 8) 0%nat demo_world = ((c', demo_world.2), Ok tt)
    ∧ CacheSet.find_block demo_set 1 = Some b
    ∧ Cache.sets c' !! Z.to_nat 0 = Some s'
    ∧ CacheSet.find_block s' 1 = Some b'
    ∧ CacheBlock.dirty b' = true
    ∧ CacheBlock.data b' = <[Z.to_nat 1 := PyInt 8]> (CacheBlock.data b)
    ∧ CacheBlock.data b' !! Z.to_nat 1 = Some (PyInt 8)
    ∧ Cache.hit_count c' = Cache.hit_count demo_world.1 + 1
    ∧ Cache.write_hit_count c' = Cache.write_hit_count demo_world.1 + 1.
Proof.
  apply (write_hit_stays_in_cache demo_world.1 demo_world.2 5 (PyInt 8)
           0%nat 1 0 1 demo_set).
  - apply demo_world_reachable.
  - reflexivity.
  - reflexivity.
  - reflexivity.
Defined.

Lemma read_hit_cache_fields c index tag s b :
  same_config c (read_hit_cache c index tag s b)
  ∧ Cache.hit_count (read_hit_cache c index tag s b) = Cache.hit_count c + 1
  ∧ Cache.read_hit_count (read_hit_cache c index tag s b)
    = Cache.read_hit_count c + 1
  ∧ Cache.time (read_hit_cache c index tag s b) = Cache.time c + 1.
Proof.
  unfold read_hit_cache, with_block.
  by destruct (String.eqb _ _); split_and!; try split.
Qed.

(** After a hit of [read] the block is still in its set, with its words. *)
Lemma read_hit_cache_block c index tag s b :
  Cache.sets c !! Z.to_nat index = Some s →
  CacheSet.find_block s tag = Some b →
  ∃ s' b',
    Cache.sets (read_hit_cache c index tag s b) !! Z.to_nat index = Some s'
    ∧ CacheSet.find_block s' tag = Some b'
    ∧ CacheBlock.valid b' = CacheBlock.valid b
    ∧ CacheBlock.data b' = CacheBlock.data b
    ∧ CacheBlock.dirty b' = CacheBlock.dirty b.
Proof.
  intros Hs Hb. unfold read_hit_cache.
  destruct (String.eqb _ _); simpl.
  - eexists _, _. split; [by apply with_block_lookup|].
    split; [apply getitem_setitem_eq|done].
  - by exists s, b.
Qed.

(** X18. A [read] that returns leaves the word in the cache: a [read] of
    the same address right after it is a hit, returns the same value and
    accesses no [Memory], whichever [Memory] it is given. *)
Theorem read_again_hits
    (c : Cache.t) (st : Store) (address : Z) (memory memory' : ref)
    (c' : Cache.t) (st' : Store) (v : pyval) :
  Cache.read address memory (c, st) = ((c', st'), Ok v) →
  ∃ c'',
    Cache.read address memory' (c', st') = ((c'', st'), Ok v)
    ∧ Cache.hit_count c'' = Cache.hit_count c' + 1
    ∧ Cache.read_hit_count c'' = Cache.read_hit_count c' + 1.
Proof.
  intros H.
  pose proof (read_frame _ _ _ _ _ _ _ H) as (Hc & _).
  destruct (read_cases address memory c st)
    as [(e & Hsplit & E)
       | (tag & index & offset & Hsplit
          & [[Hk E] | (s & Hi & Hs & [(b & Hb & Hv & E) | [Hmiss E]])])];
    rewrite E in H; clear E; try done.
  - injection H as <- <- Hw.
    destruct (read_hit_cache_block c index tag s b Hs Hb)
      as (s' & b' & Hs' & Hb' & Hv' & Hd' & _).
    rewrite <- (address_split_config _ _ address Hc) in Hsplit.
    rewrite (read_hit _ memory' _ st _ _ _ _ _ Hsplit Hi Hs' Hb')
      by congruence.
    rewrite Hd', Hw.
    eexists. split; [done|].
    by destruct (read_hit_cache_fields (read_hit_cache c index tag s b)
                   index tag s' b') as (_ & ? & ? & _).
  - unfold read_miss_outcome in H.
    destruct (Cache.fetch _ _ _ _ _ st) as [st1 [data|e]]; [|done].
    set (new := CacheBlock.mk tag true false (Cache.block_size c) data
                  (address `div` Cache.block_size c * Cache.block_size c)
                  (Cache.time c) (Cache.time c)) in *.
    destruct (CacheSet.add_block new (s, st1)) as [[s1 st2] [[]|e]] eqn:Ha;
      [|done].
    injection H as <- <- Hw.
    rewrite <- (address_split_config _ _ address Hc) in Hsplit.
    destruct (add_block_set _ _ _ _ _ _ Ha)
      as (_ & _ & _ & [[Hr _]|[_ (d & _ & Hs1)]]); [done|].
    assert (Hb1 : CacheSet.find_block s1 tag = Some new).
    { unfold CacheSet.find_block. rewrite Hs1. apply getitem_setitem_eq. }
    erewrite (read_hit _ memory' _ st2 _ _ _ s1 new Hsplit Hi _ Hb1 eq_refl).
    simpl. rewrite Hw.
    eexists. split; [done|].
    by match goal with
       | |- context [read_hit_cache ?c0 ?i ?t ?s0 ?b0] =>
           destruct (read_hit_cache_fields c0 i t s0 b0) as (_ & ? & ? & _)
       end.
  Unshelve.
  simpl. apply list_lookup_insert_eq. by eapply lookup_lt_Some.
Qed.

Lemma read_again_hits_witness :
  ∃ c'',
    Cache.read 8 0%nat demo_evicting = ((c'', demo_evicting.2), Ok (PyInt 0))
    ∧ Cache.hit_count c'' = Cache.hit_count demo_evicting.1 + 1
    ∧ Cache.read_hit_count c'' = Cache.read_hit_count demo_evicting.1 + 1.
Proof.
  apply (read_again_hits demo_world.1 demo_world.2 8 0%nat 0%nat
           demo_evicting.1 demo_evicting.2 (PyInt 0)).
  reflexivity.
Defined.

(** ** The cache in front of its memory *)

(** *** The block of an address *)

Lemma split_of_block bs sc t i o :
  0 < bs → 0 < sc → 0 ≤ i < sc → 0 ≤ o < bs →
  ((t * sc + i) * bs + o) `div` (bs * sc) = t
  ∧ (((t * sc + i) * bs + o) `div` bs) `mod` sc = i
  ∧ ((t * sc + i) * bs + o) `mod` bs = o.
Proof.
  intros Hbs Hsc Hi Ho.
  assert (E1 : ((t * sc + i) * bs + o) `div` bs = t * sc + i).
  { rewrite Z.div_add_l by lia. rewrite Z.div_small by lia. lia. }
  rewrite <- (Z.div_div _ bs sc) by lia. rewrite E1.
  split_and!.
  - rewrite (Z.add_comm (t * sc)), Z.div_add by lia.
    rewrite Z.div_small by lia. lia.
  - rewrite (Z.add_comm (t * sc)), Z.mod_add by lia.
    apply Z.mod_small. lia.
  - rewrite Z.add_comm, Z.mod_add by lia. apply Z.mod_small. lia.
Qed.

(** An address lies in the block [(t, i)] exactly when it splits into the
    tag [t] and the index [i]. *)
Lemma same_block_iff c t i a :
  0 < Cache.block_size c → 0 < Cache.set_count c →
  0 ≤ i < Cache.set_count c →
  (t * Cache.set_count c + i) * Cache.block_size c ≤ a
  < (t * Cache.set_count c + i) * Cache.block_size c + Cache.block_size c
  ↔ tag_of c a = t ∧ index_of c a = i.
Proof.
  intros Hbs Hsc Hi. unfold tag_of, index_of.
  set (bs := Cache.block_size c) in *. set (sc := Cache.set_count c) in *.
  split.
  - intros Ha.
    destruct (split_of_block bs sc t i (a - (t * sc + i) * bs))
      as (E1 & E2 & _); try lia.
    replace ((t * sc + i) * bs + (a - (t * sc + i) * bs)) with a in * by lia.
    done.
  - intros [<- <-].
    pose proof (recombine bs sc a Hbs Hsc) as Hr.
    pose proof (Z.mod_pos_bound a bs Hbs). nia.
Qed.

Lemma offset_in_block c t i a :
  0 < Cache.block_size c → 0 < Cache.set_count c →
  tag_of c a = t → index_of c a = i →
  a - (t * Cache.set_count c + i) * Cache.block_size c
  = a `mod` Cache.block_size c.
Proof.
  intros Hbs Hsc <- <-. unfold tag_of, index_of.
  pose proof (recombine (Cache.block_size c) (Cache.set_count c) a Hbs Hsc).
  nia.
Qed.

(** The parts of an address of the address space. *)
Lemma split_parts c a :
  cache_ok c → 0 < Cache.set_count c →
  a < 2 ^ Cache.address_bit c →
  Cache.address_split c a
  = Ok (tag_of c a, index_of c a, a `mod` Cache.block_size c)
  ∧ 0 ≤ index_of c a < Cache.set_count c
  ∧ 0 ≤ a `mod` Cache.block_size c < Cache.block_size c
  ∧ ∃ s, Cache.sets c !! Z.to_nat (index_of c a) = Some s.
Proof.
  intros Hok Hsc Ha.
  pose proof (address_split_ok c a (co_block_size _ Hok) Hsc Ha) as Hsplit.
  destruct (split_index_range _ _ _ _ _ Hok Hsplit) as (? & ? & ?).
  done.
Qed.

(** A word of a block is the word of an address of the address space,
    which splits into the tag and the index of the block. *)
Lemma word_address c i s tag b o :
  cache_ok c →
  Cache.sets c !! i = Some s →
  (tag, b) ∈ CacheSet.blocks s →
  (o < length (CacheBlock.data b))%nat →
  let a := CacheBlock.base_address b + Z.of_nat o in
  0 ≤ a < 2 ^ Cache.address_bit c
  ∧ tag_of c a = tag
  ∧ index_of c a = Z.of_nat i
  ∧ a `mod` Cache.block_size c = Z.of_nat o
  ∧ holder c a = Some b.
Proof.
  intros Hok Hs Hb Ho a.
  pose proof (co_sets _ Hok _ _ Hs) as Hso.
  destruct (so_blocks _ _ _ Hso _ _ Hb) as [_ _ _ H4 H5 H6 _].
  pose proof (co_block_size _ Hok) as Hbs.
  assert (Hi : 0 ≤ Z.of_nat i < Cache.set_count c).
  { apply lookup_lt_Some in Hs. rewrite (co_length _ Hok) in Hs. lia. }
  assert (Hoz : 0 ≤ Z.of_nat o < Cache.block_size c) by lia.
  destruct (split_of_block (Cache.block_size c) (Cache.set_count c) tag
              (Z.of_nat i) (Z.of_nat o)) as (E1 & E2 & E3); try lia.
  subst a. rewrite H4.
  split_and!; try done; try lia.
  unfold holder. unfold index_of at 1. rewrite E2, Nat2Z.id, Hs.
  unfold tag_of. rewrite E1.
  apply elem_getitem; [apply Hso|done].
Qed.

(** The block that holds an address starts at the address less its
    offset, and has a word for it. *)
Lemma holder_word c a b :
  cache_ok c → 0 < Cache.set_count c →
  a < 2 ^ Cache.address_bit c →
  holder c a = Some b →
  CacheBlock.base_address b + a `mod` Cache.block_size c = a
  ∧ (Z.to_nat (a `mod` Cache.block_size c) < length (CacheBlock.data b))%nat
  ∧ ∃ s, Cache.sets c !! Z.to_nat (index_of c a) = Some s
         ∧ (tag_of c a, b) ∈ CacheSet.blocks s.
Proof.
  intros Hok Hsc Ha Hh.
  destruct (split_parts c a Hok Hsc Ha) as (Hsplit & Hi & Ho & s & Hs).
  unfold holder in Hh. rewrite Hs in Hh.
  pose proof (hit_block_base _ _ _ _ _ _ _ Hok Hsplit Hs Hh) as Hbase.
  split_and!; [done| |exists s; split; [done|by apply find_block_elem]].
  eapply block_data_covers; [done| |done|lia].
  apply (so_blocks _ _ _ (co_sets _ Hok _ _ Hs)).
  by apply find_block_elem.
Qed.

(** Every address of the address space has its contents. *)
Lemma contents_is_Some c mem a :
  coherent c mem →
  0 ≤ a < 2 ^ Cache.address_bit c →
  ∃ w, contents c mem a = Some w ∧ w ≠ PyNone.
Proof.
  intros Hch Ha. unfold contents.
  destruct (holder c a) as [b|] eqn:Hh.
  - destruct (holder_word c a b (ch_cache _ _ Hch) (ch_set_count _ _ Hch)
                ltac:(lia) Hh) as (_ & Hlen & s & Hs & Hb).
    destruct (lookup_lt_is_Some_2 _ _ Hlen) as [w Hw].
    exists w. split; [done|].
    by destruct (ch_words _ _ Hch _ _ _ _ _ _ Hs Hb Hw).
  - destruct (ch_memory _ _ Hch) as [_ Hlen].
    destruct (lookup_lt_is_Some_2 (Memory.data mem) (Z.to_nat a)) as [v Hv].
    { rewrite Hlen, (ch_size _ _ Hch). lia. }
    rewrite Hv. exists (cell_value v). split; [done|]. by destruct v.
Qed.

Lemma contents_ext c c' mem mem' a :
  same_config c c' →
  Cache.sets c' = Cache.sets c →
  Memory.data mem' = Memory.data mem →
  contents c' mem' a = contents c mem a.
Proof.
  intros Hc Hs Hm. unfold contents, holder, index_of, tag_of.
  by rewrite Hs, Hm, (sc_block_size _ _ Hc), (sc_set_count _ _ Hc).
Qed.

(** *** The flush of a victim *)

(** Once the victim is flushed, the memory holds for each address of the
    victim what the victim held, and for the other addresses what it held
    before. *)
Lemma flush_cells c mem mem1 st i s v bv :
  coherent c mem →
  Cache.sets c !! i = Some s →
  OrderedDict.getitem (CacheSet.blocks s) v = Some bv →
  mems st !! Cache.memory c = Some mem1 →
  memory_ok mem1 →
  Memory.size mem1 = Memory.size mem →
  Memory.data mem1 = Memory.data mem →
  ∃ mem2,
    flush (CacheSet.memory s) bv st
    = (set_mems (<[Cache.memory c := mem2]> (mems st)) st, Ok tt)
    ∧ memory_ok mem2
    ∧ Memory.size mem2 = Memory.size mem
    ∧ ∀ a, 0 ≤ a < 2 ^ Cache.address_bit c →
        cell_value <$> Memory.data mem2 !! Z.to_nat a
        = if decide (tag_of c a = v ∧ index_of c a = Z.of_nat i)
          then CacheBlock.data bv !! Z.to_nat (a `mod` Cache.block_size c)
          else cell_value <$> Memory.data mem !! Z.to_nat a.
Proof.
  intros Hch Hs Hbv Hst Hm1 Hsize Hdata.
  pose proof (ch_cache _ _ Hch) as Hok.
  pose proof (ch_set_count _ _ Hch) as Hsc.
  pose proof (co_block_size _ Hok) as Hbs.
  pose proof (co_sets _ Hok _ _ Hs) as Hso.
  pose proof (getitem_Some_elem _ _ _ Hbv) as Hel.
  pose proof (so_blocks _ _ _ Hso _ _ Hel) as Hbk.
  destruct Hbk as [_ _ H3 H4 H5 H6 _].
  assert (Hbk : block_ok c i v bv) by by apply (so_blocks _ _ _ Hso).
  assert (Hi : 0 ≤ Z.of_nat i < Cache.set_count c).
  { apply lookup_lt_Some in Hs. rewrite (co_length _ Hok) in Hs. lia. }
  assert (Hcov : covers bv (Memory.size mem1)
                   (seqZ 0 (CacheBlock.block_size bv))).
  { eapply block_covers; [done|done|]. rewrite Hsize, (ch_size _ _ Hch). lia. }
  rewrite (so_memory _ _ _ Hso).
  rewrite (flush_ok _ _ _ mem1) by (done || lia).
  eexists. split; [reflexivity|].
  (* the word of the victim for an address of its range *)
  assert (Hword : ∀ a, 0 ≤ a < 2 ^ Cache.address_bit c →
            tag_of c a = v → index_of c a = Z.of_nat i →
            ∃ w, CacheBlock.data bv !! Z.to_nat (a `mod` Cache.block_size c)
                 = Some w
                 ∧ w ≠ PyNone
                 ∧ (CacheBlock.dirty bv = false →
                    cell_value <$> Memory.data mem !! Z.to_nat a = Some w)).
  { intros a Ha Ht Hix.
    pose proof (offset_in_block c v (Z.of_nat i) a Hbs Hsc Ht Hix) as Hoff.
    pose proof (Z.mod_pos_bound a (Cache.block_size c) Hbs) as Hmod.
    destruct (lookup_lt_is_Some_2 (CacheBlock.data bv)
                (Z.to_nat (a `mod` Cache.block_size c))) as [w Hw].
    { rewrite H6. lia. }
    destruct (ch_words _ _ Hch _ _ _ _ _ _ Hs Hel Hw) as [Hn Hc].
    exists w. split_and!; [done|done|].
    intros Hd. specialize (Hc Hd).
    replace (CacheBlock.base_address bv
             + Z.of_nat (Z.to_nat (a `mod` Cache.block_size c))) with a in Hc
      by lia.
    done. }
  destruct (CacheBlock.dirty bv && negb (bool_decide (CacheBlock.data bv = [])))
    eqn:Hd.
  - split_and!.
    + by apply store_words_ok.
    + by rewrite store_words_size.
    + intros a Ha.
      assert (Hn : CacheBlock.block_size bv
                   = Z.of_nat (Z.to_nat (Cache.block_size c))) by lia.
      rewrite Hn in *.
      rewrite store_words_lookup;
        [|lia|done|done|rewrite Hsize, (ch_size _ _ Hch); lia].
      rewrite Hdata.
      destruct (decide (tag_of c a = v ∧ index_of c a = Z.of_nat i))
        as [[Ht Hix]|Hno].
      * rewrite decide_True.
        2: { pose proof (proj2 (same_block_iff c v (Z.of_nat i) a Hbs Hsc Hi)
                           (conj Ht Hix)). lia. }
        destruct (Hword a Ha Ht Hix) as (w & Hw & Hnone & _).
        rewrite H4, (offset_in_block c v (Z.of_nat i) a Hbs Hsc Ht Hix), Hw.
        by destruct w.
      * rewrite decide_False; [done|].
        intros Hin. apply Hno.
        apply (same_block_iff c v (Z.of_nat i) a Hbs Hsc Hi). lia.
  - split_and!; [done|done|].
    intros a Ha. rewrite Hdata.
    destruct (decide (tag_of c a = v ∧ index_of c a = Z.of_nat i))
      as [[Ht Hix]|Hno]; [|done].
    destruct (Hword a Ha Ht Hix) as (w & Hw & _ & Hclean).
    rewrite Hw. apply Hclean.
    apply andb_false_iff in Hd as [Hd | Hd]; [done|].
    apply negb_false_iff, bool_decide_eq_true in Hd.
    rewrite Hd in Hw. by rewrite lookup_nil in Hw.
Qed.

(** *** The words that a miss fetches *)

Lemma fetch_beyond address_bit memory base offsets :
  ∀ acc st,
    Forall (λ i, 2 ^ address_bit ≤ base + i) offsets →
    Cache.fetch address_bit memory base offsets acc st = (st, Ok acc).
Proof.
  induction offsets as [|i offsets IH]; intros acc st Hall; simpl; [done|].
  apply Forall_cons in Hall as [Hi Hall].
  destruct (Z.ltb_spec (base + i) (2 ^ address_bit)); [lia|].
  by apply IH.
Qed.

(** The loop of a miss appends what [Memory.read] returns for the
    addresses of the block, one after the other. *)
Lemma fetch_cells address_bit memory base cells (n : nat) :
  0 ≤ base →
  ∀ acc st mem,
    mems st !! memory = Some mem →
    memory_ok mem →
    2 ^ address_bit ≤ Memory.size mem →
    Memory.data mem = cells →
    (∀ o w, acc !! o = Some w →
            cell_value <$> cells !! Z.to_nat (base + Z.of_nat o) = Some w
            ∧ w ≠ PyNone) →
    ∃ data mem',
      Cache.fetch address_bit memory base
        (seqZ (Z.of_nat (length acc)) (Z.of_nat n)) acc st
      = (set_mems (<[memory := mem']> (mems st)) st, Ok data)
      ∧ memory_ok mem'
      ∧ Memory.size mem' = Memory.size mem
      ∧ Memory.data mem' = cells
      ∧ ∀ o w, data !! o = Some w →
          cell_value <$> cells !! Z.to_nat (base + Z.of_nat o) = Some w
          ∧ w ≠ PyNone.
Proof.
  intros Hbase.
  induction n as [|n IH]; intros acc st mem Hm Hok Hsize Hcells Hacc.
  - change (Z.of_nat 0) with 0. rewrite seqZ_nil by lia. simpl.
    exists acc, mem. unfold ret. by rewrite set_mems_id.
  - rewrite seqZ_cons by lia. simpl.
    replace (Z.pred (Z.of_nat (S n))) with (Z.of_nat n) by lia.
    destruct (Z.ltb_spec (base + Z.of_nat (length acc)) (2 ^ address_bit))
      as [Hlt|Hge].
    + unfold bind, at_ref. rewrite Hm.
      destruct (memory_read_ok (base + Z.of_nat (length acc)) mem Hok
                  ltac:(lia)) as (v & Hv & ->).
      set (mem1 := Memory.set_access_count _ mem).
      assert (memory < length (mems st))%nat by by eapply lookup_lt_Some.
      destruct (IH (acc ++ [cell_value v])
                  (set_mems (<[memory := mem1]> (mems st)) st) mem1)
        as (data & mem' & E & Hok' & Hsz & Hdata & Hwords).
      * simpl. by apply list_lookup_insert_eq.
      * done.
      * done.
      * done.
      * intros o w Ho.
        apply lookup_app_Some in Ho as [Ho | [Hge Ho]]; [by apply Hacc|].
        apply list_lookup_singleton_Some in Ho as [Ho <-].
        replace o with (length acc) by lia.
        rewrite <- Hcells, Hv. split; [done|]. by destruct v.
      * rewrite length_app in E. simpl in E.
        replace (Z.of_nat (length acc + 1)) with (Z.succ (Z.of_nat (length acc)))
          in E by lia.
        rewrite E.
        exists data, mem'. split_and!; try done.
        unfold set_mems. simpl. by rewrite list_insert_insert_eq.
    + rewrite fetch_beyond.
      * exists acc, mem. by rewrite set_mems_id.
      * apply Forall_forall. intros i Hi. apply elem_of_seqZ in Hi. lia.
Qed.

(** The block that a miss of [read] builds for a valid address. *)
Lemma fetch_block c st mem a :
  coherent c mem →
  mems st !! Cache.memory c = Some mem →
  0 ≤ a < 2 ^ Cache.address_bit c →
  ∃ data mem1,
    Cache.fetch (Cache.address_bit c) (Cache.memory c)
      (a `div` Cache.block_size c * Cache.block_size c)
      (seqZ 0 (Cache.block_size c)) [] st
    = (set_mems (<[Cache.memory c := mem1]> (mems st)) st, Ok data)
    ∧ memory_ok mem1
    ∧ Memory.size mem1 = Memory.size mem
    ∧ Memory.data mem1 = Memory.data mem
    ∧ (Z.to_nat (a `mod` Cache.block_size c) < length data)%nat
    ∧ length data
      = Z.to_nat (Z.min (Cache.block_size c)
                    (2 ^ Cache.address_bit c
                     - a `div` Cache.block_size c * Cache.block_size c))
    ∧ ∀ o w, data !! o = Some w →
        cell_value <$>
          Memory.data mem
            !! Z.to_nat (a `div` Cache.block_size c * Cache.block_size c
                         + Z.of_nat o)
        = Some w
        ∧ w ≠ PyNone.
Proof.
  intros Hch Hst Ha.
  pose proof (co_block_size _ (ch_cache _ _ Hch)) as Hbs.
  pose proof (Z.mod_pos_bound a (Cache.block_size c) Hbs) as Hmod.
  pose proof (Z.div_mod a (Cache.block_size c) ltac:(lia)) as Hdm.
  assert (Hbase : 0 ≤ a `div` Cache.block_size c * Cache.block_size c).
  { pose proof (Z.div_pos a (Cache.block_size c) ltac:(lia) Hbs). nia. }
  destruct (fetch_cells (Cache.address_bit c) (Cache.memory c)
              (a `div` Cache.block_size c * Cache.block_size c)
              (Memory.data mem) (Z.to_nat (Cache.block_size c)) Hbase
              [] st mem Hst (ch_memory _ _ Hch))
    as (data & mem1 & E & Hok1 & Hsz & Hdata & Hwords).
  { rewrite (ch_size _ _ Hch). lia. }
  { done. }
  { intros o w Ho. by rewrite lookup_nil in Ho. }
  simpl in E. rewrite Z2Nat.id in E by lia.
  pose proof E as E'.
  apply fetch_block_inv in E' as [_ Hlen]; [|lia|lia].
  exists data, mem1. split_and!; try done.
  rewrite Hlen. lia.
Qed.

(** *** A set that changes *)

Lemma holder_update c c' (i : nat) s s' a :
  same_config c c' →
  Cache.sets c !! i = Some s →
  Cache.sets c' = <[i := s']> (Cache.sets c) →
  0 ≤ index_of c a →
  holder c' a
  = if decide (index_of c a = Z.of_nat i)
    then CacheSet.find_block s' (tag_of c a)
    else holder c a.
Proof.
  intros Hc Hs Hs' Hi. unfold holder, index_of, tag_of in *.
  rewrite (sc_block_size _ _ Hc), (sc_set_count _ _ Hc), Hs'.
  destruct (decide _) as [E|E].
  - rewrite E, Nat2Z.id. rewrite list_lookup_insert_eq; [done|].
    by eapply lookup_lt_Some.
  - rewrite list_lookup_insert_ne; [done|]. lia.
Qed.

Lemma delitem_elem {V} (d : OrderedDict.t V) k k' v' :
  NoDup (OrderedDict.keys d) →
  (k', v') ∈ OrderedDict.delitem d k → (k', v') ∈ d ∧ k' ≠ k.
Proof.
  intros Hnd Hel. split; [by eapply elem_of_delitem|].
  intros ->.
  pose proof (getitem_delitem_eq d k Hnd) as Hg.
  apply getitem_None_keys in Hg. apply Hg.
  unfold OrderedDict.keys. apply list_elem_of_fmap. by exists (k, v').
Qed.

(** A miss of [read] installs the block [new] in the set [i], in the
    place of the victim if there is one, which has been flushed to the
    memory: the cache agrees with the memory as before, and no address
    has changed its contents. *)
Lemma install_coherent c mem mem' c' (i : nat) s tag new victim :
  coherent c mem →
  Cache.sets c !! i = Some s →
  tag ∉ OrderedDict.keys (CacheSet.blocks s) →
  CacheBlock.base_address new
  = (tag * Cache.set_count c + Z.of_nat i) * Cache.block_size c →
  0 ≤ CacheBlock.base_address new < 2 ^ Cache.address_bit c →
  CacheBlock.dirty new = false →
  length (CacheBlock.data new)
  = Z.to_nat (Z.min (Cache.block_size c)
                (2 ^ Cache.address_bit c - CacheBlock.base_address new)) →
  (∀ o w, CacheBlock.data new !! o = Some w →
     cell_value <$>
       Memory.data mem !! Z.to_nat (CacheBlock.base_address new + Z.of_nat o)
     = Some w
     ∧ w ≠ PyNone) →
  (∀ v bv, victim = Some (v, bv) →
           OrderedDict.getitem (CacheSet.blocks s) v = Some bv) →
  memory_ok mem' →
  Memory.size mem' = Memory.size mem →
  (∀ a, 0 ≤ a < 2 ^ Cache.address_bit c →
     cell_value <$> Memory.data mem' !! Z.to_nat a
     = match victim with
       | Some (v, bv) =>
           if decide (tag_of c a = v ∧ index_of c a = Z.of_nat i)
           then CacheBlock.data bv !! Z.to_nat (a `mod` Cache.block_size c)
           else cell_value <$> Memory.data mem !! Z.to_nat a
       | None => cell_value <$> Memory.data mem !! Z.to_nat a
       end) →
  cache_ok c' →
  same_config c c' →
  Cache.sets c'
  = <[i := CacheSet.set_blocks
             (OrderedDict.setitem (without (CacheSet.blocks s) victim) tag new)
             s]> (Cache.sets c) →
  coherent c' mem'
  ∧ ∀ a, 0 ≤ a < 2 ^ Cache.address_bit c →
         contents c' mem' a = contents c mem a.
Proof.
  intros Hch Hs Htag Hbase Hrange Hclean Hlen Hnew Hvic Hok' Hsize Hmem'
    Hcok' Hcfg Hsets.
  pose proof (ch_cache _ _ Hch) as Hok.
  pose proof (ch_set_count _ _ Hch) as Hsc.
  pose proof (co_block_size _ Hok) as Hbs.
  pose proof (co_sets _ Hok _ _ Hs) as Hso.
  assert (Hi : 0 ≤ Z.of_nat i < Cache.set_count c).
  { apply lookup_lt_Some in Hs. rewrite (co_length _ Hok) in Hs. lia. }
  (* the victim is not the tag *)
  assert (Hvt : ∀ v bv, victim = Some (v, bv) → v ≠ tag).
  { intros v bv Hv ->. apply Htag. eapply getitem_key. by eapply Hvic. }
  (* the blocks of the set after *)
  assert (Hel : ∀ t b,
            (t, b) ∈ OrderedDict.setitem (without (CacheSet.blocks s) victim)
                       tag new →
            (t = tag ∧ b = new)
            ∨ ((t, b) ∈ CacheSet.blocks s
               ∧ ∀ v bv, victim = Some (v, bv) → t ≠ v)).
  { intros t b Hb. apply elem_of_setitem in Hb as [Hb | [= -> ->]]; [|by left].
    right. destruct victim as [[v bv]|]; simpl in Hb.
    - apply delitem_elem in Hb as [Hb Hne]; [|apply Hso].
      split; [done|]. by intros ? ? [= <- <-].
    - split; [done|]. by intros. }
  (* the memory after, away from the victim *)
  assert (Haway : ∀ a, 0 ≤ a < 2 ^ Cache.address_bit c →
            (∀ v bv, victim = Some (v, bv) →
                     ¬ (tag_of c a = v ∧ index_of c a = Z.of_nat i)) →
            cell_value <$> Memory.data mem' !! Z.to_nat a
            = cell_value <$> Memory.data mem !! Z.to_nat a).
  { intros a Ha Hno. rewrite (Hmem' a Ha).
    destruct victim as [[v bv]|]; [|done].
    rewrite decide_False; [done|]. by eapply Hno. }
  (* an address of the new block *)
  assert (Hnewaddr : ∀ o, (o < length (CacheBlock.data new))%nat →
            let a := CacheBlock.base_address new + Z.of_nat o in
            0 ≤ a < 2 ^ Cache.address_bit c
            ∧ tag_of c a = tag ∧ index_of c a = Z.of_nat i).
  { intros o Ho a.
    destruct (split_of_block (Cache.block_size c) (Cache.set_count c) tag
                (Z.of_nat i) (Z.of_nat o)) as (E1 & E2 & _); try lia.
    subst a. rewrite Hbase in *. unfold tag_of, index_of.
    split_and!; try done; lia. }
  split.
  - split.
    + done.
    + rewrite (sc_policy _ _ Hcfg). apply Hch.
    + rewrite (sc_set_count _ _ Hcfg). done.
    + done.
    + rewrite Hsize, (sc_address_bit _ _ Hcfg). apply Hch.
    + intros j sj t b o w Hsj Hb Hw. rewrite Hsets in Hsj.
      destruct (decide (j = i)) as [->|Hne].
      * rewrite list_lookup_insert_eq in Hsj by by eapply lookup_lt_Some.
        injection Hsj as <-. simpl in Hb.
        apply Hel in Hb as [[-> ->] | [Hb Hnv]].
        -- destruct (Hnew o w Hw) as [Hcell Hnone]. split; [done|].
           intros _.
           destruct (Hnewaddr o) as (Ha & Ht & Hix).
           { by eapply lookup_lt_Some. }
           rewrite Haway; [done|done|].
           intros v bv Hv [Hv' _]. eapply Hvt; [done|]. congruence.
        -- destruct (ch_words _ _ Hch _ _ _ _ _ _ Hs Hb Hw) as [Hnone Hcell].
           split; [done|]. intros Hd.
           destruct (word_address c i s t b o Hok Hs Hb)
             as (Ha & Ht & Hix & _).
           { by eapply lookup_lt_Some. }
           rewrite Haway; [by apply Hcell|done|].
           intros v bv Hv [Hv' _]. eapply Hnv; [done|]. congruence.
      * rewrite list_lookup_insert_ne in Hsj by done.
        destruct (ch_words _ _ Hch _ _ _ _ _ _ Hsj Hb Hw) as [Hnone Hcell].
        split; [done|]. intros Hd.
        destruct (word_address c j sj t b o Hok Hsj Hb)
          as (Ha & Ht & Hix & _).
        { by eapply lookup_lt_Some. }
        rewrite Haway; [by apply Hcell|done|].
        intros v bv Hv [_ Hv']. lia.
  - intros a Ha.
    destruct (split_parts c a Hok Hsc ltac:(lia)) as (_ & Hia & Hoa & _).
    unfold contents.
    rewrite (holder_update c c' i s _ a Hcfg Hs Hsets) by lia.
    rewrite (sc_block_size _ _ Hcfg).
    destruct (decide (index_of c a = Z.of_nat i)) as [Hix|Hix].
    2: { destruct (holder c a); [done|].
         apply Haway; [done|]. intros v bv _ [_ ?]. done. }
    assert (Hh : holder c a = CacheSet.find_block s (tag_of c a)).
    { unfold holder. by rewrite Hix, Nat2Z.id, Hs. }
    rewrite Hh. unfold CacheSet.find_block. simpl.
    destruct (decide (tag_of c a = tag)) as [Ht|Ht].
    + rewrite Ht, getitem_setitem_eq.
      assert (Hnone : OrderedDict.getitem (CacheSet.blocks s) tag = None).
      { by apply getitem_None_keys. }
      rewrite Hnone.
      pose proof (offset_in_block c tag (Z.of_nat i) a Hbs Hsc Ht Hix) as Hoff.
      destruct (lookup_lt_is_Some_2 (CacheBlock.data new)
                  (Z.to_nat (a `mod` Cache.block_size c))) as [w Hw].
      { rewrite Hlen, Hbase. lia. }
      rewrite Hw. destruct (Hnew _ _ Hw) as [Hcell _].
      rewrite <- Hcell. f_equal. f_equal. rewrite Hbase. lia.
    + rewrite getitem_setitem_ne by done.
      destruct victim as [[v bv]|]; simpl.
      * destruct (decide (tag_of c a = v)) as [Hv|Hv].
        -- rewrite Hv, getitem_delitem_eq by apply Hso.
           rewrite (Hvic v bv eq_refl).
           rewrite (Hmem' a Ha). rewrite decide_True; done.
        -- rewrite getitem_delitem_ne by done.
           destruct (OrderedDict.getitem _ _); [done|].
           apply Haway; [done|]. intros ? ? [= <- <-] [? _]. done.
      * destruct (OrderedDict.getitem _ _); [done|].
        apply Haway; [done|]. by intros.
Qed.

Lemma setitem_same {V} (d : OrderedDict.t V) k v :
  OrderedDict.getitem d k = Some v → OrderedDict.setitem d k v = d.
Proof.
  induction d as [|[k' v'] d IH]; simpl; [done|].
  destruct (Z.eqb_spec k k') as [->|Hne].
  - by intros [= ->].
  - intros H. f_equal. by apply IH.
Qed.

(** A hit assigns to fields of the block [b], which becomes [b']: the
    cache agrees with the memory as before, and only the addresses of the
    block can change their contents. *)
Lemma touch_coherent c mem c' (i : nat) s tag b b' :
  coherent c mem →
  Cache.sets c !! i = Some s →
  OrderedDict.getitem (CacheSet.blocks s) tag = Some b →
  CacheBlock.base_address b' = CacheBlock.base_address b →
  (∀ o w, CacheBlock.data b' !! o = Some w → w ≠ PyNone) →
  (CacheBlock.dirty b' = false →
   CacheBlock.dirty b = false ∧ CacheBlock.data b' = CacheBlock.data b) →
  cache_ok c' →
  same_config c c' →
  Cache.sets c'
  = <[i := CacheSet.set_blocks
             (OrderedDict.setitem (CacheSet.blocks s) tag b') s]>
      (Cache.sets c) →
  coherent c' mem
  ∧ ∀ a, 0 ≤ a < 2 ^ Cache.address_bit c →
      contents c' mem a
      = if decide (tag_of c a = tag ∧ index_of c a = Z.of_nat i)
        then CacheBlock.data b' !! Z.to_nat (a `mod` Cache.block_size c)
        else contents c mem a.
Proof.
  intros Hch Hs Hb Hbase Hwords Hclean Hcok' Hcfg Hsets.
  pose proof (ch_cache _ _ Hch) as Hok.
  pose proof (ch_set_count _ _ Hch) as Hsc.
  pose proof (getitem_Some_elem _ _ _ Hb) as Hel.
  split.
  - split.
    + done.
    + rewrite (sc_policy _ _ Hcfg). apply Hch.
    + rewrite (sc_set_count _ _ Hcfg). done.
    + apply Hch.
    + rewrite (sc_address_bit _ _ Hcfg). apply Hch.
    + intros j sj t x o w Hsj Hx Hw. rewrite Hsets in Hsj.
      destruct (decide (j = i)) as [->|Hne].
      * rewrite list_lookup_insert_eq in Hsj by by eapply lookup_lt_Some.
        injection Hsj as <-. simpl in Hx.
        apply elem_of_setitem in Hx as [Hx | [= -> ->]].
        -- by apply (ch_words _ _ Hch _ _ _ _ _ _ Hs Hx Hw).
        -- split; [by eapply Hwords|]. intros Hd.
           destruct (Hclean Hd) as [Hdb Hdata].
           rewrite Hdata in Hw. rewrite Hbase.
           by apply (ch_words _ _ Hch _ _ _ _ _ _ Hs Hel Hw).
      * rewrite list_lookup_insert_ne in Hsj by done.
        by apply (ch_words _ _ Hch _ _ _ _ _ _ Hsj Hx Hw).
  - intros a Ha.
    destruct (split_parts c a Hok Hsc ltac:(lia)) as (_ & Hia & _).
    unfold contents.
    rewrite (holder_update c c' i s _ a Hcfg Hs Hsets) by lia.
    rewrite (sc_block_size _ _ Hcfg).
    destruct (decide (index_of c a = Z.of_nat i)) as [Hix|Hix].
    2: { rewrite decide_False; [done|]. by intros [_ ?]. }
    assert (Hh : holder c a = CacheSet.find_block s (tag_of c a)).
    { unfold holder. by rewrite Hix, Nat2Z.id, Hs. }
    rewrite Hh. unfold CacheSet.find_block. simpl.
    destruct (decide (tag_of c a = tag)) as [Ht|Ht].
    + rewrite decide_True by done. by rewrite Ht, getitem_setitem_eq.
    + rewrite decide_False by by intros [? _].
      by rewrite getitem_setitem_ne.
Qed.

(** A miss of [write] stores the value in the memory: the cache agrees
    with the memory as before, and only the address written has changed
    its contents. *)
Lemma write_miss_coherent c mem c' a z :
  coherent c mem →
  0 ≤ a < 2 ^ Cache.address_bit c →
  holder c a = None →
  cache_ok c' →
  same_config c c' →
  Cache.sets c' = Cache.sets c →
  coherent c'
    (Memory.mk (Memory.size mem)
       (<[Z.to_nat a := PyInt z]> (Memory.data mem))
       (Memory.access_count mem + 1))
  ∧ ∀ a', 0 ≤ a' < 2 ^ Cache.address_bit c →
      contents c'
        (Memory.mk (Memory.size mem)
           (<[Z.to_nat a := PyInt z]> (Memory.data mem))
           (Memory.access_count mem + 1)) a'
      = if decide (a' = a) then Some (PyInt z) else contents c mem a'.
Proof.
  intros Hch Ha Hh Hcok' Hcfg Hsets.
  pose proof (ch_cache _ _ Hch) as Hok.
  destruct (ch_memory _ _ Hch) as [Hsz Hlen].
  split.
  - split.
    + done.
    + rewrite (sc_policy _ _ Hcfg). apply Hch.
    + rewrite (sc_set_count _ _ Hcfg). apply Hch.
    + split; [done|]. simpl. by rewrite length_insert.
    + simpl. rewrite (sc_address_bit _ _ Hcfg). apply Hch.
    + intros j sj t x o w Hsj Hx Hw. rewrite Hsets in Hsj. simpl.
      destruct (ch_words _ _ Hch _ _ _ _ _ _ Hsj Hx Hw) as [Hnone Hcell].
      split; [done|]. intros Hd.
      destruct (word_address c j sj t x o Hok Hsj Hx)
        as (Hax & _ & _ & _ & Hhx).
      { by eapply lookup_lt_Some. }
      rewrite list_lookup_insert_ne; [by apply Hcell|].
      intros E. apply Z2Nat.inj in E; [|lia|lia].
      rewrite <- E in Hhx. congruence.
  - intros a' Ha'. unfold contents.
    assert (Hh' : holder c' a' = holder c a').
    { unfold holder, index_of, tag_of.
      by rewrite Hsets, (sc_block_size _ _ Hcfg), (sc_set_count _ _ Hcfg). }
    rewrite Hh', (sc_block_size _ _ Hcfg). simpl.
    destruct (decide (a' = a)) as [->|Hne].
    + rewrite Hh. rewrite list_lookup_insert_eq; [done|].
      rewrite Hlen, (ch_size _ _ Hch). lia.
    + destruct (holder c a'); [done|].
      rewrite list_lookup_insert_ne; [done|].
      intros E. apply Z2Nat.inj in E; lia.
Qed.

(** *** One call *)

Lemma word_at_lookup data offset w :
  0 ≤ offset → data !! Z.to_nat offset = Some w → word_at data offset = Ok w.
Proof.
  intros Ho Hw. unfold word_at, list_getitem.
  destruct data as [|x data]; [by rewrite lookup_nil in Hw|].
  destruct (Z.leb_spec 0 offset); [|lia]. by rewrite Hw.
Qed.

Lemma miss_holder c a s :
  cache_ok c →
  Cache.sets c !! Z.to_nat (index_of c a) = Some s →
  is_hit s (tag_of c a) = false →
  holder c a = None.
Proof.
  intros Hok Hs Hmiss. unfold holder. rewrite Hs.
  apply getitem_None_keys.
  by eapply miss_not_key; [apply (co_sets _ Hok _ _ Hs)|].
Qed.

(** A [read] of a valid address through the memory of the cache returns
    the contents of the address and changes the contents of no address. *)
Lemma read_coherent c st mem a :
  coherent c mem →
  mems st !! Cache.memory c = Some mem →
  0 ≤ a < 2 ^ Cache.address_bit c →
  ∃ c' st' mem' v,
    Cache.read a (Cache.memory c) (c, st) = ((c', st'), Ok v)
    ∧ contents c mem a = Some v
    ∧ mems st' !! Cache.memory c = Some mem'
    ∧ coherent c' mem'
    ∧ same_config c c'
    ∧ ∀ a', 0 ≤ a' < 2 ^ Cache.address_bit c →
            contents c' mem' a' = contents c mem a'.
Proof.
  intros Hch Hst Ha.
  pose proof (ch_cache _ _ Hch) as Hok.
  pose proof (ch_set_count _ _ Hch) as Hsc.
  pose proof (co_block_size _ Hok) as Hbs.
  destruct (split_parts c a Hok Hsc ltac:(lia)) as (Hsplit & Hi & Ho & s & Hs).
  pose proof (co_sets _ Hok _ _ Hs) as Hso.
  assert (Hiz : Z.of_nat (Z.to_nat (index_of c a)) = index_of c a) by lia.
  destruct (is_hit s (tag_of c a)) eqn:Hhit.
  - (* hit *)
    destruct (is_hit_block _ _ Hhit) as (b & Hb & Hv).
    pose proof (read_hit a (Cache.memory c) c st _ _ _ s b Hsplit
                  ltac:(lia) Hs Hb Hv) as E.
    assert (Hh : holder c a = Some b).
    { unfold holder. by rewrite Hs. }
    destruct (holder_word c a b Hok Hsc ltac:(lia) Hh) as (_ & Hlen & _).
    destruct (lookup_lt_is_Some_2 _ _ Hlen) as [w Hw].
    rewrite (word_at_lookup _ _ w) in E by (done || lia).
    pose proof (read_preserves _ _ _ _ _ _ _ Hok E) as Hok'.
    destruct (read_hit_cache_fields c (index_of c a) (tag_of c a) s b)
      as (Hcfg & _).
    set (b' := if String.eqb (Cache.policy c) "LRU"
               then CacheBlock.set_last_time (Cache.time c) b else b).
    destruct (touch_coherent c mem
                (read_hit_cache c (index_of c a) (tag_of c a) s b)
                (Z.to_nat (index_of c a)) s (tag_of c a) b b' Hch Hs Hb)
      as [Hch' Hcont]; try done.
    { unfold b'. by destruct (String.eqb _ _). }
    { unfold b'. intros o x Hx.
      assert (Hx' : CacheBlock.data b !! o = Some x).
      { by destruct (String.eqb _ _). }
      by destruct (ch_words _ _ Hch _ _ _ _ _ _ Hs
                     (find_block_elem _ _ _ Hb) Hx'). }
    { unfold b'. by destruct (String.eqb _ _). }
    { unfold read_hit_cache, with_block, b'.
      destruct (String.eqb _ _); simpl; [done|].
      rewrite setitem_same by done.
      symmetry. apply list_insert_id. rewrite Hs. by destruct s. }
    eexists _, st, mem, w. split_and!; try done.
    + unfold contents. by rewrite Hh.
    + intros a' Ha'. rewrite (Hcont a' Ha'). rewrite Hiz.
      destruct (decide _) as [[Ht Hix]|]; [|done].
      unfold contents, holder. rewrite Hix, Hs, Ht.
      unfold CacheSet.find_block in Hb. unfold CacheSet.find_block.
      rewrite Hb. unfold b'. by destruct (String.eqb _ _).
  - (* miss *)
    pose proof (miss_holder c a s Hok Hs Hhit) as Hh.
    pose proof (miss_not_key _ _ _ _ Hso Hhit) as Hnk.
    pose proof (read_miss a (Cache.memory c) c st _ _ _ s Hsplit
                  ltac:(lia) Hs Hhit) as E.
    unfold read_miss_outcome in E.
    destruct (fetch_block c st mem a Hch Hst Ha)
      as (data & mem1 & Ef & Hok1 & Hsz1 & Hdata1 & Hoff & Hlen & Hwords).
    rewrite Ef in E.
    set (base := a `div` Cache.block_size c * Cache.block_size c) in *.
    set (new := CacheBlock.mk (tag_of c a) true false (Cache.block_size c)
                  data base (Cache.time c) (Cache.time c)) in *.
    set (st1 := set_mems (<[Cache.memory c := mem1]> (mems st)) st) in *.
    assert (Hst1 : mems st1 !! Cache.memory c = Some mem1).
    { simpl. apply list_lookup_insert_eq. by eapply lookup_lt_Some. }
    destruct (split_base _ _ _ _ _ Hok Hsplit) as (Hbase & Hsum & _).
    fold base in Hbase, Hsum.
    assert (Hbase0 : 0 ≤ base < 2 ^ Cache.address_bit c).
    { pose proof (Z.div_pos a (Cache.block_size c) ltac:(lia) Hbs).
      unfold base. split; [nia|lia]. }
    destruct (lookup_lt_is_Some_2 _ _ Hoff) as [w Hw].
    assert (Hps : CacheSet.policy s ∈ ["FIFO"; "LRU"; "RANDOM"]).
    { rewrite (so_policy _ _ _ Hso). apply Hch. }
    assert (Has : 0 < CacheSet.associativity s).
    { rewrite (so_associativity _ _ _ Hso). apply Hok. }
    assert (Hcw : contents c mem a = Some w).
    { unfold contents. rewrite Hh.
      destruct (Hwords _ _ Hw) as [Hcell _].
      rewrite <- Hcell. f_equal. f_equal. lia. }
    destruct (add_block_valid new s st1 Hps Has)
      as [[Hroom Ea] | (Hfull & st2 & v & bv & Hbv & Hm2 & _ & Ea)];
      rewrite Ea in E; clear Ea.
    + (* a free place *)
      rewrite (word_at_lookup _ _ w) in E by (done || lia).
      match type of E with _ = ((?c1, _), _) => set (c' := c1) in * end.
      pose proof (read_preserves _ _ _ _ _ _ _ Hok E) as Hok'.
      destruct (read_frame _ _ _ _ _ _ _ E) as (Hcfg & _).
      destruct (install_coherent c mem mem1 c' (Z.to_nat (index_of c a)) s
                  (tag_of c a) new None Hch Hs Hnk) as [Hch' Hcont];
        try done.
      { simpl. rewrite Hiz. done. }
      { intros a' Ha'. by rewrite Hdata1. }
      eexists _, st1, mem1, w. split_and!; done.
    + (* the place of a victim *)
      assert (Hst2 : mems st2 !! Cache.memory c = Some mem1) by by rewrite Hm2.
      destruct (flush_cells c mem mem1 st2 _ s v bv Hch Hs Hbv Hst2 Hok1
                  Hsz1 Hdata1) as (mem2 & Efl & Hok2 & Hsz2 & Hcells).
      rewrite Efl in E.
      rewrite (word_at_lookup _ _ w) in E by (done || lia).
      match type of E with _ = ((?c1, _), _) => set (c' := c1) in * end.
      pose proof (read_preserves _ _ _ _ _ _ _ Hok E) as Hok'.
      destruct (read_frame _ _ _ _ _ _ _ E) as (Hcfg & _).
      destruct (install_coherent c mem mem2 c' (Z.to_nat (index_of c a)) s
                  (tag_of c a) new (Some (v, bv)) Hch Hs Hnk)
        as [Hch' Hcont]; try done.
      { simpl. rewrite Hiz. done. }
      { by intros ? ? [= <- <-]. }
      eexists _, _, mem2, w. split_and!; try done.
      simpl. apply list_lookup_insert_eq. by eapply lookup_lt_Some.
Qed.

(** A [write] of an integer to a valid address through the memory of the
    cache makes it the contents of the address and changes the contents
    of no other address. *)
Lemma write_coherent c st mem a z :
  coherent c mem →
  mems st !! Cache.memory c = Some mem →
  0 ≤ a < 2 ^ Cache.address_bit c →
  ∃ c' st' mem',
    Cache.write a (PyInt z) (Cache.memory c) (c, st) = ((c', st'), Ok tt)
    ∧ mems st' !! Cache.memory c = Some mem'
    ∧ coherent c' mem'
    ∧ same_config c c'
    ∧ ∀ a', 0 ≤ a' < 2 ^ Cache.address_bit c →
        contents c' mem' a'
        = if decide (a' = a) then Some (PyInt z) else contents c mem a'.
Proof.
  intros Hch Hst Ha.
  pose proof (ch_cache _ _ Hch) as Hok.
  pose proof (ch_set_count _ _ Hch) as Hsc.
  pose proof (co_block_size _ Hok) as Hbs.
  destruct (split_parts c a Hok Hsc ltac:(lia)) as (Hsplit & Hi & Ho & s & Hs).
  pose proof (co_sets _ Hok _ _ Hs) as Hso.
  assert (Hiz : Z.of_nat (Z.to_nat (index_of c a)) = index_of c a) by lia.
  destruct (is_hit s (tag_of c a)) eqn:Hhit.
  - (* hit *)
    destruct (is_hit_block _ _ Hhit) as (b & Hb & Hv).
    destruct (write_hit_ok c st a (PyInt z) (Cache.memory c) _ _ _ _ _ Hok
                Hsplit Hs Hb) as [Hlen E].
    match type of E with _ = ((?c1, _), _) => set (c' := c1) in * end.
    pose proof (write_preserves _ _ _ _ _ _ _ _ Hok E) as Hok'.
    destruct (write_frame _ _ _ _ _ _ _ _ E) as (Hcfg & _).
    set (b' := touched c
                 (CacheBlock.set_dirty true
                    (CacheBlock.set_data
                       (<[Z.to_nat (a `mod` Cache.block_size c) := PyInt z]>
                          (CacheBlock.data b)) b))) in *.
    destruct (touched_fields c
                (CacheBlock.set_dirty true
                   (CacheBlock.set_data
                      (<[Z.to_nat (a `mod` Cache.block_size c) := PyInt z]>
                         (CacheBlock.data b)) b)))
      as (Hd & Hdata & _ & Hbase & _).
    fold b' in Hd, Hdata, Hbase. simpl in Hd, Hdata, Hbase.
    destruct (touch_coherent c mem c' (Z.to_nat (index_of c a)) s
                (tag_of c a) b b' Hch Hs Hb) as [Hch' Hcont]; try done.
    { intros o w Hw. rewrite Hdata in Hw.
      apply list_lookup_insert_Some in Hw as [(_ & <- & _) | [_ Hw]]; [done|].
      by destruct (ch_words _ _ Hch _ _ _ _ _ _ Hs
                     (find_block_elem _ _ _ Hb) Hw). }
    { by rewrite Hd. }
    eexists c', st, mem. split_and!; try done.
    intros a' Ha'. rewrite (Hcont a' Ha'), Hiz.
    destruct (decide (a' = a)) as [->|Hne].
    + rewrite decide_True by done.
      rewrite Hdata. by apply list_lookup_insert_eq.
    + destruct (decide _) as [[Ht Hix]|]; [|done].
      rewrite Hdata.
      pose proof (recombine (Cache.block_size c) (Cache.set_count c) a Hbs Hsc)
        as Hra.
      pose proof (recombine (Cache.block_size c) (Cache.set_count c) a' Hbs Hsc)
        as Hra'.
      unfold tag_of, index_of in Ht, Hix.
      pose proof (Z.mod_pos_bound a' (Cache.block_size c) Hbs).
      rewrite list_lookup_insert_ne.
      2: { intros Eo. apply Z2Nat.inj in Eo; [|lia|lia].
           apply Hne. rewrite <- Hra, <- Hra', Ht, Hix, Eo. done. }
      unfold contents, holder.
      fold (index_of c a'). fold (tag_of c a').
      unfold index_of at 1. rewrite Hix. fold (index_of c a).
      rewrite Hs. unfold tag_of at 1. rewrite Ht. fold (tag_of c a).
      by rewrite Hb.
  - (* miss *)
    pose proof (miss_holder c a s Hok Hs Hhit) as Hh.
    pose proof (write_miss a (PyInt z) (Cache.memory c) c st _ _ _ s Hsplit
                  ltac:(lia) Hs Hhit) as E.
    unfold write_miss_outcome, at_ref in E. rewrite Hst in E.
    rewrite memory_write_ok in E;
      [|apply Hch|rewrite (ch_size _ _ Hch); lia].
    match type of E with _ = ((?c1, _), _) => set (c' := c1) in * end.
    pose proof (write_preserves _ _ _ _ _ _ _ _ Hok E) as Hok'.
    destruct (write_frame _ _ _ _ _ _ _ _ E) as (Hcfg & _).
    destruct (write_miss_coherent c mem c' a z Hch Ha Hh Hok' Hcfg eq_refl)
      as [Hch' Hcont].
    eexists c', _, _. split_and!; try done.
    simpl. apply list_lookup_insert_eq. by eapply lookup_lt_Some.
Qed.

(** *** A cache that is served through its memory *)

Lemma coherent_ext c c' mem mem' :
  coherent c mem →
  cache_ok c' →
  same_config c c' →
  Cache.sets c' = Cache.sets c →
  memory_ok mem' →
  Memory.size mem' = Memory.size mem →
  Memory.data mem' = Memory.data mem →
  coherent c' mem'.
Proof.
  intros Hch Hok' Hcfg Hsets Hm' Hsz Hdata. split.
  - done.
  - rewrite (sc_policy _ _ Hcfg). apply Hch.
  - rewrite (sc_set_count _ _ Hcfg). apply Hch.
  - done.
  - rewrite Hsz, (sc_address_bit _ _ Hcfg). apply Hch.
  - intros i s t b o w Hs Hb Hw. rewrite Hsets in Hs. rewrite Hdata.
    by apply (ch_words _ _ Hch _ _ _ _ _ _ Hs Hb Hw).
Qed.

(** A call for an address that is not in the address space changes
    neither a set nor the memory. *)
Lemma stray_read c st mem address c' st' r :
  coherent c mem →
  mems st !! Cache.memory c = Some mem →
  ¬ (0 ≤ address < 2 ^ Cache.address_bit c) →
  Cache.read address (Cache.memory c) (c, st) = ((c', st'), r) →
  st' = st ∧ Cache.sets c' = Cache.sets c.
Proof.
  intros Hch Hst Ha H.
  destruct (Z.lt_ge_cases address 0) as [Hneg|Hpos].
  - destruct (negative_address_outcome c st address PyNone (Cache.memory c)
                mem (ch_cache _ _ Hch) (ch_set_count _ _ Hch) Hneg Hst)
      as [E _].
    rewrite E in H. by injection H as <- <- <-.
  - rewrite (read_split_raise _ _ _ _ _
               (address_split_raise_range c address ltac:(lia))) in H.
    by injection H as <- <- <-.
Qed.

Lemma stray_write c st mem address data c' st' r :
  coherent c mem →
  mems st !! Cache.memory c = Some mem →
  ¬ (0 ≤ address < 2 ^ Cache.address_bit c) →
  Cache.write address data (Cache.memory c) (c, st) = ((c', st'), r) →
  st' = st ∧ Cache.sets c' = Cache.sets c.
Proof.
  intros Hch Hst Ha H.
  destruct (Z.lt_ge_cases address 0) as [Hneg|Hpos].
  - destruct (negative_address_outcome c st address data (Cache.memory c)
                mem (ch_cache _ _ Hch) (ch_set_count _ _ Hch) Hneg Hst)
      as [_ E].
    rewrite E in H. by injection H as <- <- <-.
  - rewrite (write_split_raise _ _ _ _ _ _
               (address_split_raise_range c address ltac:(lia))) in H.
    by injection H as <- <- <-.
Qed.

Lemma served_coherent w :
  served w →
  ∃ mem, mems w.2 !! Cache.memory w.1 = Some mem ∧ coherent w.1 mem.
Proof.
  induction 1 as [cs bs a p ab m c st mem Hinit Hsc Hst Hm Hsize
                 | [c st] address [c' st'] r Hw IH H
                 | [c st] address z [c' st'] r Hw IH H]; simpl in *.
  - pose proof (init_ok _ _ _ _ _ _ _ Hinit) as Hok.
    apply init_inv in Hinit as (_ & _ & Hp & ->). simpl in *.
    exists mem. split; [done|]. split; try done.
    intros i s t b o w Hs Hb.
    apply list_lookup_fmap_Some in Hs as (k & -> & _).
    by apply elem_of_nil in Hb.
  - destruct IH as (mem & Hst & Hch).
    pose proof (read_preserves _ _ _ _ _ _ _ (ch_cache _ _ Hch) H) as Hok'.
    destruct (read_frame _ _ _ _ _ _ _ H) as (Hcfg & _).
    rewrite (sc_memory _ _ Hcfg).
    destruct (decide (0 ≤ address < 2 ^ Cache.address_bit c)) as [Ha|Ha].
    + destruct (read_coherent c st mem address Hch Hst Ha)
        as (c1 & st1 & mem1 & v & E & _ & Hst1 & Hch1 & _).
      rewrite E in H. injection H as <- <- <-. by exists mem1.
    + destruct (stray_read _ _ _ _ _ _ _ Hch Hst Ha H) as [-> Hsets].
      exists mem. split; [done|].
      eapply coherent_ext; try done. apply Hch.
  - destruct IH as (mem & Hst & Hch).
    pose proof (write_preserves _ _ _ _ _ _ _ _ (ch_cache _ _ Hch) H) as Hok'.
    destruct (write_frame _ _ _ _ _ _ _ _ H) as (Hcfg & _).
    rewrite (sc_memory _ _ Hcfg).
    destruct (decide (0 ≤ address < 2 ^ Cache.address_bit c)) as [Ha|Ha].
    + destruct (write_coherent c st mem address z Hch Hst Ha)
        as (c1 & st1 & mem1 & E & Hst1 & Hch1 & _).
      rewrite E in H. injection H as <- <- <-. by exists mem1.
    + destruct (stray_write _ _ _ _ _ _ _ _ Hch Hst Ha H) as [-> Hsets].
      exists mem. split; [done|].
      eapply coherent_ext; try done. apply Hch.
Qed.

Lemma run_ops_served ops :
  ∀ w w' r,
    served w →
    Forall (λ o, match o with
                 | Read _ => True
                 | Write _ data => ∃ z, data = PyInt z
                 end) ops →
    run_ops (Cache.memory w.1) ops w = (w', r) →
    served w'.
Proof.
  induction ops as [|o ops IH]; intros w w' r Hw Hall H.
  - by injection H as <- <-.
  - apply Forall_cons in Hall as [Ho Hall].
    rewrite run_ops_cons in H.
    destruct (run_op (Cache.memory w.1) o w) as [w1 r1] eqn:E.
    assert (Hw1 : served w1).
    { destruct o as [address | address data].
      - rewrite run_op_read in E.
        destruct (Cache.read address (Cache.memory w.1) w) as [w2 r2] eqn:E2.
        assert (w2 = w1) as -> by by destruct r2; injection E.
        by eapply served_read.
      - destruct Ho as [z ->]. by eapply served_write. }
    assert (Hm : Cache.memory w1.1 = Cache.memory w.1).
    { destruct w as [c st], w1 as [c1 st1].
      apply run_op_frame in E as (Hcfg & _). apply Hcfg. }
    destruct r1 as [[]|e].
    + rewrite <- Hm in H. by eapply IH.
    + by injection H as <- <-.
Qed.

Lemma demo_served : served (demo_cache, demo_store).
Proof.
  eapply (served_init 8 2 2 "LRU" 4 0%nat).
  - apply demo_cache_init.
  - done.
  - reflexivity.
  - apply demo_store_ok.
  - reflexivity.
Qed.

Lemma demo_world_served : served demo_world.
Proof.
  eapply (run_ops_served demo_trace (demo_cache, demo_store) demo_world
            (Ok tt) demo_served).
  - unfold demo_trace. repeat constructor; by eexists.
  - reflexivity.
Qed.

(** X19. In a cache that is served through its memory, a [read] of a valid
    address returns the word that the cache and the memory hold for it:
    the word of its block if it is cached, the cell of the memory
    otherwise.  The call returns under each policy, and it changes the
    word held for no address, not even when it evicts a dirty block. *)
Theorem read_returns_the_contents (w : World) (address : Z) :
  served w →
  0 ≤ address < 2 ^ Cache.address_bit w.1 →
  ∃ w' v,
    Cache.read address (Cache.memory w.1) w = (w', Ok v)
    ∧ world_contents w address = Some v
    ∧ ∀ a, 0 ≤ a < 2 ^ Cache.address_bit w.1 →
           world_contents w' a = world_contents w a.
Proof.
  intros Hw Ha. destruct w as [c st].
  destruct (served_coherent _ Hw) as (mem & Hst & Hch). simpl in *.
  destruct (read_coherent c st mem address Hch Hst Ha)
    as (c' & st' & mem' & v & E & Hv & Hst' & Hch' & Hcfg & Hcont).
  exists (c', st'), v. unfold world_contents. simpl.
  rewrite Hst, (sc_memory _ _ Hcfg), Hst'. done.
Qed.

Lemma read_returns_the_contents_witness :
  ∃ w' v,
    Cache.read 8 (Cache.memory demo_world.1) demo_world = (w', Ok v)
    ∧ world_contents demo_world 8 = Some v
    ∧ ∀ a, 0 ≤ a < 2 ^ Cache.address_bit demo_world.1 →
           world_contents w' a = world_contents demo_world a.
Proof.
  apply (read_returns_the_contents demo_world 8).
  - apply demo_world_served.
  - by vm_compute.
Defined.

(** X20. In a cache that is served through its memory, a [write] of an
    integer to a valid address returns, makes the integer the word held
    for the address, and changes the word held for no other address. *)
Theorem write_sets_the_contents (w : World) (address z : Z) :
  served w →
  0 ≤ address < 2 ^ Cache.address_bit w.1 →
  ∃ w',
    Cache.write address (PyInt z) (Cache.memory w.1) w = (w', Ok tt)
    ∧ ∀ a, 0 ≤ a < 2 ^ Cache.address_bit w.1 →
        world_contents w' a
        = if decide (a = address) then Some (PyInt z)
          else world_contents w a.
Proof.
  intros Hw Ha. destruct w as [c st].
  destruct (served_coherent _ Hw) as (mem & Hst & Hch). simpl in *.
  destruct (write_coherent c st mem address z Hch Hst Ha)
    as (c' & st' & mem' & E & Hst' & Hch' & Hcfg & Hcont).
  exists (c', st'). unfold world_contents. simpl.
  rewrite Hst, (sc_memory _ _ Hcfg), Hst'. done.
Qed.

Lemma write_sets_the_contents_witness :
  ∃ w',
    Cache.write 5 (PyInt 8) (Cache.memory demo_world.1) demo_world
    = (w', Ok tt)
    ∧ ∀ a, 0 ≤ a < 2 ^ Cache.address_bit demo_world.1 →
        world_contents w' a
        = if decide (a = 5) then Some (PyInt 8)
          else world_contents demo_world a.
Proof.
  apply (write_sets_the_contents demo_world 5 8).
  - apply demo_world_served.
  - by vm_compute.
Defined.

(** The words that the small cache holds after its five calls: 7 at
    address 1 is in a dirty block, 3 at address 9 is in the memory. *)
Example demo_world_contents :
  world_contents demo_world <$> [0; 1; 4; 5; 9; 15]
  = Some <$> [PyInt 0; PyInt 7; PyInt 0; PyInt 0; PyInt 3; PyInt 0].
Proof. reflexivity. Qed.

(** *** A trace on the cache and on a memory alone *)

Lemma transparent_run ops :
  ∀ c st mem plain,
    coherent c mem →
    mems st !! Cache.memory c = Some mem →
    memory_ok plain →
    Memory.size plain = 2 ^ Cache.address_bit c →
    (∀ a, 0 ≤ a < 2 ^ Cache.address_bit c →
          contents c mem a = cell_value <$> Memory.data plain !! Z.to_nat a) →
    valid_trace (Cache.address_bit c) ops →
    ∃ w' plain' vs,
      cache_reads (Cache.memory c) ops (c, st) = (w', Ok vs)
      ∧ memory_reads ops plain = (plain', Ok vs)
      ∧ ∀ a, 0 ≤ a < 2 ^ Cache.address_bit c →
          world_contents w' a
          = cell_value <$> Memory.data plain' !! Z.to_nat a.
Proof.
  induction ops as [|o ops IH]; intros c st mem plain Hch Hst Hp Hsz Hagree Hv.
  - exists (c, st), plain, []. split_and!; [done|done|].
    intros a Ha. unfold world_contents. simpl. rewrite Hst. by apply Hagree.
  - apply Forall_cons in Hv as [[Ha Hd] Hv].
    destruct o as [address | address data]; simpl in Ha.
    + destruct (read_coherent c st mem address Hch Hst Ha)
        as (c' & st' & mem' & v & E & Hcv & Hst' & Hch' & Hcfg & Hcont).
      destruct (memory_read_ok address plain Hp ltac:(lia))
        as (x & Hx & Er).
      set (plain1 := Memory.set_access_count _ plain) in *.
      assert (v = cell_value x) as ->.
      { rewrite (Hagree _ Ha), Hx in Hcv. by injection Hcv. }
      destruct (IH c' st' mem' plain1) as (w' & plain' & vs & E1 & E2 & Hfin).
      * done.
      * by rewrite (sc_memory _ _ Hcfg).
      * destruct Hp. by split.
      * by rewrite (sc_address_bit _ _ Hcfg).
      * rewrite (sc_address_bit _ _ Hcfg). intros a Haa.
        rewrite (Hcont a Haa). by apply Hagree.
      * by rewrite (sc_address_bit _ _ Hcfg).
      * exists w', plain', (cell_value x :: vs). simpl. unfold bind.
        rewrite E, Er. rewrite (sc_memory _ _ Hcfg) in E1. rewrite E1, E2.
        split_and!; [done|done|].
        rewrite (sc_address_bit _ _ Hcfg) in Hfin. done.
    + destruct Hd as [z ->].
      destruct (write_coherent c st mem address z Hch Hst Ha)
        as (c' & st' & mem' & E & Hst' & Hch' & Hcfg & Hcont).
      pose proof (memory_write_ok address (PyInt z) plain Hp ltac:(lia)) as Ew.
      set (plain1 := Memory.mk _ _ _) in *.
      destruct (IH c' st' mem' plain1) as (w' & plain' & vs & E1 & E2 & Hfin).
      * done.
      * by rewrite (sc_memory _ _ Hcfg).
      * destruct Hp as [? Hl]. split; [done|]. simpl.
        by rewrite length_insert.
      * by rewrite (sc_address_bit _ _ Hcfg).
      * rewrite (sc_address_bit _ _ Hcfg). intros a Haa.
        rewrite (Hcont a Haa). simpl.
        destruct (decide (a = address)) as [->|Hne].
        -- rewrite list_lookup_insert_eq; [done|].
           destruct Hp as [? Hl]. rewrite Hl. lia.
        -- rewrite list_lookup_insert_ne; [by apply Hagree|].
           intros Eq. apply Z2Nat.inj in Eq; lia.
      * by rewrite (sc_address_bit _ _ Hcfg).
      * exists w', plain', vs. simpl. unfold bind.
        rewrite E, Ew. rewrite (sc_memory _ _ Hcfg) in E1. rewrite E1, E2.
        split_and!; [done|done|].
        rewrite (sc_address_bit _ _ Hcfg) in Hfin. done.
Qed.

Lemma fresh_holder cache_size block_size associativity policy address_bit
    memory c a :
  Cache.init cache_size block_size associativity policy address_bit memory
    = Ok c →
  holder c a = None.
Proof.
  intros Hinit. apply init_inv in Hinit as (_ & _ & _ & ->).
  unfold holder. simpl.
  destruct (_ !! _) as [s|] eqn:Hs; [|done].
  by apply list_lookup_fmap_Some in Hs as (k & -> & _).
Qed.

(** X21. A cache in front of its memory is invisible to the reads.  Take a
    cache constructed with a set at least over a [Memory] with a cell for
    each address of the address space, and a trace of reads of valid
    addresses and of writes of integers to valid addresses.  Under each
    policy the calls to the cache all return, the reads return what they
    return when the trace runs on the [Memory] alone, and afterwards the
    cache and its memory hold for each address the word that the
    [Memory] alone holds. *)
Theorem cache_is_transparent
    (cache_size block_size associativity : Z) (policy : string)
    (address_bit : Z) (memory : ref) (c : Cache.t) (st : Store)
    (mem : Memory.t) (ops : list op) :
  Cache.init cache_size block_size associativity policy address_bit memory
    = Ok c →
  0 < Cache.set_count c →
  mems st !! memory = Some mem →
  memory_ok mem →
  Memory.size mem = 2 ^ address_bit →
  valid_trace address_bit ops →
  ∃ w' mem' vs,
    cache_reads memory ops (c, st) = (w', Ok vs)
    ∧ memory_reads ops mem = (mem', Ok vs)
    ∧ ∀ a, 0 ≤ a < 2 ^ address_bit →
        world_contents w' a
        = cell_value <$> Memory.data mem' !! Z.to_nat a.
Proof.
  intros Hinit Hsc Hst Hm Hsz Hv.
  pose proof (served_init _ _ _ _ _ _ _ _ _ Hinit Hsc Hst Hm Hsz) as Hw.
  destruct (served_coherent _ Hw) as (mem0 & Hst0 & Hch). simpl in *.
  pose proof (init_inv _ _ _ _ _ _ _ Hinit) as (_ & _ & _ & Hc).
  assert (Hmc : Cache.memory c = memory) by by rewrite Hc.
  assert (Hab : Cache.address_bit c = address_bit) by by rewrite Hc.
  rewrite Hmc in Hst0. assert (mem0 = mem) as -> by congruence.
  destruct (transparent_run ops c st mem mem Hch) as (w' & mem' & vs & H);
    try done.
  - by rewrite Hmc.
  - by rewrite Hab.
  - intros a Ha. unfold contents.
    by rewrite (fresh_holder _ _ _ _ _ _ _ a Hinit).
  - by rewrite Hab.
  - rewrite Hmc, Hab in H. by exists w', mem', vs.
Qed.

Lemma cache_is_transparent_witness :
  ∃ w' mem' vs,
    cache_reads 0%nat [Read 0; Write 1 (PyInt 7); Read 4; Read 8; Read 1]
      (demo_cache, demo_store) = (w', Ok vs)
    ∧ memory_reads [Read 0; Write 1 (PyInt 7); Read 4; Read 8; Read 1]
        (Memory.init 16) = (mem', Ok vs)
    ∧ ∀ a, 0 ≤ a < 2 ^ 4 →
        world_contents w' a
        = cell_value <$> Memory.data mem' !! Z.to_nat a.
Proof.
  apply (cache_is_transparent 8 2 2 "LRU" 4 0%nat demo_cache demo_store
           (Memory.init 16)
           [Read 0; Write 1 (PyInt 7); Read 4; Read 8; Read 1]).
  - apply demo_cache_init.
  - done.
  - reflexivity.
  - apply demo_store_ok.
  - reflexivity.
  - repeat (apply Forall_cons_2; [split; [simpl; lia|try done; by eexists]|]).
    apply Forall_nil_2.
Defined.

(** The 7 written to address 1 comes back after its dirty block was
    evicted by the read of address 8. *)
Example demo_reads_agree :
  let ops := [Read 0; Write 1 (PyInt 7); Read 4; Read 8; Read 1] in
  (cache_reads 0%nat ops (demo_cache, demo_store)).2
  = Ok [PyInt 0; PyInt 0; PyInt 0; PyInt 7]
  ∧ (memory_reads ops (Memory.init 16)).2
    = Ok [PyInt 0; PyInt 0; PyInt 0; PyInt 7].
Proof. by vm_compute. Qed.

(** ** The block used last is not the next victim *)

Lemma scan_least stamp (d : OrderedDict.t CacheBlock.t) victim :
  NoDup (OrderedDict.keys d) →
  Forall (λ item, 0 ≤ stamp item.2) d →
  (CacheSet.scan stamp d).2 = Some victim →
  ∃ b, OrderedDict.getitem d victim = Some b
       ∧ ∀ t x, (t, x) ∈ d → stamp b ≤ stamp x.
Proof.
  intros Hnd Hpos Hscan.
  assert (Hne : d ≠ []) by by intros ->.
  destruct (scan_first_minimum stamp d Hne Hpos)
    as (pre & tag & b & post & -> & Hs & Hpre & Hpost).
  rewrite Hs in Hscan. injection Hscan as <-.
  exists b. split.
  - apply getitem_middle. by eapply NoDup_keys_middle.
  - intros t x Hx. rewrite Forall_forall in Hpre, Hpost.
    apply elem_of_app in Hx as [Hx | Hx].
    + specialize (Hpre _ Hx). simpl in Hpre. lia.
    + apply elem_of_cons in Hx as [[= -> ->] | Hx]; [lia|].
      by apply (Hpost _ Hx).
Qed.

Lemma another_key {V} (d : OrderedDict.t V) k :
  NoDup (OrderedDict.keys d) → (2 ≤ length d)%nat →
  ∃ k' v', (k', v') ∈ d ∧ k' ≠ k.
Proof.
  intros Hnd Hlen.
  destruct d as [|[k1 v1] [|[k2 v2] d]]; simpl in Hlen; try lia.
  simpl in Hnd. apply NoDup_cons in Hnd as [Hk1 _].
  destruct (decide (k1 = k)) as [->|Hne].
  - exists k2, v2. split; [right; left|].
    intros ->. apply Hk1. left.
  - exists k1, v1. split; [left|done].
Qed.

(** A block whose stamp is above the stamps of the others stays in its
    set through a call, under FIFO and LRU with two ways at least. *)
Lemma recent_survives c tag d d' ta ba :
  Cache.policy c = "FIFO" ∨ Cache.policy c = "LRU" →
  2 ≤ Cache.associativity c →
  NoDup (OrderedDict.keys d) →
  Forall (λ item, 0 ≤ policy_stamp (Cache.policy c) item.2) d →
  OrderedDict.getitem d ta = Some ba →
  (∀ t x, (t, x) ∈ d → t ≠ ta →
          policy_stamp (Cache.policy c) x < policy_stamp (Cache.policy c) ba) →
  set_change c tag d d' →
  is_Some (OrderedDict.getitem d' ta).
Proof.
  intros Hp Ha Hnd Hpos Hba Hrecent
    [-> | b b' Hb -> _ _ | block Hk Hroom -> _ _
     | victim b block Hk Hfull Hb Hleast -> _ _].
  - by eexists.
  - destruct (decide (tag = ta)) as [->|Hne].
    + rewrite getitem_setitem_eq. by eexists.
    + rewrite getitem_setitem_ne by done. by eexists.
  - rewrite getitem_setitem_ne; [by eexists|].
    intros ->. apply Hk. by eapply getitem_key.
  - rewrite getitem_setitem_ne.
    2: { intros ->. apply Hk. by eapply getitem_key. }
    destruct (scan_least _ d victim Hnd Hpos (Hleast Hp)) as (bv & Hbv & Hmin).
    destruct (decide (victim = ta)) as [->|Hne].
    + exfalso. assert (bv = ba) as -> by congruence.
      destruct (another_key d ta Hnd ltac:(lia)) as (t & x & Hx & Hne).
      specialize (Hrecent _ _ Hx Hne). specialize (Hmin _ _ Hx). lia.
    + rewrite getitem_delitem_ne by done. by eexists.
Qed.

(** X22. Under LRU with two ways at least, the block of an address that
    a [read] has just returned is still in the cache after the next
    call, whatever that call is and however it ends; under FIFO the same
    holds when the [read] was a miss and so loaded the block. *)
Theorem recent_block_survives_the_next_call
    (c : Cache.t) (st : Store) (address : Z) (memory : ref)
    (c1 : Cache.t) (st1 : Store) (v : pyval)
    (o : op) (memory' : ref) (c2 : Cache.t) (st2 : Store) (r : result unit) :
  reachable (c, st) →
  2 ≤ Cache.associativity c →
  Cache.policy c = "LRU"
  ∨ (Cache.policy c = "FIFO" ∧ holder c address = None) →
  Cache.read address memory (c, st) = ((c1, st1), Ok v) →
  run_op memory' o (c1, st1) = ((c2, st2), r) →
  ∃ b, holder c1 address = Some b ∧ is_Some (holder c2 address).
Proof.
  intros Hr Hassoc Hpol H1 H2.
  pose proof (reachable_ok _ Hr) as Hok. simpl in Hok.
  assert (Hr1 : reachable (c1, st1)).
  { eapply reachable_step; [exact Hr|]. by eapply step_read. }
  pose proof (reachable_ok _ Hr1) as Hok1. simpl in Hok1.
  destruct (read_frame _ _ _ _ _ _ _ H1) as (Hcfg & _ & _ & _ & Htime & _).
  specialize (Htime v eq_refl).
  destruct (run_op_frame _ _ _ _ _ _ _ H2) as (Hcfg2 & _).
  (* the block after the read, stamped with the clock *)
  assert (Hblock : ∃ tag index offset s1 b1,
            Cache.address_split c address = Ok (tag, index, offset)
            ∧ 0 ≤ index
            ∧ Cache.sets c1 !! Z.to_nat index = Some s1
            ∧ CacheSet.find_block s1 tag = Some b1
            ∧ policy_stamp (Cache.policy c) b1 = Cache.time c).
  { destruct (read_cases address memory c st)
      as [(e & Hsplit & E)
         | (tag & index & offset & Hsplit
            & [[Hk E] | (s & Hi & Hs & [(b & Hb & Hv & E) | [Hmiss E]])])];
      try (rewrite E in H1; discriminate).
    - destruct Hpol as [Hlru | [Hfifo Hnone]].
      + destruct (read_hit_refreshes c st address memory _ _ _ _ _ Hok Hlru
                    Hsplit Hs Hb)
          as (c' & w & s' & b' & E' & _ & Hs' & Hb' & Hl & _).
        rewrite E' in H1. injection H1 as <- <- <-.
        exists tag, index, offset, s', b'. split_and!; try done.
        by rewrite Hlru.
      + exfalso. apply address_split_inv in Hsplit as (_ & _ & _ & -> & -> & _).
        unfold holder, index_of, tag_of in Hnone. rewrite Hs in Hnone.
        congruence.
    - destruct (read_miss_stamps c st address memory _ _ _ _ _ _ _ Hok Hsplit
                  Hs Hmiss H1) as (s' & b' & Hs' & Hb' & Hload & Hlast & _).
      exists tag, index, offset, s', b'. split_and!; try done.
      unfold policy_stamp. by destruct (String.eqb _ _). }
  destruct Hblock as (tag & index & offset & s1 & b1 & Hsplit & Hi & Hs1 & Hb1
                      & Hstamp).
  apply address_split_inv in Hsplit as (_ & _ & _ & Htag & Hindex & _).
  assert (Hh1 : holder c1 address = Some b1).
  { unfold holder, index_of, tag_of.
    rewrite (sc_block_size _ _ Hcfg), (sc_set_count _ _ Hcfg).
    by rewrite <- Hindex, <- Htag, Hs1. }
  exists b1. split; [done|].
  (* the stamps of the other blocks are below *)
  pose proof (co_sets _ Hok1 _ _ Hs1) as Hso1.
  assert (Hp1 : Cache.policy c1 = "FIFO" ∨ Cache.policy c1 = "LRU").
  { rewrite (sc_policy _ _ Hcfg). destruct Hpol as [? | [? _]]; auto. }
  assert (Hrecent : ∀ t x, (t, x) ∈ CacheSet.blocks s1 → t ≠ tag →
            policy_stamp (Cache.policy c1) x
            < policy_stamp (Cache.policy c1) b1).
  { intros t x Hx Hne.
    rewrite (sc_policy _ _ Hcfg), Hstamp.
    destruct (so_blocks _ _ _ Hso1 _ _ Hx) as [_ _ _ _ _ _ [Hle Hlt]].
    pose proof (find_block_elem _ _ _ Hb1) as Hel.
    unfold policy_stamp in *.
    destruct (String.eqb (Cache.policy c) "FIFO").
    - assert (CacheBlock.load_time x ≠ CacheBlock.load_time b1).
      { intros E. apply Hne.
        by eapply (sorted_load_times_differ _ (so_sorted _ _ _ Hso1)). }
      lia.
    - assert (CacheBlock.last_time x ≠ CacheBlock.last_time b1).
      { intros E. apply Hne.
        by eapply (reachable_last_times _ Hr1 _ s1 Hs1). }
      lia. }
  (* the next call *)
  destruct (step_set_change (c1, st1) (c2, st2) Hok1
              (reachable_policy _ Hr1) (run_op_step _ _ _ _ _ H2))
    as [tag2 Hch].
  destruct (Hch _ _ Hs1) as (s2 & Hs2 & Hchange).
  simpl in Hs2, Hchange.
  unfold holder, index_of, tag_of.
  rewrite (sc_block_size _ _ Hcfg2), (sc_set_count _ _ Hcfg2).
  rewrite (sc_block_size _ _ Hcfg), (sc_set_count _ _ Hcfg).
  rewrite <- Hindex, <- Htag, Hs2.
  apply (recent_survives c1 tag2 (CacheSet.blocks s1) (CacheSet.blocks s2)
           tag b1 Hp1); try done.
  - rewrite (sc_associativity _ _ Hcfg). done.
  - apply Hso1.
  - by eapply stamps_nonneg.
Qed.

Lemma recent_block_survives_the_next_call_witness :
  ∃ b, holder demo_evicting.1 8 = Some b
       ∧ is_Some (holder demo_evicted.1 8).
Proof.
  apply (recent_block_survives_the_next_call demo_world.1 demo_world.2 8 0%nat
           demo_evicting.1 demo_evicting.2 (PyInt 0)
           (Read 12) 0%nat demo_evicted.1 demo_evicted.2 (Ok tt)).
  - apply demo_world_reachable.
  - by vm_compute.
  - by left.
  - reflexivity.
  - reflexivity.
Defined.

(** Under RANDOM the block just loaded can be the next victim: in a set
    of two ways that holds the blocks of the addresses 0 and 2, the draw 1
    makes the read of address 4 evict the block of address 2. *)
Example random_can_evict_the_newest :
  let c0 := Cache.mk 4 2 "RANDOM" 4 2 1 0%nat 0 0 0 0 0 0 0
              [CacheSet.init 2 "RANDOM" 0%nat] in
  Cache.init 4 2 2 "RANDOM" 4 0%nat = Ok c0
  ∧ let w1 := (run_ops 0%nat [Read 0; Read 2]
                 (c0, mkStore [Memory.init 16] [1%nat])).1 in
    let w2 := (Cache.read 4 0%nat w1).1 in
    CacheBlock.tag <$> holder w1.1 2 = Some 1
    ∧ holder w2.1 2 = None
    ∧ CacheBlock.tag <$> holder w2.1 0 = Some 0.
Proof. by vm_compute. Qed.

(** ** A hit is counted exactly when the block is cached *)

Lemma read_counts_hit c st address memory c' st' r :
  cache_ok c → 0 < Cache.set_count c →
  address < 2 ^ Cache.address_bit c →
  Cache.read address memory (c, st) = ((c', st'), r) →
  Cache.hit_count c'
  = Cache.hit_count c
    + match holder c address with Some _ => 1 | None => 0 end.
Proof.
  intros Hok Hsc Ha H.
  destruct (split_parts c address Hok Hsc Ha) as (Hsplit & Hi & _ & s & Hs).
  destruct (is_hit s (tag_of c address)) eqn:Hhit.
  - destruct (is_hit_block _ _ Hhit) as (b & Hb & Hv).
    rewrite (read_hit _ _ _ _ _ _ _ _ _ Hsplit ltac:(lia) Hs Hb Hv) in H.
    injection H as <- <- <-.
    unfold holder. rewrite Hs, Hb.
    by destruct (read_hit_cache_fields c (index_of c address)
                   (tag_of c address) s b) as (_ & -> & _).
  - rewrite (miss_holder c address s Hok Hs Hhit).
    rewrite (read_miss _ _ _ _ _ _ _ _ Hsplit ltac:(lia) Hs Hhit) in H.
    unfold read_miss_outcome in H.
    destruct (Cache.fetch _ _ _ _ _ st) as [st1 [data|e]].
    2: { injection H as <- <- <-. simpl. lia. }
    destruct (CacheSet.add_block _ (s, st1)) as [[s1 st2] [u|e]];
      injection H as <- <- <-; simpl; lia.
Qed.

Lemma write_counts_hit c st address data memory c' st' r :
  cache_ok c → 0 < Cache.set_count c →
  address < 2 ^ Cache.address_bit c →
  Cache.write address data memory (c, st) = ((c', st'), r) →
  Cache.hit_count c'
  = Cache.hit_count c
    + match holder c address with Some _ => 1 | None => 0 end.
Proof.
  intros Hok Hsc Ha H.
  destruct (split_parts c address Hok Hsc Ha) as (Hsplit & Hi & _ & s & Hs).
  destruct (is_hit s (tag_of c address)) eqn:Hhit.
  - destruct (is_hit_block _ _ Hhit) as (b & Hb & Hv).
    destruct (write_hit_ok c st address data memory _ _ _ _ _ Hok Hsplit Hs
                Hb) as [_ E].
    rewrite E in H. injection H as <- <- <-.
    unfold holder. by rewrite Hs, Hb.
  - rewrite (miss_holder c address s Hok Hs Hhit).
    rewrite (write_miss _ _ _ _ _ _ _ _ _ Hsplit ltac:(lia) Hs Hhit) in H.
    unfold write_miss_outcome in H.
    destruct (at_ref _ _ st) as [st1 r1].
    injection H as <- <- <-. simpl. lia.
Qed.

(** X23. In a running cache with a set, a call of [read] or [write] for an
    address below [2 ** address_bit] adds one to [hit_count] exactly when
    a block of the cache holds the address before the call, whatever the
    outcome of the call. *)
Theorem hit_is_counted_when_cached
    (c : Cache.t) (st : Store) (o : op) (memory : ref)
    (c' : Cache.t) (st' : Store) (r : result unit) :
  reachable (c, st) →
  0 < Cache.set_count c →
  op_address o < 2 ^ Cache.address_bit c →
  run_op memory o (c, st) = ((c', st'), r) →
  Cache.hit_count c'
  = Cache.hit_count c
    + match holder c (op_address o) with Some _ => 1 | None => 0 end.
Proof.
  intros Hr Hsc Ha H.
  pose proof (reachable_ok _ Hr) as Hok. simpl in Hok.
  destruct o as [address | address data].
  - rewrite run_op_read in H.
    destruct (Cache.read address memory (c, st)) as [[c1 st1] r1] eqn:E.
    assert (c1 = c') as -> by by destruct r1; injection H.
    by eapply read_counts_hit.
  - by eapply write_counts_hit.
Qed.

Lemma hit_is_counted_when_cached_witness :
  Cache.hit_count demo_next.1
  = Cache.hit_count demo_world.1
    + match holder demo_world.1 (op_address (Read 5)) with
      | Some _ => 1
      | None => 0
      end.
Proof.
  apply (hit_is_counted_when_cached demo_world.1 demo_world.2 (Read 5) 0%nat
           demo_next.1 demo_next.2 (Ok tt)).
  - apply demo_world_reachable.
  - by vm_compute.
  - by vm_compute.
  - reflexivity.
Defined.

(** ** Ties between timestamps *)





(** The condition on -1 cannot be dropped: a block stamped -1 puts [temp]
    back to its first value, so that the next block is taken whatever its
    stamp, and of two blocks stamped -1 the second is the victim. *)
Example tie_on_the_first_value_of_temp :
  CacheSet.choose_victim (marked_set, demo_store)
  = ((marked_set, demo_store), Ok (Some 3))
  ∧ CacheSet.evict_block (marked_set, demo_store)
    = ((CacheSet.set_blocks [(5, marked_block 5)] marked_set, demo_store),
       Ok tt).
Proof. repeat split. Qed.
